(** * Boulderdash cave tools: a shallow embedding of the level-checking scripts

    The repository holds five Python scripts that read the level file of the
    game and check or rewrite the diamond layout of its caves:

    - [redistribute-diamonds.py]  ([redistribute_cave_diamonds])
    - [verify-accessibility.py]   ([flood_fill_check])
    - [check-sealed-diamonds.py]  ([check_sealed_diamonds])
    - [check-all-caves.py]        (the clustering loop)
    - [fix-all-caves.py]          ([distribute_diamonds], a draft of the
      redistribution that shuffles the candidates with [random]; it is
      never called and is not embedded)

    Each function is embedded as a Rocq function of the same name.  A Python
    [str] is a [string] whose characters are read as the code points 0..255, a
    Python [int] is a [Z], a list index or a length is a [nat], a [set] of
    coordinate pairs is a [gset (Z * Z)], a raised exception is the [Raise]
    branch of [py_result], and what a function prints is returned next to its
    value. *)

From Stdlib Require Import ZArith Lia String Ascii List DecimalString.
From Stdlib Require Import SpecFloat.
From Stdlib Require DecimalPos DecimalZ.
From stdpp Require Import base list gmap.

Set Warnings "-clear-no-such-hyp".

Local Open Scope string_scope.
Local Open Scope Z_scope.

(** ** Python strings *)

Module PyStr.

(** The line feed, ['\n']. *)
Definition nl : ascii := "010"%char.

(** [str.isspace] on one character, for the code points below 256:
    TAB..CR, FS..US, SPACE, NEL and NBSP.  This is the set that
    [str.strip()] with no argument removes. *)
Definition is_space (c : ascii) : bool :=
  let n := nat_of_ascii c in
  ((9 <=? n)%nat && (n <=? 13)%nat)
  || ((28 <=? n)%nat && (n <=? 32)%nat)
  || (n =? 133)%nat || (n =? 160)%nat.

Fixpoint lstrip (s : string) : string :=
  match s with
  | EmptyString => EmptyString
  | String c s' => if is_space c then lstrip s' else s
  end.

Fixpoint rstrip (s : string) : string :=
  match s with
  | EmptyString => EmptyString
  | String c s' =>
      match rstrip s' with
      | EmptyString => if is_space c then EmptyString else String c EmptyString
      | r => String c r
      end
  end.

(** [s.strip()] *)
Definition strip (s : string) : string := rstrip (lstrip s).

(** [s.split('\n')]: never the empty list, [''.split('\n') == ['']]. *)
Fixpoint split_nl (s : string) : list string :=
  match s with
  | EmptyString => [EmptyString]
  | String c s' =>
      if Ascii.eqb c nl then EmptyString :: split_nl s'
      else match split_nl s' with
           | l :: ls => String c l :: ls
           | [] => [String c EmptyString]
           end
  end.

(** [pattern_text.strip().split('\n')]: the rows of a pattern, as line 10
    of the redistribution, line 14 of the sealed-diamond check and line 13 of
    the clustering check take them. *)
Definition lines_of (pattern_text : string) : list string :=
  split_nl (strip pattern_text).

(** ['\n'.join(ls)] *)
Fixpoint join_nl (ls : list string) : string :=
  match ls with
  | [] => EmptyString
  | [l] => l
  | l :: ls' => l ++ String nl (join_nl ls')
  end.

(** [s.replace(a, b)] for one-character [a] and [b]. *)
Fixpoint replace (a b : ascii) (s : string) : string :=
  match s with
  | EmptyString => EmptyString
  | String c s' => String (if Ascii.eqb c a then b else c) (replace a b s')
  end.

(** [s.count(a)] for a one-character [a]. *)
Fixpoint count (a : ascii) (s : string) : nat :=
  match s with
  | EmptyString => 0%nat
  | String c s' => ((if Ascii.eqb c a then 1 else 0) + count a s')%nat
  end.

(** [c in cs] for a list of one-character strings. *)
Definition char_in (c : ascii) (cs : list ascii) : bool :=
  existsb (Ascii.eqb c) cs.

(** [str(n)] for an [int], as an f-string prints it. *)
Definition str_of_int (n : Z) : string :=
  NilZero.string_of_int (Z.to_int n).

(** [l[i]] on a list, with Python's negative indices; [None] is
    [IndexError]. *)
Definition getitem {A} (l : list A) (i : Z) : option A :=
  if 0 <=? i then l !! Z.to_nat i
  else if - Z.of_nat (length l) <=? i then l !! Z.to_nat (Z.of_nat (length l) + i)
  else None.

End PyStr.

(** ** Exceptions and printed output *)

Inductive py_exn : Type :=
| ZeroDivisionError
| IndexError.

Inductive py_result (A : Type) : Type :=
| Ret (a : A)
| Raise (e : py_exn).
Arguments Ret {A} a.
Arguments Raise {A} e.

#[global] Instance py_result_ret : MRet py_result := fun A a => Ret a.

#[global] Instance py_result_bind : MBind py_result := fun A B k m =>
  match m with
  | Ret a => k a
  | Raise e => Raise e
  end.

(** ** Python floats

    A Python [float] is an IEEE 754 binary64 number.  The scripts only divide
    and multiply lengths and counts, so every value they compute is a finite
    number whose magnitude lies far inside the normal range; such a value is
    kept as [mant * 2 ^ expo], and every operation returns the exact result
    rounded to 53 significant bits, ties to even, as the hardware does.
    Infinities, NaN and subnormal numbers are outside this model;
    [model_agrees_with_binary64] compares it with the binary64 operations of
    the standard library's [SpecFloat]. *)

Module PyFloat.

Record float : Type := mkfloat { mant : Z; expo : Z }.

(** [2 ^ e] for [e >= 0], and [1] otherwise: the pair [pow2 e], [pow2 (- e)]
    is the numerator and the denominator of [2 ^ e]. *)
Definition pow2 (e : Z) : Z := 2 ^ Z.max e 0.

(** [floor (log2 (n / d))] for positive [n] and [d]. *)
Definition ilog2_frac (n d : Z) : Z :=
  let k := Z.log2 n - Z.log2 d in
  if n * pow2 (- k) <? d * pow2 k then k - 1 else k.

(** The integer nearest to [n / d], ties to even, for [0 <= n] and [0 < d]. *)
Definition rne (n d : Z) : Z :=
  let q := n / d in
  match 2 * (n mod d) ?= d with
  | Lt => q
  | Gt => q + 1
  | Eq => if Z.even q then q else q + 1
  end.

(** [n / d] rounded to 53 significant bits, for positive [n] and [d]. *)
Definition round53 (n d : Z) : float :=
  let e := ilog2_frac n d - 52 in
  mkfloat (rne (n * pow2 (- e)) (d * pow2 e)) e.

(** The same for any [n], with [0 < d]: rounding is symmetric. *)
Definition round_frac (n d : Z) : float :=
  match n with
  | 0 => mkfloat 0 0
  | Zpos _ => round53 n d
  | Zneg _ => let f := round53 (- n) d in mkfloat (- mant f) (expo f)
  end.

(** [a / b] on two [int]s: the correctly rounded quotient. *)
Definition truediv (a b : Z) : py_result float :=
  if b =? 0 then Raise ZeroDivisionError
  else Ret (round_frac (a * Z.sgn b) (Z.abs b)).

(** [float(i)] *)
Definition of_int (i : Z) : float := round_frac i 1.

(** [x * y] on two floats. *)
Definition mul (x y : float) : float :=
  let m := mant x * mant y in
  let e := expo x + expo y in
  round_frac (m * pow2 e) (pow2 (- e)).

(** [i * x] and [x * i] with an [int] [i]: the [int] is converted first. *)
Definition mul_int (i : Z) (x : float) : float := mul (of_int i) x.

(** [int(x)]: truncation towards zero. *)
Definition to_int (x : float) : Z :=
  Z.quot (mant x * pow2 (expo x)) (pow2 (- expo x)).

(** [x > n] for a float [x] and an [int] [n]: Python compares the exact
    values. *)
Definition gt_int (x : float) (n : Z) : bool :=
  n * pow2 (- expo x) <? mant x * pow2 (expo x).

(** [f'{x:.0f}']: the nearest integer, ties to even, in decimal. *)
Definition format_0f (x : float) : string :=
  let n := mant x * pow2 (expo x) in
  let d := pow2 (- expo x) in
  PyStr.str_of_int (Z.sgn n * rne (Z.abs n) d).

(** The value of [x] is the fraction [num x / den x]. *)
Definition num (x : float) : Z := mant x * pow2 (expo x).
Definition den (x : float) : Z := pow2 (- expo x).

(** [x <= y] on the values. *)
Definition le (x y : float) : Prop := num x * den y <= num y * den x.

(** The binary64 datum of a positive value of the model. *)
Definition to_spec (x : float) : spec_float :=
  match mant x with
  | Zpos m =>
      if mant x =? 2 ^ 53 then S754_finite false (Z.to_pos (2 ^ 52)) (expo x + 1)
      else S754_finite false m (expo x)
  | Z0 => S754_zero false
  | Zneg m => S754_finite true m (expo x)
  end.

(** The binary64 datum of a positive [int]. *)
Definition spec_of_int (i : Z) : spec_float :=
  binary_normalize 53 1024 i 0 false.

End PyFloat.

(** ** redistribute-diamonds.py *)

Module Redistribute.
Import PyStr PyFloat.

(** A coordinate pair [(x, y)] as [enumerate] yields it: column, then row. *)
Abbreviation pos := (nat * nat)%type (only parsing).

(** Lines 13-15: [line.replace('*', '.')] on every line. *)
Definition clean_lines (lines : list string) : list string :=
  map (replace "*" ".") lines.

(** Lines 20-22, the loop over the characters of row [y], from column [x]
    on: a ['.'] or a [' '] appends its coordinates to [valid_positions]. *)
Fixpoint scan_line (y x : nat) (line : string) (valid_positions : list pos)
  : list pos :=
  match line with
  | EmptyString => valid_positions
  | String char rest =>
      scan_line y (S x) rest
        (if char_in char ["."%char; " "%char]
         then valid_positions ++ [(x, y)] else valid_positions)
  end.

(** Lines 19-22, the loop over the rows, from row [y] on. *)
Fixpoint scan_lines (y : nat) (lines : list string) (valid_positions : list pos)
  : list pos :=
  match lines with
  | [] => valid_positions
  | line :: rest => scan_lines (S y) rest (scan_line y 0 line valid_positions)
  end.

(** [range(required)] *)
Definition range (required : Z) : list Z :=
  map Z.of_nat (seq 0 (Z.to_nat required)).

(** Line 32: [int(i * step)]. *)
Definition index_of (step : float) (i : Z) : Z := to_int (mul_int i step).

(** Lines 31-33: the loop over [range(required)], appending
    [valid_positions[idx]] to [selected]. *)
Fixpoint select (step : float) (valid_positions : list pos) (indices : list Z)
    (selected : list pos) : py_result (list pos) :=
  match indices with
  | [] => Ret selected
  | i :: rest =>
      match getitem valid_positions (index_of step i) with
      | Some p => select step valid_positions rest (selected ++ [p])
      | None => Raise IndexError
      end
  end.

(** Lines 38-42 on row [y], from column [x] on: a cell whose coordinates are
    in [selected] becomes ['*']. *)
Fixpoint stamp_line (y x : nat) (line : string) (selected : list pos) : string :=
  match line with
  | EmptyString => EmptyString
  | String ch rest =>
      String (if bool_decide ((x, y) ∈ selected) then "*"%char else ch)
             (stamp_line y (S x) rest selected)
  end.

(** Lines 36-42, from row [y] on. *)
Fixpoint stamp_lines (y : nat) (lines : list string) (selected : list pos)
  : list string :=
  match lines with
  | [] => []
  | line :: rest => stamp_line y 0 line selected :: stamp_lines (S y) rest selected
  end.

(** Line 25: the message of the [print]. *)
Definition error_line (found : nat) (required : Z) : string :=
  "ERROR: Only " ++ str_of_int (Z.of_nat found) ++ " positions for "
  ++ str_of_int required ++ " diamonds!".

(** [redistribute_cave_diamonds(pattern_text, required)]: the lines it prints
    and what it returns or raises. *)
Definition redistribute_cave_diamonds (pattern_text : string) (required : Z)
  : list string * py_result string :=
  let lines := lines_of pattern_text in
  let cleaned_lines := clean_lines lines in
  let valid_positions := scan_lines 0 cleaned_lines [] in
  if Z.of_nat (length valid_positions) <? required then
    ([error_line (length valid_positions) required], Ret pattern_text)
  else
    ([],
     step ← truediv (Z.of_nat (length valid_positions)) required;
     selected ← select step valid_positions (range required) [];
     Ret (join_nl (stamp_lines 0 cleaned_lines selected))).

End Redistribute.

(** ** Rows and cells *)

Module Grid.
Import PyStr.

(** [len(s)] *)
Definition len (s : string) : Z := Z.of_nat (String.length s).

(** [s[i]] on a string for [0 <= i]; out of range is [IndexError]. *)
Definition char_at (s : string) (i : Z) : py_result ascii :=
  match (if 0 <=? i then String.get (Z.to_nat i) s else None) with
  | Some c => Ret c
  | None => Raise IndexError
  end.

(** [lines[i]] for [0 <= i]; out of range is [IndexError]. *)
Definition row_at (lines : list string) (i : Z) : py_result string :=
  match (if 0 <=? i then lines !! Z.to_nat i else None) with
  | Some l => Ret l
  | None => Raise IndexError
  end.

(** The guarded lookup both checkers write as
    [if 0 <= ny < len(lines) and 0 <= nx < len(lines[ny]): ... lines[ny][nx]]:
    the cell when the guard holds, [None] when it does not. *)
Definition lookup_cell (lines : list string) (nx ny : Z) : option ascii :=
  if (0 <=? ny) && (ny <? Z.of_nat (length lines)) then
    match lines !! Z.to_nat ny with
    | Some line =>
        if (0 <=? nx) && (nx <? len line) then String.get (Z.to_nat nx) line
        else None
    | None => None
    end
  else None.

End Grid.

(** ** verify-accessibility.py *)

Module Accessibility.
Import PyStr Grid.

Abbreviation coord := (Z * Z)%type (only parsing).

(** Line 11: the rows of a pattern, empty rows left out. *)
Definition nonempty_lines (pattern_text : string) : list string :=
  filter (fun line => line ≠ EmptyString) (split_nl (strip pattern_text)).

(** Lines 20-24 on row [y], from column [x] on. *)
Fixpoint find_in_line (y x : Z) (line : string)
    (st : option coord * gset coord) : option coord * gset coord :=
  match line with
  | EmptyString => st
  | String char rest =>
      let '(player_pos, diamond_positions) := st in
      find_in_line y (x + 1) rest
        (if Ascii.eqb char "P" then (Some (x, y), diamond_positions)
         else if Ascii.eqb char "*" then (player_pos, {[ (x, y) ]} ∪ diamond_positions)
         else st)
  end.

(** Lines 19-24, from row [y] on. *)
Fixpoint find_in_lines (y : Z) (lines : list string)
    (st : option coord * gset coord) : option coord * gset coord :=
  match lines with
  | [] => st
  | line :: rest => find_in_lines (y + 1) rest (find_in_line y 0 line st)
  end.

(** Line 43. *)
Definition directions : list coord := [(0, 1); (0, -1); (1, 0); (-1, 0)].

(** Line 50. *)
Definition walkable_chars : list ascii :=
  [" "; "."; "*"; "E"; "F"; "P"]%char.

(** Lines 44-52, the body of the loop over the directions, at the cell
    [(x, y)] taken from the queue. *)
Definition visit (lines : list string) (x y : Z)
    (st : gset coord * list coord) (d : coord) : gset coord * list coord :=
  let '(visited, queue) := st in
  let '(dx, dy) := d in
  let nx := x + dx in
  let ny := y + dy in
  match lookup_cell lines nx ny with
  | Some char =>
      if bool_decide ((nx, ny) ∉ visited) then
        if char_in char walkable_chars
        then ({[ (nx, ny) ]} ∪ visited, (queue ++ [(nx, ny)])%list)
        else st
      else st
  | None => st
  end.

(** The state of the loop of lines 35-52. *)
Record flood : Type := mkflood {
  visited : gset coord;
  queue : list coord;
  reachable_diamonds : gset coord
}.

(** Lines 36-52: one turn of the [while] loop, for the cell at the head of
    the queue. *)
Definition turn (lines : list string) (diamond_positions : gset coord)
    (x y : Z) (rest : list coord) (st : flood) : flood :=
  let reachable :=
    if bool_decide ((x, y) ∈ diamond_positions)
    then {[ (x, y) ]} ∪ reachable_diamonds st else reachable_diamonds st in
  let '(visited', queue') := fold_left (visit lines x y) directions (visited st, rest) in
  mkflood visited' queue' reachable.

(** Lines 35-52: the [while queue] loop; [None] when [fuel] turns do not
    empty the queue. *)
Fixpoint flood_loop (fuel : nat) (lines : list string)
    (diamond_positions : gset coord) (st : flood) : option flood :=
  match queue st with
  | [] => Some st
  | (x, y) :: rest =>
      match fuel with
      | O => None
      | S fuel' =>
          flood_loop fuel' lines diamond_positions
            (turn lines diamond_positions x y rest st)
      end
  end.

(** The number of cells of the grid: no more turns than that are needed. *)
Definition cells (lines : list string) : nat :=
  foldr (fun line n => (String.length line + n)%nat) 0%nat lines.

(** [flood_fill_check(pattern_text)]: the triple
    [(all_accessible, reachable, unreachable)]. *)
Definition flood_fill_check (pattern_text : string) : option (bool * Z * Z) :=
  let lines := nonempty_lines pattern_text in
  match lines with
  | [] => Some (true, 0, 0)
  | _ =>
      let '(player_pos, diamond_positions) := find_in_lines 0 lines (None, ∅) in
      match player_pos with
      | None => Some (false, 0, Z.of_nat (size diamond_positions))
      | Some start =>
          st ← flood_loop (cells lines) lines diamond_positions
                 (mkflood {[ start ]} [start] ∅);
          let unreachable :=
            Z.of_nat (size diamond_positions) - Z.of_nat (size (reachable_diamonds st)) in
          Some (unreachable =? 0, Z.of_nat (size (reachable_diamonds st)), unreachable)
      end
  end.

End Accessibility.

(** ** check-sealed-diamonds.py *)

Module Sealed.
Import PyStr Grid.

(** Lines 32 and 46: the two messages. *)
Definition sealed_issue (x y : Z) : string :=
  "Diamond at (" ++ str_of_int x ++ "," ++ str_of_int y
  ++ ") completely sealed by walls".

Definition walled_issue (x y : Z) : string :=
  "Diamond at (" ++ str_of_int x ++ "," ++ str_of_int y
  ++ ") in heavily walled area".

(** Lines 36-37: the offsets [(dy, dx)] in the order the two loops visit
    them. *)
Definition offsets : list (Z * Z) :=
  [(-1, -1); (-1, 0); (-1, 1); (0, -1); (0, 0); (0, 1); (1, -1); (1, 0); (1, 1)].

(** Lines 38-43: the body of the loops over [dy] and [dx]. *)
Definition count_wall (lines : list string) (x y : Z) (sealed_count : Z)
    (d : Z * Z) : Z :=
  let '(dy, dx) := d in
  if (dy =? 0) && (dx =? 0) then sealed_count
  else
    match lookup_cell lines (x + dx) (y + dy) with
    | Some c => if Ascii.eqb c "W" then sealed_count + 1 else sealed_count
    | None => sealed_count
    end.

(** Lines 35-43. *)
Definition sealed_count (lines : list string) (x y : Z) : Z :=
  fold_left (count_wall lines x y) offsets 0.

(** Lines 25-28: the four neighbours of the diamond at [(x, y)] of [line]. *)
Definition above (lines : list string) (x y : Z) : py_result ascii :=
  prev ← row_at lines (y - 1);
  if x <? len prev then char_at prev x else Ret "W"%char.

Definition below (lines : list string) (x y : Z) : py_result ascii :=
  next ← row_at lines (y + 1);
  if x <? len next then char_at next x else Ret "W"%char.

Definition left (line : string) (x : Z) : py_result ascii :=
  if 0 <? x then char_at line (x - 1) else Ret "W"%char.

Definition right (line : string) (x : Z) : py_result ascii :=
  if x <? len line - 1 then char_at line (x + 1) else Ret "W"%char.

(** Lines 24-46: what a diamond at [(x, y)] adds to [issues]. *)
Definition inspect (lines : list string) (line : string) (x y : Z)
    (issues : list string) : py_result (list string) :=
  if (0 <? y) && (y <? Z.of_nat (length lines) - 1) then
    a ← above lines x y;
    b ← below lines x y;
    l ← left line x;
    r ← right line x;
    let issues1 :=
      if Ascii.eqb a "W" && Ascii.eqb b "W" && Ascii.eqb l "W" && Ascii.eqb r "W"
      then (issues ++ [sealed_issue x y])%list else issues in
    let issues2 :=
      if 7 <=? sealed_count lines x y
      then (issues1 ++ [walled_issue x y])%list else issues1 in
    Ret issues2
  else Ret issues.

(** Lines 21-46 on row [y], for the characters [rest] of [line] from column
    [x] on. *)
Fixpoint check_line (lines : list string) (line : string) (y x : Z)
    (rest : string) (issues : list string) : py_result (list string) :=
  match rest with
  | EmptyString => Ret issues
  | String char rest' =>
      issues' ← (if Ascii.eqb char "*" then inspect lines line x y issues
                 else Ret issues);
      check_line lines line y (x + 1) rest' issues'
  end.

(** Lines 20-46, for the rows [rows] of [lines] from row [y] on. *)
Fixpoint check_lines (lines : list string) (y : Z) (rows : list string)
    (issues : list string) : py_result (list string) :=
  match rows with
  | [] => Ret issues
  | line :: rows' =>
      issues' ← check_line lines line y 0 line issues;
      check_lines lines (y + 1) rows' issues'
  end.

(** [check_sealed_diamonds(pattern_text, cave_name)] *)
Definition check_sealed_diamonds (pattern_text cave_name : string)
  : py_result (list string) :=
  let lines := lines_of pattern_text in
  match lines with
  | [] => Ret []
  | _ => check_lines lines 0 lines []
  end.

End Sealed.

(** ** check-all-caves.py *)

Module Clustering.
Import PyStr PyFloat.

(** The value of [clustering] after lines 25-35.  The script keeps it as a
    text: a warning sign, [f'{percentage:.0f}% in {len(top_two)} line(s)'] for
    [Clustered]; a tick and [Well distributed] for [WellDistributed]; a cross
    and [NO DIAMONDS] for [NoDiamonds]. *)
Inductive clustering : Type :=
| Clustered (percentage : float) (top_two_len : nat)
| WellDistributed
| NoDiamonds.

(** The text after the sign. *)
Definition show (c : clustering) : string :=
  match c with
  | Clustered percentage n =>
      format_0f percentage ++ "% in " ++ str_of_int (Z.of_nat n) ++ " line(s)"
  | WellDistributed => "Well distributed"
  | NoDiamonds => "NO DIAMONDS"
  end.

(** Lines 18-22, from row [idx] on. *)
Fixpoint collect (idx : Z) (lines : list string) (diamond_lines : list (Z * Z))
  : list (Z * Z) :=
  match lines with
  | [] => diamond_lines
  | line :: rest =>
      let count := Z.of_nat (count "*" line) in
      collect (idx + 1) rest
        (if 0 <? count then (diamond_lines ++ [(idx, count)])%list else diamond_lines)
  end.

(** [sorted(l, key=lambda x: x[1], reverse=True)]: the sort is stable, so
    rows with the same count keep their order. *)
Fixpoint insert_desc (a : Z * Z) (l : list (Z * Z)) : list (Z * Z) :=
  match l with
  | [] => [a]
  | b :: l' => if a.2 <? b.2 then b :: insert_desc a l' else a :: l
  end.

Definition sorted_desc (l : list (Z * Z)) : list (Z * Z) :=
  foldr insert_desc [] l.

(** [sum(count for _, count in top_two)] *)
Definition sum_counts (l : list (Z * Z)) : Z :=
  fold_left (fun acc a => acc + a.2) l 0.

(** Lines 13-35: the clustering verdict of one cave. *)
Definition clustering_check (pattern : string) : py_result clustering :=
  let lines := lines_of pattern in
  let available := Z.of_nat (count "*" pattern) in
  let diamond_lines := collect 0 lines [] in
  match diamond_lines with
  | [] => Ret NoDiamonds
  | _ =>
      let top_two := take 2 (sorted_desc diamond_lines) in
      let top_two_count := sum_counts top_two in
      percentage ←
        (if 0 <? available
         then q ← truediv top_two_count available; Ret (mul q (of_int 100))
         else Ret (of_int 0));
      if gt_int percentage 60
      then Ret (Clustered percentage (length top_two))
      else Ret WellDistributed
  end.

End Clustering.

(** ** verify-accessibility.py: the report *)

Module AccessibilityReport.
Import Accessibility.

(** The value of [status] after lines 66-73.  The script keeps it as a
    text: a cross and [{unreachable} UNREACHABLE], a cross and
    [NEED {required - reachable} MORE], or a tick and [OK]. *)
Inductive status : Type :=
| Unreachable (unreachable : Z)
| NeedMore (missing : Z)
| StatusOk.

#[global] Instance status_eq_dec : EqDecision status.
Proof. solve_decision. Defined.

(** Lines 63-73, the body of the loop for one cave: the status of the cave
    and the value of [all_ok] after it.  [required] is [int(req)], the
    number that the digits of the level record spell. *)
Definition check_cave (required : Z) (pattern : string) (all_ok : bool)
  : option (status * bool) :=
  '(all_accessible, reachable, unreachable) ← flood_fill_check pattern;
  if negb all_accessible then Some (Unreachable unreachable, false)
  else if reachable <? required then Some (NeedMore (required - reachable), false)
  else Some (StatusOk, all_ok).

(** Lines 62-75: the loop over the caves [(name, required, pattern)], from
    the value [all_ok] on; the statuses in the order of the caves, and the
    last value of [all_ok]. *)
Fixpoint check_caves (caves : list (string * Z * string)) (all_ok : bool)
  : option (list status * bool) :=
  match caves with
  | [] => Some ([], all_ok)
  | (name, required, pattern) :: rest =>
      '(st, all_ok1) ← check_cave required pattern all_ok;
      '(sts, all_ok2) ← check_caves rest all_ok1;
      Some (st :: sts, all_ok2)
  end.

(** Lines 61-80: [all_ok] starts as [True]; its last value chooses between
    the two closing messages. *)
Definition accessibility_report (caves : list (string * Z * string))
  : option (list status * bool) :=
  check_caves caves true.

End AccessibilityReport.

(** ** fix-all-caves.py *)

Module FixAllCaves.
Import PyStr Redistribute.

(** [l[:n]]: the first [n] items, and for a negative [n] all the items but
    the last [- n]. *)
Definition slice_to {A} (l : list A) (n : Z) : list A :=
  if n <? 0 then take (length l - Z.to_nat (- n)) l else take (Z.to_nat n) l.

(** Line 19: the message of the [print]. *)
Definition warning_line (required_diamonds : Z) : string :=
  "Warning: Not enough positions for " ++ str_of_int required_diamonds
  ++ " diamonds".

(** [distribute_diamonds(pattern_lines, required_diamonds)]: the lines it
    prints and the rows it returns.  Lines 13-16 are the loops of lines
    19-22 of redistribute-diamonds.py, and lines 30-35 those of its lines
    37-42.  [shuffle] stands for lines 24-25, [random.seed(42)] followed by
    [random.shuffle(available_positions)]: the generator is not modelled,
    and the properties below hold for whatever rearrangement it makes. *)
Definition distribute_diamonds (shuffle : list pos -> list pos)
    (pattern_lines : list string) (required_diamonds : Z)
  : list string * list string :=
  let available_positions := scan_lines 0 pattern_lines [] in
  if Z.of_nat (length available_positions) <? required_diamonds then
    ([warning_line required_diamonds], pattern_lines)
  else
    let diamond_positions :=
      slice_to (shuffle available_positions) required_diamonds in
    ([], stamp_lines 0 pattern_lines diamond_positions).

End FixAllCaves.

(** ** The specification's vocabulary

    The documented notions the scripts are checked against, written from the
    specification and independent of the loops above. *)

Module Spec.

(** The cell of column [x] and row [y], when the grid has one. *)
Definition cell (lines : list string) (x y : Z) : option ascii :=
  if (x <? 0) || (y <? 0) then None
  else line ← lines !! Z.to_nat y; String.get (Z.to_nat x) line.

(** Modelled from the spec: [cell_at], the bounds-safe lookup that has no
    function of its own in the scripts; outside the grid it answers Wall. *)
Definition cell_at (lines : list string) (x y : Z) : ascii :=
  default "W"%char (cell lines x y).

(** The eight neighbours [(x + dx, y + dy)] of a cell. *)
Definition neighbours8 (x y : Z) : list (Z * Z) :=
  [(x - 1, y - 1); (x, y - 1); (x + 1, y - 1);
   (x - 1, y);                 (x + 1, y);
   (x - 1, y + 1); (x, y + 1); (x + 1, y + 1)].

(** How many of the eight neighbours [cell_at] answers Wall for. *)
Definition walls_around (lines : list string) (x y : Z) : Z :=
  Z.of_nat (length (filter (fun p => cell_at lines p.1 p.2 = "W"%char)
                           (neighbours8 x y))).

(** How many of the eight neighbours are cells of the grid holding a Wall. *)
Definition walls_inside (lines : list string) (x y : Z) : Z :=
  Z.of_nat (length (filter (fun p => cell lines p.1 p.2 = Some "W"%char)
                           (neighbours8 x y))).

(** The four orthogonal neighbours of the cell are Wall. *)
Definition fully_sealed (lines : list string) (x y : Z) : Prop :=
  cell_at lines x (y - 1) = "W"%char /\ cell_at lines x (y + 1) = "W"%char
  /\ cell_at lines (x - 1) y = "W"%char /\ cell_at lines (x + 1) y = "W"%char.

(** The symbols a flood fill may step on: Empty, Dirt, Diamond, Exit, Enemy
    and Player. *)
Definition traversable (c : ascii) : Prop :=
  c = " "%char \/ c = "."%char \/ c = "*"%char \/ c = "E"%char
  \/ c = "F"%char \/ c = "P"%char.

(** The cells a walk from [start] gets to, one orthogonal step at a time over
    traversable cells of the grid. *)
Inductive reachable (lines : list string) (start : Z * Z) : Z * Z -> Prop :=
| reach_start : reachable lines start start
| reach_step x y dx dy c :
    reachable lines start (x, y) ->
    Z.abs dx + Z.abs dy = 1 ->
    cell lines (x + dx) (y + dy) = Some c ->
    traversable c ->
    reachable lines start (x + dx, y + dy).

(** The cells of row [y] that hold the symbol [c], left to right. *)
Definition row_positions (c : ascii) (y : nat) (line : string) : list (Z * Z) :=
  map (fun x => (Z.of_nat x, Z.of_nat y))
      (filter (fun x => String.get x line = Some c)
              (seq 0 (String.length line))).

(** The cells of the grid that hold the symbol [c], in row-major order; for
    ['P'] these are the Player cells. *)
Definition positions (c : ascii) (lines : list string) : list (Z * Z) :=
  concat (imap (row_positions c) lines).

(** A cell of the grid that a flood fill may step on. *)
Definition open_cell (lines : list string) (p : Z * Z) : Prop :=
  exists c, cell lines p.1 p.2 = Some c /\ traversable c.

(** All the cells of the grid, in row-major order. *)
Definition all_cells (lines : list string) : list (Z * Z) :=
  concat (imap (fun y line =>
                  map (fun x => (Z.of_nat x, Z.of_nat y))
                      (seq 0 (String.length line))) lines).

(** The diamonds of the grid: the coordinates of its ['*'] cells. *)
Definition is_diamond (lines : list string) (p : Z * Z) : Prop :=
  cell lines p.1 p.2 = Some "*"%char.

(** The candidate cells of row [y]: the columns holding ['.'] or [' '], left
    to right. *)
Definition row_candidates (y : nat) (line : string) : list (nat * nat) :=
  map (fun x => (x, y))
      (filter (fun x => String.get x line = Some "."%char
                        \/ String.get x line = Some " "%char)
              (seq 0 (String.length line))).

(** The candidate list: row-major, top to bottom. *)
Definition candidates (lines : list string) : list (nat * nat) :=
  concat (imap row_candidates lines).

(** [floor (i * step)] for the exact fraction [step = n / required]. *)
Definition exact_index (n required i : Z) : Z := (i * n) / required.

(** The grid with every cell named in [selected] turned into a diamond. *)
Definition stamped_cell (selected : list (nat * nat)) (x y : nat) (c : ascii)
  : ascii :=
  if bool_decide ((x, y) ∈ selected) then "*"%char else c.

(** Lines 29 and 32 as the interpreter runs them: [int(i * (n / required))]
    in binary64 arithmetic, for a required count that is not zero. *)
Definition float_index (n required i : Z) : Z :=
  PyFloat.to_int (PyFloat.mul_int i (PyFloat.round_frac n required)).

(** The grid with a diamond stamped on every selected cell. *)
Definition stamp (lines : list string) (selected : list (nat * nat))
  : list string :=
  imap (fun y line =>
          string_of_list_ascii
            (imap (fun x c => stamped_cell selected x y c)
                  (list_ascii_of_string line))) lines.

(** The four steps of the redistribution, for a rule [index] that gives the
    position in the candidate list of the [i]-th diamond: (1) every diamond
    becomes ['.']; (2) the candidates are listed in row-major order; (3) the
    candidate at [index n required i] is selected for every [i] below
    [required]; (4) the selected cells are stamped. *)
Definition redistribute_with (index : Z -> Z -> Z -> Z)
    (lines : list string) (required : Z) : list string :=
  let cleaned := map (PyStr.replace "*" ".") lines in
  let cand := candidates cleaned in
  let n := Z.of_nat (length cand) in
  let selected :=
    map (fun i => cand !!! Z.to_nat (index n required i))
        (Redistribute.range required) in
  stamp cleaned selected.

(** All the cells of the grid, as pairs of naturals, in row-major order. *)
Definition cells_of (lines : list string) : list (nat * nat) :=
  concat (imap (fun y line => map (fun x => (x, y)) (seq 0 (String.length line)))
               lines).

(** The diamond count of a grid. *)
Definition diamonds (lines : list string) : nat :=
  foldr (fun line n => (PyStr.count "*" line + n)%nat) 0%nat lines.

(** The shape of a grid: the length of each row, top to bottom. *)
Definition shape (lines : list string) : list nat := map String.length lines.

(** The diamond count of each row, top to bottom. *)
Definition row_counts (lines : list string) : list Z :=
  map (fun l => Z.of_nat (PyStr.count "*" l)) lines.

(** The highest and the second highest of a list of counts (zero where the
    list is too short). *)
Fixpoint two_largest (counts : list Z) : Z * Z :=
  match counts with
  | [] => (0, 0)
  | c :: rest =>
      let '(a, b) := two_largest rest in
      if a <=? c then (c, a) else if b <=? c then (a, c) else (a, b)
  end.

(** The counts of the first two entries of a list of rows (zero where the
    list is too short). *)
Definition first_two (l : list (Z * Z)) : Z * Z :=
  match l with
  | [] => (0, 0)
  | [a] => (a.2, 0)
  | a :: b :: _ => (a.2, b.2)
  end.

(** The number of candidate cells of a pattern once its diamonds are
    removed. *)
Definition walkable (pattern_text : string) : Z :=
  Z.of_nat (length (candidates (Redistribute.clean_lines
                                  (PyStr.lines_of pattern_text)))).

(** The invariant of the loop of [flood_fill_check], for the grid [lines],
    the player cell [start] and the diamonds [D]: the visited cells are cells
    of the grid that a walk from [start] gets to; the queue holds visited
    cells, once each; the open neighbours of a visited cell that has left the
    queue are visited; and the reachable diamonds are the diamonds among the
    visited cells that have left the queue. *)
Record flood_inv (lines : list string) (start : Z * Z) (D : gset (Z * Z))
    (st : Accessibility.flood) : Prop := {
  inv_start : start ∈ Accessibility.visited st;
  inv_sound : forall p, p ∈ Accessibility.visited st -> reachable lines start p;
  inv_cell : forall p, p ∈ Accessibility.visited st -> p ∈ all_cells lines;
  inv_queue : forall p, p ∈ Accessibility.queue st -> p ∈ Accessibility.visited st;
  inv_nodup : NoDup (Accessibility.queue st);
  inv_closed : forall p d,
    p ∈ Accessibility.visited st -> p ∉ Accessibility.queue st ->
    d ∈ Accessibility.directions -> open_cell lines (p.1 + d.1, p.2 + d.2) ->
    (p.1 + d.1, p.2 + d.2) ∈ Accessibility.visited st;
  inv_diamonds : forall p,
    p ∈ Accessibility.reachable_diamonds st
    <-> p ∈ Accessibility.visited st /\ (p ∉ Accessibility.queue st) /\ p ∈ D
}.

(** A line is blank when it holds nothing but whitespace. *)
Definition blank (l : string) : Prop := PyStr.strip l = EmptyString.

(** What the specification asks of a parser, for a text that starts with a
    line that is not blank: every line that is not blank is the row of the
    same index, spaces included. *)
Definition keeps_rows (parse : string -> list string) : Prop :=
  forall text first k l,
    PyStr.split_nl text !! 0%nat = Some first -> ~ blank first ->
    PyStr.split_nl text !! k = Some l -> ~ blank l ->
    parse text !! k = Some l.

(** The four orthogonal neighbours are Wall or not: the test can be run. *)
#[global] Instance fully_sealed_dec lines x y : Decision (fully_sealed lines x y).
Proof. unfold fully_sealed. apply _. Defined.

(** What the sealed-cell detector has to say about the diamond at [p]:
    nothing in the first and in the last row; elsewhere the "sealed" message
    when the four orthogonal neighbours are Wall, then the "heavily walled"
    message when seven or eight of the surrounding cells of the grid are
    Wall. *)
Definition issues_at (lines : list string) (p : Z * Z) : list string :=
  if bool_decide (0 < p.2 < Z.of_nat (length lines) - 1) then
    (if bool_decide (fully_sealed lines p.1 p.2)
     then [Sealed.sealed_issue p.1 p.2] else [])
    ++ (if bool_decide (7 <= walls_inside lines p.1 p.2)
        then [Sealed.walled_issue p.1 p.2] else [])
  else [].

(** The cells of a grid that hold a candidate symbol once the diamonds are
    removed: ['*'], ['.'] or [' ']. *)
Definition candidate_symbol (c : ascii) : Prop :=
  c = "*"%char \/ c = "."%char \/ c = " "%char.

(** The symbol that line 15 of redistribute-diamonds.py leaves in the place
    of [c]: a diamond becomes ['.']. *)
Definition cleaned (c : ascii) : ascii :=
  if Ascii.eqb c "*" then "."%char else c.

(** The cells that lines 29-33 select from the candidate list [cand], the
    indices being computed in floating point. *)
Definition selected_cells (cand : list (nat * nat)) (required : Z)
  : list (nat * nat) :=
  map (fun i => cand !!! Z.to_nat (float_index (Z.of_nat (length cand)) required i))
      (Redistribute.range required).

(** A pattern text rewritten cell by cell, from row [y] and column [x] on:
    the line feeds stay where they are, and the symbol [c] of column [x] of
    row [y] becomes [g y x c]. *)
Fixpoint rewrite_text (g : nat -> nat -> ascii -> ascii) (y x : nat)
    (s : string) : string :=
  match s with
  | EmptyString => EmptyString
  | String c s' =>
      if Ascii.eqb c PyStr.nl then String c (rewrite_text g (S y) 0 s')
      else String (g y x c) (rewrite_text g y (S x) s')
  end.

End Spec.

(** * Properties *)

(** ** Strings *)

Module PyStrFacts.
Import PyStr.

Lemma split_nl_nonempty s : split_nl s ≠ [].
Proof.
  destruct s as [|c s]; simpl; [done|].
  destruct (Ascii.eqb c nl); [done|].
  by destruct (split_nl s).
Qed.

Lemma join_nl_cons l l' ls :
  join_nl (l :: l' :: ls) = l ++ String nl (join_nl (l' :: ls)).
Proof. done. Qed.

(** Joining the rows of a text with line feeds gives the text back. *)
Lemma join_split_nl s : join_nl (split_nl s) = s.
Proof.
  induction s as [|c s IH]; simpl; [done|].
  pose proof (split_nl_nonempty s) as Hne.
  destruct (split_nl s) as [|l ls] eqn:E; [done|].
  destruct (Ascii.eqb_spec c nl) as [->|Hc].
  - rewrite join_nl_cons, IH. done.
  - destruct ls as [|l' ls].
    + simpl in *. by rewrite IH.
    + rewrite join_nl_cons. rewrite join_nl_cons in IH.
      rewrite <- IH. done.
Qed.

(** No row of a split text holds a line feed. *)
Lemma split_nl_no_nl s l : l ∈ split_nl s → count nl l = 0%nat.
Proof.
  revert l. induction s as [|c s IH]; simpl; intros l Hl.
  - apply list_elem_of_singleton in Hl as ->. done.
  - destruct (Ascii.eqb_spec c nl) as [->|Hc].
    + apply elem_of_cons in Hl as [->|Hl]; [done|]. by apply IH.
    + destruct (split_nl s) as [|l0 ls] eqn:E.
      * apply list_elem_of_singleton in Hl as ->. simpl.
        destruct (Ascii.eqb_spec c nl); [done|done].
      * apply elem_of_cons in Hl as [->|Hl].
        -- simpl. destruct (Ascii.eqb_spec c nl); [done|].
           apply IH. apply elem_of_cons. by left.
        -- apply IH. apply elem_of_cons. by right.
Qed.

Lemma count_app a s1 s2 : count a (s1 ++ s2) = (count a s1 + count a s2)%nat.
Proof. induction s1 as [|c s1 IH]; simpl; [done|]. rewrite IH. lia. Qed.

Lemma count_lstrip a s : is_space a = false → count a (lstrip s) = count a s.
Proof.
  intros Ha. induction s as [|c s IH]; simpl; [done|].
  destruct (is_space c) eqn:Hc; [|done].
  rewrite IH. destruct (Ascii.eqb_spec c a) as [->|]; [congruence|done].
Qed.

Lemma count_rstrip a s : is_space a = false → count a (rstrip s) = count a s.
Proof.
  intros Ha. induction s as [|c s IH]; simpl; [done|].
  destruct (rstrip s) as [|c' r] eqn:E.
  - simpl in IH. rewrite <- IH.
    destruct (is_space c) eqn:Hc; simpl; [|lia].
    destruct (Ascii.eqb_spec c a) as [->|]; [congruence|done].
  - simpl in *. by rewrite IH.
Qed.

Lemma count_strip a s : is_space a = false → count a (strip s) = count a s.
Proof.
  intros Ha. unfold strip. by rewrite count_rstrip, count_lstrip.
Qed.

(** The diamonds of the rows of a text are the ['*'] of the text. *)
Lemma diamonds_join ls : Spec.diamonds ls = count "*" (join_nl ls).
Proof.
  induction ls as [|l ls IH]; [done|].
  destruct ls as [|l' ls].
  - simpl. lia.
  - rewrite join_nl_cons, count_app.
    unfold Spec.diamonds in *. rewrite foldr_cons, IH.
    generalize (join_nl (l' :: ls)). intros s. simpl. done.
Qed.

Lemma diamonds_split_strip s :
  Spec.diamonds (split_nl (strip s)) = count "*" s.
Proof. by rewrite diamonds_join, join_split_nl, count_strip. Qed.

End PyStrFacts.

(** ** redistribute-diamonds.py: the candidate list and the failure paths *)

Module RedistributeFacts.
Import PyStr PyFloat Redistribute Spec.

Lemma filter_fmap_list {A B} (f : A → B) (P : B → Prop)
    {HP : ∀ b, Decision (P b)} (l : list A) :
  filter P (f <$> l) = f <$> filter (fun a => P (f a)) l.
Proof.
  induction l as [|a l IH]; [done|].
  rewrite fmap_cons, !filter_cons, IH.
  by destruct (decide (P (f a))).
Qed.

Lemma char_in_candidate c :
  char_in c ["."%char; " "%char] = true ↔ c = "."%char ∨ c = " "%char.
Proof.
  unfold char_in. simpl.
  destruct (Ascii.eqb_spec c "."), (Ascii.eqb_spec c " "); simpl;
    intuition congruence.
Qed.

(** The loop over one row appends the candidates of the row, left to
    right. *)
Lemma scan_line_spec y line : ∀ x acc,
  scan_line y x line acc
  = (acc ++ map (fun k => ((x + k)%nat, y))
                (filter (fun k => String.get k line = Some "."%char
                                  ∨ String.get k line = Some " "%char)
                        (seq 0 (String.length line))))%list.
Proof.
  induction line as [|c rest IH]; intros x acc.
  - simpl. by rewrite app_nil_r.
  - cbn [scan_line String.length]. rewrite IH.
    rewrite <- cons_seq, <- fmap_S_seq, filter_cons, filter_fmap_list.
    cbn [String.get].
    destruct (char_in c ["."%char; " "%char]) eqn:Hc.
    + apply char_in_candidate in Hc.
      rewrite decide_True by (destruct Hc as [->| ->]; auto).
      rewrite <- app_assoc. f_equal. cbn [map app]. rewrite Nat.add_0_r.
      f_equal. rewrite <- list_fmap_compose. apply list_fmap_ext.
      intros i k _. simpl. f_equal. lia.
    + rewrite decide_False.
      2:{ intros H. assert (c = "."%char ∨ c = " "%char) as H'
            by (destruct H as [H|H]; injection H; auto).
          apply char_in_candidate in H'. congruence. }
      f_equal. rewrite <- list_fmap_compose. apply list_fmap_ext.
      intros i k _. simpl. f_equal. lia.
Qed.

Lemma scan_lines_spec lines : ∀ y acc,
  scan_lines y lines acc
  = (acc ++ concat (imap (fun k => Spec.row_candidates (y + k)) lines))%list.
Proof.
  induction lines as [|line rest IH]; intros y acc.
  - simpl. by rewrite app_nil_r.
  - cbn [scan_lines]. rewrite IH, scan_line_spec, imap_cons, concat_cons.
    rewrite <- app_assoc. f_equal. f_equal.
    + unfold Spec.row_candidates. rewrite Nat.add_0_r. done.
    + f_equal. apply imap_ext. intros i l _. simpl. f_equal. lia.
Qed.

(** [valid_positions] is the row-major list of the ['.'] and [' '] cells. *)
Lemma valid_positions_spec lines :
  scan_lines 0 lines [] = Spec.candidates lines.
Proof. by rewrite scan_lines_spec. Qed.

(** C10: with fewer candidate cells than required diamonds the function
    returns its argument as it is, the original diamonds included. *)
Theorem short_of_space_returns_input pattern_text required :
  walkable pattern_text < required →
  (redistribute_cave_diamonds pattern_text required).2 = Ret pattern_text.
Proof.
  intros H. unfold redistribute_cave_diamonds, walkable in *.
  cbv zeta. rewrite valid_positions_spec.
  apply Z.ltb_lt in H. by rewrite H.
Qed.

Lemma short_of_space_returns_input_witness :
  walkable "W.*.W" < 6
  ∧ (redistribute_cave_diamonds "W.*.W" 6).2 = Ret "W.*.W".
Proof.
  split; [vm_compute; reflexivity|].
  apply (short_of_space_returns_input "W.*.W" 6). vm_compute. reflexivity.
Defined.

(** C5, as the script has it: too little space is reported by one printed
    line and by nothing else.  The call returns normally, and a call with
    enough space prints nothing. *)
Theorem short_of_space_is_printed pattern_text required :
  (walkable pattern_text < required →
     (redistribute_cave_diamonds pattern_text required).1
       = [error_line (Z.to_nat (walkable pattern_text)) required]
     ∧ ∃ text, (redistribute_cave_diamonds pattern_text required).2 = Ret text)
  ∧ (required ≤ walkable pattern_text →
     (redistribute_cave_diamonds pattern_text required).1 = []).
Proof.
  unfold redistribute_cave_diamonds, walkable.
  cbv zeta. rewrite valid_positions_spec, Nat2Z.id.
  destruct (Z.ltb_spec
    (Z.of_nat (length (Spec.candidates (clean_lines (lines_of pattern_text)))))
    required); split; intros; try lia; eauto.
Qed.

Lemma short_of_space_is_printed_witness :
  (redistribute_cave_diamonds "*W" 2).1
  = ["ERROR: Only 1 positions for 2 diamonds!"].
Proof.
  apply (proj1 (short_of_space_is_printed "*W" 2)). vm_compute. reflexivity.
Defined.

(** C5 as stated does not hold: with one candidate cell and two diamonds
    required the call returns a text, and the very same text that the call
    for one diamond returns after rewriting the grid. *)
Lemma short_of_space_is_no_failure :
  walkable "*W" < 2
  ∧ (¬ ∃ e, (redistribute_cave_diamonds "*W" 2).2 = Raise e)
  ∧ (redistribute_cave_diamonds "*W" 2).2 = Ret "*W"
  ∧ (redistribute_cave_diamonds "*W" 1).2 = Ret "*W".
Proof.
  split; [vm_compute; reflexivity|]. split; [|vm_compute; done].
  intros [e He]. vm_compute in He. discriminate.
Qed.

(** C1 fails for a required count of zero: line 29 divides by it. *)
Theorem zero_required_raises pattern_text :
  redistribute_cave_diamonds pattern_text 0 = ([], Raise ZeroDivisionError).
Proof.
  unfold redistribute_cave_diamonds. cbv zeta.
  destruct (Z.ltb_spec
    (Z.of_nat (length (scan_lines 0 (clean_lines (lines_of pattern_text)) []))) 0);
    [lia|done].
Qed.

End RedistributeFacts.

(** ** The three parsers *)

Module ParseFacts.
Import PyStr PyStrFacts.

(** C9 as stated does not hold.  The parser of the redistributor takes the
    leading space off the first row, and the parser of the flood fill leaves
    the empty row out, so that the third line becomes the second row. *)
Lemma parsers_do_not_keep_rows :
  ¬ Spec.keeps_rows lines_of ∧ ¬ Spec.keeps_rows Accessibility.nonempty_lines.
Proof.
  split; intros H.
  - specialize (H " W" " W" 0%nat " W").
    vm_compute in H. by specialize (H eq_refl ltac:(discriminate) eq_refl ltac:(discriminate)).
  - specialize (H (join_nl ["W"; ""; "P"]) "W" 2%nat "P").
    vm_compute in H. by specialize (H eq_refl ltac:(discriminate) eq_refl ltac:(discriminate)).
Qed.

(** C9, as the scripts have it: a pattern is stripped of the whitespace at
    its two ends and then cut at the line feeds only, so the rows joined by
    line feeds are the stripped text, spaces and empty rows included; the
    flood fill leaves the empty rows out. *)
Theorem parse_is_strip_then_split text :
  join_nl (lines_of text) = strip text
  ∧ (∀ l, l ∈ lines_of text → count nl l = 0%nat)
  ∧ Accessibility.nonempty_lines text
    = filter (fun l => l ≠ EmptyString) (lines_of text).
Proof.
  unfold lines_of, Accessibility.nonempty_lines.
  split; [apply join_split_nl|].
  split; [intros l; apply split_nl_no_nl|done].
Qed.

End ParseFacts.

(** ** Cell lookups *)

Module GridFacts.
Import PyStr Grid.

Lemma get_None s : ∀ n, String.get n s = None ↔ (String.length s ≤ n)%nat.
Proof.
  induction s as [|c s IH]; intros [|n]; simpl; try (split; [lia|done]).
  - split; [done|lia].
  - rewrite IH. lia.
Qed.

Lemma get_lt s n c : String.get n s = Some c → (n < String.length s)%nat.
Proof.
  intros H. destruct (decide (n < String.length s)%nat) as [|Hn]; [done|].
  assert (String.get n s = None) by (apply get_None; lia). congruence.
Qed.

Lemma get_is_Some s n : (n < String.length s)%nat → ∃ c, String.get n s = Some c.
Proof.
  intros H. destruct (String.get n s) as [c|] eqn:E; [eauto|].
  apply get_None in E. lia.
Qed.

(** Case analysis on every integer comparison of the goal. *)
Ltac zcases :=
  repeat match goal with
    | |- context [Z.leb ?a ?b] => destruct (Z.leb_spec a b)
    | |- context [Z.ltb ?a ?b] => destruct (Z.ltb_spec a b)
    | |- context [Z.eqb ?a ?b] => destruct (Z.eqb_spec a b)
    end; simpl.

(** The guarded lookup of the scripts is the lookup of the specification. *)
Lemma lookup_cell_spec lines x y : lookup_cell lines x y = Spec.cell lines x y.
Proof.
  unfold lookup_cell, Spec.cell, len. zcases; try done; try lia.
  - destruct (lines !! Z.to_nat y) as [line|] eqn:E; simpl; [|done].
    zcases; try done; try lia. symmetry. apply get_None. lia.
  - rewrite (proj2 (lookup_ge_None lines (Z.to_nat y))); [done|lia].
  - by destruct (lines !! Z.to_nat y).
Qed.

(** Outside the rows, or outside the row, there is no cell; rows may have
    any lengths and the grid may be empty. *)
Lemma cell_outside lines x y :
  Spec.cell lines x y = None
  ↔ x < 0 ∨ y < 0 ∨ Z.of_nat (length lines) ≤ y
    ∨ ∃ line, lines !! Z.to_nat y = Some line ∧ len line ≤ x.
Proof.
  unfold Spec.cell, len.
  destruct (Z.ltb_spec x 0), (Z.ltb_spec y 0); simpl; try (split; [auto|done]).
  destruct (lines !! Z.to_nat y) as [line|] eqn:E; simpl.
  - rewrite get_None. apply lookup_lt_Some in E as Hy. split.
    + intros Hx. do 3 right. exists line. split; [done|lia].
    + intros [?|[?|[?|(l&Hl&Hx)]]]; try lia. injection Hl as <-. lia.
  - apply lookup_ge_None in E. split; [intros _|done]. right; right; left. lia.
Qed.

Lemma cell_Some lines x y c :
  Spec.cell lines x y = Some c
  ↔ 0 ≤ x ∧ 0 ≤ y ∧ ∃ line, lines !! Z.to_nat y = Some line
                             ∧ String.get (Z.to_nat x) line = Some c.
Proof.
  unfold Spec.cell.
  destruct (Z.ltb_spec x 0), (Z.ltb_spec y 0); simpl;
    try (split; [done|intros (?&?&?); lia]).
  destruct (lines !! Z.to_nat y) as [line|] eqn:E; simpl.
  - split; [intros Hc; repeat split; try lia; eauto|].
    intros (_&_&l&Hl&Hc). by injection Hl as <-.
  - split; [done|]. by intros (_&_&l&Hl&Hc).
Qed.

End GridFacts.

(** ** check-sealed-diamonds.py *)

Module SealedFacts.
Import PyStr Grid GridFacts Sealed.

Lemma cell_row lines line x y :
  lines !! Z.to_nat y = Some line → 0 ≤ y → 0 ≤ x →
  Spec.cell lines x y = String.get (Z.to_nat x) line.
Proof.
  intros Hl Hy Hx. unfold Spec.cell.
  destruct (Z.ltb_spec x 0), (Z.ltb_spec y 0); try lia. simpl. by rewrite Hl.
Qed.

Lemma char_at_Some s i c :
  0 ≤ i → String.get (Z.to_nat i) s = Some c → char_at s i = Ret c.
Proof.
  intros Hi Hc. unfold char_at. destruct (Z.leb_spec 0 i); [|lia]. by rewrite Hc.
Qed.

Lemma row_at_Some lines i l :
  0 ≤ i → lines !! Z.to_nat i = Some l → row_at lines i = Ret l.
Proof.
  intros Hi Hl. unfold row_at. destruct (Z.leb_spec 0 i); [|lia]. by rewrite Hl.
Qed.

(** A guarded read of row [row], [row[x] if x < len(row) else 'W'], is the
    bounds-safe lookup. *)
Lemma guarded_read lines row x y :
  lines !! Z.to_nat y = Some row → 0 ≤ y → 0 ≤ x →
  (if x <? len row then char_at row x else Ret "W"%char)
  = Ret (Spec.cell_at lines x y).
Proof.
  intros Hl Hy Hx. unfold Spec.cell_at. rewrite (cell_row _ _ _ _ Hl Hy Hx).
  unfold len. destruct (Z.ltb_spec x (Z.of_nat (String.length row))).
  - destruct (get_is_Some row (Z.to_nat x)) as [c Hc]; [lia|].
    rewrite Hc. by apply char_at_Some.
  - rewrite (proj2 (get_None row (Z.to_nat x))); [done|lia].
Qed.

Lemma above_spec lines x y :
  0 < y < Z.of_nat (length lines) → 0 ≤ x →
  above lines x y = Ret (Spec.cell_at lines x (y - 1)).
Proof.
  intros Hy Hx. unfold above.
  destruct (lookup_lt_is_Some_2 lines (Z.to_nat (y - 1))) as [prev Hp]; [lia|].
  rewrite (row_at_Some lines (y - 1) prev) by (done || lia). simpl.
  apply guarded_read; [done|lia|done].
Qed.

Lemma below_spec lines x y :
  0 ≤ y < Z.of_nat (length lines) - 1 → 0 ≤ x →
  below lines x y = Ret (Spec.cell_at lines x (y + 1)).
Proof.
  intros Hy Hx. unfold below.
  destruct (lookup_lt_is_Some_2 lines (Z.to_nat (y + 1))) as [next Hn]; [lia|].
  rewrite (row_at_Some lines (y + 1) next) by (done || lia). simpl.
  apply guarded_read; [done|lia|done].
Qed.

Lemma left_spec lines line x y :
  lines !! Z.to_nat y = Some line → 0 ≤ y → 0 ≤ x < len line →
  left line x = Ret (Spec.cell_at lines (x - 1) y).
Proof.
  intros Hl Hy Hx. unfold left, Spec.cell_at.
  destruct (Z.ltb_spec 0 x).
  - rewrite (cell_row lines line (x - 1) y) by (done || lia). unfold len in Hx.
    destruct (get_is_Some line (Z.to_nat (x - 1))) as [c Hc]; [lia|].
    rewrite Hc. apply char_at_Some; [lia|done].
  - unfold Spec.cell. destruct (Z.ltb_spec (x - 1) 0); [done|lia].
Qed.

Lemma right_spec lines line x y :
  lines !! Z.to_nat y = Some line → 0 ≤ y → 0 ≤ x < len line →
  right line x = Ret (Spec.cell_at lines (x + 1) y).
Proof.
  intros Hl Hy Hx. unfold right, Spec.cell_at.
  rewrite (cell_row lines line (x + 1) y) by (done || lia). unfold len in *.
  destruct (Z.ltb_spec x (Z.of_nat (String.length line) - 1)).
  - destruct (get_is_Some line (Z.to_nat (x + 1))) as [c Hc]; [lia|].
    rewrite Hc. apply char_at_Some; [lia|done].
  - rewrite (proj2 (get_None line (Z.to_nat (x + 1)))); [done|lia].
Qed.

(** The loops of lines 36-43 count the walls among the neighbours that are
    cells of the grid. *)
Lemma count_wall_fold lines x y offs : ∀ acc,
  fold_left (count_wall lines x y) offs acc
  = acc + Z.of_nat (length (filter
      (fun d : Z * Z => d ≠ (0, 0)
                        ∧ Spec.cell lines (x + d.2) (y + d.1) = Some "W"%char)
      offs)).
Proof.
  induction offs as [|[dy dx] offs IH]; intros acc; simpl; [lia|].
  rewrite IH, filter_cons. unfold count_wall. rewrite lookup_cell_spec.
  cbn [fst snd].
  destruct (decide _) as [[Hne Hw]|Hn]; cbn [length].
  - rewrite Hw. simpl.
    destruct (Z.eqb_spec dy 0) as [->|], (Z.eqb_spec dx 0) as [->|]; simpl;
      try lia. done.
  - destruct (Z.eqb_spec dy 0) as [->|], (Z.eqb_spec dx 0) as [->|]; simpl;
      try done;
      (destruct (Spec.cell lines _ _) as [c|]; [|done];
       destruct (Ascii.eqb_spec c "W") as [->|]; [|done];
       exfalso; apply Hn; split; [congruence|done]).
Qed.

Lemma sealed_count_spec lines x y :
  sealed_count lines x y = Spec.walls_inside lines x y.
Proof.
  unfold sealed_count, Spec.walls_inside. rewrite count_wall_fold.
  rewrite Z.add_0_l. f_equal.
  assert (Hn : Spec.neighbours8 x y
    = (fun d : Z * Z => (x + d.2, y + d.1))
      <$> filter (fun d : Z * Z => d ≠ (0, 0)) offsets).
  { unfold Spec.neighbours8, offsets. vm_compute filter. simpl.
    repeat f_equal; lia. }
  rewrite Hn, RedistributeFacts.filter_fmap_list, length_fmap.
  rewrite list_filter_filter. f_equal.
  apply list_filter_iff. intros [dy dx]. simpl. tauto.
Qed.

(** What the check adds for one diamond of the grid. *)
Lemma inspect_ret lines line x y issues :
  lines !! Z.to_nat y = Some line → 0 ≤ y → 0 ≤ x < len line →
  ∃ extra, inspect lines line x y issues = Ret (issues ++ extra)%list
    ∧ (0 < y < Z.of_nat (length lines) - 1 → Spec.fully_sealed lines x y →
       sealed_issue x y ∈ extra).
Proof.
  intros Hl Hy Hx. unfold inspect.
  destruct (Z.ltb_spec 0 y), (Z.ltb_spec y (Z.of_nat (length lines) - 1));
    simpl; try (exists []; rewrite app_nil_r; split; [done|lia]).
  rewrite above_spec, below_spec by lia. simpl.
  rewrite (left_spec lines line x y), (right_spec lines line x y) by (done || lia).
  simpl.
  destruct (_ && _ && _ && _) eqn:E.
  - destruct (7 <=? sealed_count lines x y).
    + exists [sealed_issue x y; walled_issue x y].
      rewrite <- app_assoc. split; [done|]. intros _ _. apply elem_of_cons. by left.
    + exists [sealed_issue x y]. split; [done|]. intros _ _.
      by apply list_elem_of_singleton.
  - assert (¬ Spec.fully_sealed lines x y) as Hns.
    { intros (Ha & Hb & Hc & Hd). rewrite Ha, Hb, Hc, Hd in E. done. }
    destruct (7 <=? sealed_count lines x y).
    + exists [walled_issue x y]. split; [done|]. intros _ Hs. done.
    + exists []. rewrite app_nil_r. split; [done|]. intros _ Hs. done.
Qed.

(** The loop over a row, from column [x] on, never raises, keeps the issues
    found so far and reports every sealed diamond it passes. *)
Lemma check_line_ret lines line y :
  lines !! Z.to_nat y = Some line → 0 ≤ y →
  ∀ rest x issues, 0 ≤ x →
    (∀ k, String.get k rest = String.get (Z.to_nat x + k) line) →
    ∃ extra, check_line lines line y x rest issues = Ret (issues ++ extra)%list
      ∧ ∀ k, String.get k rest = Some "*"%char →
             0 < y < Z.of_nat (length lines) - 1 →
             Spec.fully_sealed lines (x + Z.of_nat k) y →
             sealed_issue (x + Z.of_nat k) y ∈ extra.
Proof.
  intros Hl Hy. induction rest as [|c rest IH]; intros x issues Hx Hsuf.
  - exists []. rewrite app_nil_r. split; [done|]. intros k Hk. done.
  - assert (Hc : String.get (Z.to_nat x) line = Some c).
    { rewrite <- (Nat.add_0_r (Z.to_nat x)), <- Hsuf. done. }
    assert (Hxl : 0 ≤ x < len line).
    { apply get_lt in Hc. unfold len. lia. }
    assert (Hsuf' : ∀ k, String.get k rest = String.get (Z.to_nat (x + 1) + k) line).
    { intros k. replace (Z.to_nat (x + 1) + k)%nat with (Z.to_nat x + S k)%nat by lia.
      rewrite <- Hsuf. done. }
    cbn [check_line].
    destruct (Ascii.eqb_spec c "*") as [->|Hne].
    + destruct (inspect_ret lines line x y issues Hl Hy Hxl) as (e1 & -> & H1).
      simpl.
      destruct (IH (x + 1) (issues ++ e1)%list ltac:(lia) Hsuf') as (e2 & -> & H2).
      exists (e1 ++ e2)%list. rewrite app_assoc. split; [done|].
      intros [|k] Hk Hyy Hs; apply elem_of_app.
      * left. rewrite Z.add_0_r in *. by apply H1.
      * right. replace (x + Z.of_nat (S k)) with (x + 1 + Z.of_nat k) in * by lia.
        by apply H2.
    + simpl.
      destruct (IH (x + 1) issues ltac:(lia) Hsuf') as (e2 & -> & H2).
      exists e2. split; [done|].
      intros [|k] Hk Hyy Hs.
      * simpl in Hk. congruence.
      * replace (x + Z.of_nat (S k)) with (x + 1 + Z.of_nat k) in * by lia.
        by apply H2.
Qed.

Lemma check_lines_ret lines :
  ∀ rows y issues, 0 ≤ y →
    (∀ k, rows !! k = lines !! (Z.to_nat y + k)%nat) →
    ∃ extra, check_lines lines y rows issues = Ret (issues ++ extra)%list
      ∧ ∀ k line x, rows !! k = Some line →
             String.get x line = Some "*"%char →
             0 < y + Z.of_nat k < Z.of_nat (length lines) - 1 →
             Spec.fully_sealed lines (Z.of_nat x) (y + Z.of_nat k) →
             sealed_issue (Z.of_nat x) (y + Z.of_nat k) ∈ extra.
Proof.
  induction rows as [|line rows IH]; intros y issues Hy Hsuf.
  - exists []. rewrite app_nil_r. split; [done|]. intros k line x Hk. done.
  - assert (Hl : lines !! Z.to_nat y = Some line).
    { rewrite <- (Nat.add_0_r (Z.to_nat y)), <- Hsuf. done. }
    assert (Hsuf' : ∀ k, rows !! k = lines !! (Z.to_nat (y + 1) + k)%nat).
    { intros k. replace (Z.to_nat (y + 1) + k)%nat with (Z.to_nat y + S k)%nat by lia.
      rewrite <- Hsuf. done. }
    cbn [check_lines].
    destruct (check_line_ret lines line y Hl Hy line 0 issues ltac:(lia))
      as (e1 & -> & H1); [done|].
    simpl.
    destruct (IH (y + 1) (issues ++ e1)%list ltac:(lia) Hsuf') as (e2 & -> & H2).
    exists (e1 ++ e2)%list. rewrite app_assoc. split; [done|].
    intros [|k] l x Hk Hx Hyy Hs; apply elem_of_app.
    + left. injection Hk as <-. rewrite Z.add_0_r in *.
      specialize (H1 x Hx Hyy). rewrite Z.add_0_l in H1. by apply H1.
    + right. replace (y + Z.of_nat (S k)) with (y + 1 + Z.of_nat k) in * by lia.
      by apply (H2 k l x).
Qed.

(** The check raises nothing: every read is guarded. *)
Lemma check_sealed_total pattern_text cave_name :
  ∃ issues, check_sealed_diamonds pattern_text cave_name = Ret issues.
Proof.
  unfold check_sealed_diamonds.
  destruct (check_lines_ret (lines_of pattern_text) (lines_of pattern_text) 0 [])
    as (extra & Hret & _); [lia|done|].
  destruct (lines_of pattern_text); eauto.
Qed.

(** C8 as stated does not hold for the count of lines 35-43: the diamond in
    the first column of [WW / *W / WW] has Wall on all eight sides for the
    bounds-safe lookup, yet only the five neighbours inside the grid are
    counted, and the diamond is not reported as heavily walled. *)
Lemma edge_neighbours_are_not_counted :
  let text := join_nl ["WW"; "*W"; "WW"] in
  Spec.cell (lines_of text) 0 1 = Some "*"%char
  ∧ Spec.walls_around (lines_of text) 0 1 = 8
  ∧ sealed_count (lines_of text) 0 1 = 5
  ∧ sealed_count (lines_of text) 0 1 ≠ Spec.walls_around (lines_of text) 0 1
  ∧ check_sealed_diamonds text "" = Ret [sealed_issue 0 1].
Proof. vm_compute. repeat split; discriminate. Qed.

(** C8, as the scripts have it: outside the grid the bounds-safe lookup
    answers Wall, whatever the lengths of the rows; the four orthogonal reads
    around a diamond agree with it; the count over the eight neighbours takes
    in only those that are cells of the grid; and the flood fill does not
    step outside the grid. *)
Theorem neighbour_lookups lines :
  (∀ x y, x < 0 ∨ y < 0 ∨ Z.of_nat (length lines) ≤ y
          ∨ (∃ line, lines !! Z.to_nat y = Some line ∧ len line ≤ x) →
          Spec.cell_at lines x y = "W"%char)
  ∧ (∀ line x y,
       lines !! Z.to_nat y = Some line →
       0 < y < Z.of_nat (length lines) - 1 → 0 ≤ x < len line →
       above lines x y = Ret (Spec.cell_at lines x (y - 1))
       ∧ below lines x y = Ret (Spec.cell_at lines x (y + 1))
       ∧ left line x = Ret (Spec.cell_at lines (x - 1) y)
       ∧ right line x = Ret (Spec.cell_at lines (x + 1) y)
       ∧ sealed_count lines x y = Spec.walls_inside lines x y)
  ∧ (∀ x y st d, Spec.cell lines (x + d.1) (y + d.2) = None →
       Accessibility.visit lines x y st d = st).
Proof.
  split; [|split].
  - intros x y H. unfold Spec.cell_at. by rewrite (proj2 (cell_outside lines x y) H).
  - intros line x y Hl Hy Hx.
    rewrite above_spec, below_spec by lia.
    rewrite (left_spec lines line x y), (right_spec lines line x y) by (done || lia).
    by rewrite sealed_count_spec.
  - intros x y [visited queue] [dx dy] H. unfold Accessibility.visit.
    rewrite lookup_cell_spec. simpl in H. by rewrite H.
Qed.

Lemma neighbour_lookups_witness :
  above ["WW"; "*W"; "WW"] 0 1 = Ret (Spec.cell_at ["WW"; "*W"; "WW"] 0 (1 - 1))
  ∧ left "*W" 0 = Ret "W"%char
  ∧ sealed_count ["WW"; "*W"; "WW"] 0 1 = Spec.walls_inside ["WW"; "*W"; "WW"] 0 1.
Proof.
  destruct (proj1 (proj2 (neighbour_lookups ["WW"; "*W"; "WW"])) "*W" 0 1)
    as (Ha & _ & Hl & _ & Hc).
  - reflexivity.
  - simpl. lia.
  - vm_compute. split; [discriminate|reflexivity].
  - split; [exact Ha|]. split; [exact Hl|exact Hc].
Defined.

End SealedFacts.

(** ** verify-accessibility.py: the scan for the player and the diamonds *)

Module ScanFacts.
Import PyStr Grid GridFacts Accessibility.

Lemma elem_of_row_positions c y line p :
  p ∈ Spec.row_positions c y line
  ↔ ∃ x, p = (Z.of_nat x, Z.of_nat y) ∧ String.get x line = Some c.
Proof.
  unfold Spec.row_positions. rewrite list_elem_of_fmap. split.
  - intros (x & -> & Hx). apply list_elem_of_filter in Hx as [Hx _]. eauto.
  - intros (x & -> & Hx). exists x. split; [done|].
    apply list_elem_of_filter. split; [done|].
    apply elem_of_seq. apply get_lt in Hx. lia.
Qed.

Lemma elem_of_concat {A} (x : A) (ls : list (list A)) :
  x ∈ concat ls ↔ ∃ l, x ∈ l ∧ l ∈ ls.
Proof.
  rewrite list_elem_of_In, in_concat. split.
  - intros (l & Hl & Hx). exists l. by rewrite !list_elem_of_In.
  - intros (l & Hx & Hl). exists l. by rewrite <- !list_elem_of_In.
Qed.

(** The listed positions are the cells that hold the symbol. *)
Lemma elem_of_positions c lines p :
  p ∈ Spec.positions c lines ↔ Spec.cell lines p.1 p.2 = Some c.
Proof.
  unfold Spec.positions. rewrite cell_Some. split.
  - intros H. apply elem_of_concat in H as (l & Hp & Hl).
    apply elem_of_lookup_imap in Hl as (y & line & -> & Hy).
    apply elem_of_row_positions in Hp as (x & -> & Hx). simpl.
    rewrite !Nat2Z.id. repeat split; try lia. eauto.
  - intros (Hx & Hy & line & Hl & Hg).
    apply elem_of_concat. exists (Spec.row_positions c (Z.to_nat p.2) line).
    split.
    + apply elem_of_row_positions. exists (Z.to_nat p.1).
      split; [|done]. destruct p as [x y]. simpl in *. f_equal; lia.
    + apply elem_of_lookup_imap. eauto.
Qed.

(** The scan of one row, from column [x] on: the diamonds met are added,
    each counted once, and the player is the last ['P'] met. *)
Lemma find_in_line_inv y rest : ∀ x pp (D : gset (Z * Z)),
  (∀ p, p ∈ D → p.2 < y ∨ (p.2 = y ∧ p.1 < x)) →
  let r := find_in_line y x rest (pp, D) in
  (∀ p, p ∈ r.2 ↔ p ∈ D ∨ ∃ k, p = (x + Z.of_nat k, y)
                                 ∧ String.get k rest = Some "*"%char)
  ∧ size r.2 = (size D + count "*" rest)%nat
  ∧ ((r.1 = pp ∧ ∀ k, String.get k rest ≠ Some "P"%char)
     ∨ ∃ k, r.1 = Some (x + Z.of_nat k, y) ∧ String.get k rest = Some "P"%char).
Proof.
  induction rest as [|c rest IH]; intros x pp D Hfresh; cbn zeta.
  - simpl. split; [|split; [lia|left; done]].
    intros p. split; [auto|]. by intros [?|(k & _ & ?)].
  - cbn [find_in_line].
    assert (Hshift : ∀ k, x + 1 + Z.of_nat k = x + Z.of_nat (S k)) by (intros; lia).
    destruct (Ascii.eqb_spec c "P") as [->|HP]; [|destruct (Ascii.eqb_spec c "*") as [->|HD]].
    + destruct (IH (x + 1) (Some (x, y)) D) as (Ha & Hb & Hc).
      { intros p Hp. destruct (Hfresh p Hp); [auto|right; lia]. }
      split; [|split].
      * intros p. rewrite Ha. split; (intros [?|(k & -> & Hk)]; [by left|right]).
        -- exists (S k). by rewrite Hshift.
        -- destruct k as [|k]; [done|]. exists k. by rewrite Hshift.
      * rewrite Hb. simpl. done.
      * right. destruct Hc as [[-> _]|(k & -> & Hk)].
        -- exists 0%nat. by rewrite Z.add_0_r.
        -- exists (S k). by rewrite Hshift.
    + assert (Hnew : (x, y) ∉ D).
      { intros Hin. destruct (Hfresh _ Hin) as [?|[_ ?]]; simpl in *; lia. }
      destruct (IH (x + 1) pp ({[ (x, y) ]} ∪ D)) as (Ha & Hb & Hc).
      { intros p Hp. apply elem_of_union in Hp as [Hp|Hp].
        - apply elem_of_singleton in Hp as ->. simpl. right. lia.
        - destruct (Hfresh p Hp); [auto|right; lia]. }
      split; [|split].
      * intros p. rewrite Ha, elem_of_union, elem_of_singleton. split.
        -- intros [[->|?]|(k & -> & Hk)]; [right|by left|right].
           ++ exists 0%nat. by rewrite Z.add_0_r.
           ++ exists (S k). by rewrite Hshift.
        -- intros [?|(k & -> & Hk)]; [by left; right|].
           destruct k as [|k]; [left; left; by rewrite Z.add_0_r|].
           right. exists k. by rewrite Hshift.
      * rewrite Hb, size_union, size_singleton by set_solver. simpl. lia.
      * destruct Hc as [[-> Hno]|(k & -> & Hk)]; [left|right].
        -- split; [done|]. intros [|k]; [done|]. apply Hno.
        -- exists (S k). by rewrite Hshift.
    + destruct (IH (x + 1) pp D) as (Ha & Hb & Hc).
      { intros p Hp. destruct (Hfresh p Hp); [auto|right; lia]. }
      split; [|split].
      * intros p. rewrite Ha. split; (intros [?|(k & -> & Hk)]; [by left|right]).
        -- exists (S k). by rewrite Hshift.
        -- destruct k as [|k]; [simpl in Hk; congruence|]. exists k. by rewrite Hshift.
      * rewrite Hb. simpl. destruct (Ascii.eqb_spec c "*"); [done|]. done.
      * destruct Hc as [[-> Hno]|(k & -> & Hk)]; [left|right].
        -- split; [done|]. intros [|k]; [simpl; congruence|]. apply Hno.
        -- exists (S k). by rewrite Hshift.
Qed.

(** The scan of the rows from row [y] on. *)
Lemma find_in_lines_inv rows : ∀ y pp (D : gset (Z * Z)),
  (∀ p, p ∈ D → p.2 < y) →
  let r := find_in_lines y rows (pp, D) in
  (∀ p, p ∈ r.2 ↔ p ∈ D ∨ ∃ j line k, rows !! j = Some line
                                 ∧ p = (Z.of_nat k, y + Z.of_nat j)
                                 ∧ String.get k line = Some "*"%char)
  ∧ size r.2 = (size D + Spec.diamonds rows)%nat
  ∧ ((r.1 = pp ∧ ∀ j line k, rows !! j = Some line →
                             String.get k line ≠ Some "P"%char)
     ∨ ∃ j line k, rows !! j = Some line
                   ∧ r.1 = Some (Z.of_nat k, y + Z.of_nat j)
                   ∧ String.get k line = Some "P"%char).
Proof.
  induction rows as [|line rows IH]; intros y pp D Hfresh; cbn zeta.
  - simpl. split; [|split; [lia|left; done]].
    intros p. split; [auto|]. by intros [?|(j & l & k & ? & _)].
  - cbn [find_in_lines].
    assert (Hshift : ∀ j, y + 1 + Z.of_nat j = y + Z.of_nat (S j)) by (intros; lia).
    destruct (find_in_line_inv y line 0 pp D) as (Ha & Hb & Hc).
    { intros p Hp. left. by apply Hfresh. }
    destruct (find_in_line y 0 line (pp, D)) as [pp1 D1] eqn:E1. simpl in Ha, Hb, Hc.
    destruct (IH (y + 1) pp1 D1) as (Ha' & Hb' & Hc').
    { intros p Hp. apply Ha in Hp as [Hp|(k & -> & _)].
      - apply Hfresh in Hp. lia.
      - simpl. lia. }
    split; [|split].
    + intros p. rewrite Ha', Ha. split.
      * intros [[?|(k & -> & Hk)]|(j & l & k & Hl & -> & Hk)]; [by left|right|right].
        -- exists 0%nat, line, k. by rewrite Z.add_0_r, Z.add_0_l.
        -- exists (S j), l, k. by rewrite Hshift.
      * intros [?|(j & l & k & Hl & -> & Hk)]; [by left; left|].
        destruct j as [|j].
        -- injection Hl as <-. left. right. exists k.
           by rewrite Z.add_0_r, Z.add_0_l.
        -- right. exists j, l, k. by rewrite Hshift.
    + rewrite Hb', Hb. unfold Spec.diamonds. simpl. lia.
    + destruct Hc' as [[-> Hno']|(j & l & k & Hl & -> & Hk)].
      * destruct Hc as [[-> Hno]|(k & -> & Hk)]; [left|right].
        -- split; [done|]. intros [|j] l k Hl.
           ++ injection Hl as <-. apply Hno.
           ++ by apply (Hno' j).
        -- exists 0%nat, line, k. by rewrite Z.add_0_r, Z.add_0_l.
      * right. exists (S j), l, k. by rewrite Hshift.
Qed.

(** Lines 16-24: the diamonds found are the ['*'] cells of the grid, each
    counted once, and the player found is a ['P'] cell, if there is one. *)
Lemma find_spec lines :
  let r := find_in_lines 0 lines (None, ∅) in
  (∀ p, p ∈ r.2 ↔ Spec.is_diamond lines p)
  ∧ size r.2 = Spec.diamonds lines
  ∧ (r.1 = None → Spec.positions "P" lines = [])
  ∧ (∀ p, r.1 = Some p → p ∈ Spec.positions "P" lines).
Proof.
  cbn zeta. destruct (find_in_lines_inv lines 0 None ∅) as (Ha & Hb & Hc);
    [set_solver|].
  split; [|split; [|split]].
  - intros p. rewrite Ha. unfold Spec.is_diamond. rewrite cell_Some. split.
    + intros [?|(j & l & k & Hl & -> & Hk)]; [set_solver|]. simpl.
      rewrite Z.add_0_l, !Nat2Z.id. repeat split; try lia. eauto.
    + intros (Hx & Hy & l & Hl & Hk). right.
      exists (Z.to_nat p.2), l, (Z.to_nat p.1). repeat split; try done.
      destruct p as [x y]. simpl in *. f_equal; lia.
  - rewrite Hb, size_empty. done.
  - intros Hnone. destruct Hc as [[_ Hno]|(j & l & k & _ & Hr & _)]; [|congruence].
    destruct (Spec.positions "P" lines) as [|p ps] eqn:E; [done|].
    assert (Hp : p ∈ Spec.positions "P" lines) by (rewrite E; left).
    apply elem_of_positions, cell_Some in Hp as (_ & _ & l & Hl & Hk).
    destruct (Hno _ _ _ Hl Hk).
  - intros p Hp. rewrite Hp in Hc.
    destruct Hc as [[? _]|(j & l & k & Hl & Hr & Hk)]; [done|].
    injection Hr as ->. apply elem_of_positions, cell_Some. simpl.
    rewrite Z.add_0_l, !Nat2Z.id. repeat split; try lia. eauto.
Qed.

End ScanFacts.

(** ** verify-accessibility.py: the flood fill *)

Module FloodFacts.
Import PyStr Grid GridFacts Accessibility ScanFacts.

(** C3 as stated does not hold: without a player the check returns a triple
    like any other, and the triple it returns for the grid [*] is the one it
    returns for [PW*], where the player is there and the diamond is walled
    off. *)
Lemma no_player_looks_like_walled_off :
  Spec.positions "P" (nonempty_lines "*") = []
  ∧ Spec.positions "P" (nonempty_lines "PW*") = [(0, 0)]
  ∧ flood_fill_check "*" = Some (false, 0, 1)
  ∧ flood_fill_check "PW*" = flood_fill_check "*".
Proof. vm_compute. done. Qed.

(** C3, as the script has it: a grid with rows and no player yields
    [(False, 0, d)] for its [d] diamonds, and a pattern with no row at all
    yields [(True, 0, 0)]; nothing is raised. *)
Theorem no_player_counts_all_unreachable text :
  (nonempty_lines text = [] → flood_fill_check text = Some (true, 0, 0))
  ∧ (nonempty_lines text ≠ [] → Spec.positions "P" (nonempty_lines text) = [] →
     flood_fill_check text
     = Some (false, 0, Z.of_nat (Spec.diamonds (nonempty_lines text)))).
Proof.
  unfold flood_fill_check. split.
  - intros ->. done.
  - intros Hne Hno. destruct (nonempty_lines text) as [|l ls] eqn:E; [done|].
    destruct (find_spec (l :: ls)) as (_ & Hsize & _ & Hsome).
    destruct (find_in_lines 0 (l :: ls) (None, ∅)) as [[start|] D] eqn:Es;
      simpl in *.
    + specialize (Hsome start eq_refl). rewrite Hno in Hsome. inversion Hsome.
    + by rewrite Hsize.
Qed.

Lemma no_player_counts_all_unreachable_witness :
  flood_fill_check (join_nl ["W*W"; "W.*"])
  = Some (false, 0, Z.of_nat (Spec.diamonds (nonempty_lines (join_nl ["W*W"; "W.*"])))).
Proof.
  apply (proj2 (no_player_counts_all_unreachable (join_nl ["W*W"; "W.*"]))).
  - vm_compute. discriminate.
  - vm_compute. reflexivity.
Defined.

Lemma walkable_traversable c :
  char_in c walkable_chars = true ↔ Spec.traversable c.
Proof.
  unfold char_in, walkable_chars, Spec.traversable. simpl.
  destruct (Ascii.eqb_spec c " "), (Ascii.eqb_spec c "."),
    (Ascii.eqb_spec c "*"), (Ascii.eqb_spec c "E"), (Ascii.eqb_spec c "F"),
    (Ascii.eqb_spec c "P"); simpl; intuition congruence.
Qed.

(** The body of the loop over the directions: a neighbour is taken when it
    is an open cell of the grid that was not visited before. *)
Lemma visit_spec lines x y V Q d :
  let q := (x + d.1, y + d.2) in
  (Spec.open_cell lines q ∧ (q ∉ V)
   ∧ visit lines x y (V, Q) d = ({[ q ]} ∪ V, (Q ++ [q])%list))
  ∨ ((¬ Spec.open_cell lines q ∨ q ∈ V) ∧ visit lines x y (V, Q) d = (V, Q)).
Proof.
  destruct d as [dx dy]. cbn zeta. unfold visit, Spec.open_cell. cbn [fst snd].
  rewrite lookup_cell_spec.
  destruct (Spec.cell lines (x + dx) (y + dy)) as [c|] eqn:E.
  - destruct (decide ((x + dx, y + dy) ∈ V)) as [Hin|Hnin].
    + right. rewrite bool_decide_false by (intros H; by apply H). auto.
    + rewrite bool_decide_true by done.
      destruct (char_in c walkable_chars) eqn:Hw.
      * left. apply walkable_traversable in Hw. split; [eauto|]. split; [exact Hnin|reflexivity].
      * right. split; [|done]. left. intros (c' & Hc' & Ht).
        injection Hc' as <-. apply walkable_traversable in Ht. congruence.
  - right. split; [|done]. left. by intros (c & Hc & _).
Qed.

(** The loop over the directions, from any state: the cells it takes are
    appended to the queue and added to the visited set, once each. *)
Lemma visit_fold lines x y ds : ∀ V Q,
  ∃ new, fold_left (visit lines x y) ds (V, Q)
         = (list_to_set new ∪ V, (Q ++ new)%list)
    ∧ NoDup new
    ∧ (∀ q, q ∈ new → (q ∉ V) ∧ Spec.open_cell lines q
                       ∧ ∃ d, d ∈ ds ∧ q = (x + d.1, y + d.2))
    ∧ (∀ d, d ∈ ds → Spec.open_cell lines (x + d.1, y + d.2) →
            (x + d.1, y + d.2) ∈ list_to_set new ∪ V).
Proof.
  induction ds as [|d ds IH]; intros V Q.
  - exists []. simpl. rewrite app_nil_r, union_empty_l_L.
    split; [done|]. split; [constructor|]. split; intros ? H; inversion H.
  - cbn [fold_left].
    destruct (visit_spec lines x y V Q d) as [(Hop & Hnin & ->)|(Hskip & ->)].
    + destruct (IH ({[ (x + d.1, y + d.2) ]} ∪ V) (Q ++ [(x + d.1, y + d.2)])%list)
        as (new & -> & Hnd & Hnew & Hall).
      exists ((x + d.1, y + d.2) :: new). split; [|split; [|split]].
      * rewrite <- app_assoc. simpl. f_equal. set_solver.
      * constructor; [|done]. intros Hin. apply Hnew in Hin as (Hin & _).
        apply Hin, elem_of_union. left. by apply elem_of_singleton.
      * intros q Hq. apply elem_of_cons in Hq as [->|Hq].
        -- split; [done|]. split; [done|]. exists d. split; [left|done].
        -- apply Hnew in Hq as (Hq & Ho & d' & Hd' & ->).
           split; [intros HV; apply Hq, elem_of_union; by right|].
           split; [done|]. exists d'. split; [by right|done].
      * intros d' Hd' Ho. apply elem_of_cons in Hd' as [->|Hd'].
        -- apply elem_of_union. left. apply elem_of_list_to_set. left.
        -- specialize (Hall d' Hd' Ho).
           rewrite list_to_set_cons. rewrite !elem_of_union in Hall.
           rewrite !elem_of_union. tauto.
    + destruct (IH V Q) as (new & -> & Hnd & Hnew & Hall).
      exists new. split; [done|]. split; [done|]. split.
      * intros q Hq. apply Hnew in Hq as (Hq & Ho & d' & Hd' & ->).
        split; [done|]. split; [done|]. exists d'. split; [by right|done].
      * intros d' Hd' Ho. apply elem_of_cons in Hd' as [->|Hd'].
        -- destruct Hskip as [Hno|Hin]; [done|apply elem_of_union; by right].
        -- by apply Hall.
Qed.

Lemma elem_of_all_cells lines p :
  p ∈ Spec.all_cells lines ↔ ∃ c, Spec.cell lines p.1 p.2 = Some c.
Proof.
  unfold Spec.all_cells. rewrite elem_of_concat. split.
  - intros (l & Hp & Hl).
    apply elem_of_lookup_imap in Hl as (y & line & -> & Hy).
    apply list_elem_of_fmap in Hp as (x & -> & Hx). apply elem_of_seq in Hx.
    destruct (get_is_Some line x) as [c Hc]; [lia|]. exists c.
    apply cell_Some. simpl. rewrite !Nat2Z.id. repeat split; try lia. eauto.
  - intros (c & Hc). apply cell_Some in Hc as (Hx & Hy & line & Hl & Hg).
    eexists. split; [|apply elem_of_lookup_imap; eauto].
    apply list_elem_of_fmap. exists (Z.to_nat p.1). split.
    + destruct p as [x y]. simpl in *. f_equal; lia.
    + apply elem_of_seq. apply get_lt in Hg. lia.
Qed.

Lemma length_concat_imap (g : nat → string → list (Z * Z)) ls :
  (∀ y l, length (g y l) = String.length l) →
  length (concat (imap g ls)) = cells ls.
Proof.
  revert g. induction ls as [|l ls IH]; intros g Hg; [done|].
  rewrite imap_cons, concat_cons, length_app, Hg. simpl. f_equal.
  apply IH. intros. apply Hg.
Qed.

Lemma length_all_cells lines : length (Spec.all_cells lines) = cells lines.
Proof.
  apply length_concat_imap. intros y l. by rewrite length_map, length_seq.
Qed.

Lemma size_list_to_set_le (l : list (Z * Z)) :
  (size (list_to_set l : gset (Z * Z)) ≤ length l)%nat.
Proof.
  induction l as [|a l IH].
  - rewrite list_to_set_nil, size_empty. done.
  - rewrite list_to_set_cons, size_union_alt, size_singleton. cbn [length].
    assert (size (list_to_set l ∖ {[a]} : gset (Z * Z))
            ≤ size (list_to_set l : gset (Z * Z)))%nat
      by (apply subseteq_size; set_solver).
    lia.
Qed.

(** No more cells are visited than the grid has. *)
Lemma visited_bound (lines : list string) (V : gset (Z * Z)) :
  (∀ p, p ∈ V → p ∈ Spec.all_cells lines) → (size V ≤ cells lines)%nat.
Proof.
  intros H. rewrite <- length_all_cells.
  etrans; [|apply size_list_to_set_le].
  apply subseteq_size. intros p Hp. apply elem_of_list_to_set. by apply H.
Qed.

Lemma directions_unit d :
  d ∈ directions ↔ Z.abs d.1 + Z.abs d.2 = 1.
Proof.
  unfold directions. destruct d as [dx dy]. simpl. split.
  - intros H. repeat (apply elem_of_cons in H as [H|H];
      [injection H as Hx Hy; subst; done|]). inversion H.
  - intros H.
    assert ((dx, dy) = (0, 1) ∨ (dx, dy) = (0, -1) ∨ (dx, dy) = (1, 0)
            ∨ (dx, dy) = (-1, 0)) as [-> | [-> | [-> | ->]]].
    { assert (dx = 0 ∧ dy = 1 ∨ dx = 0 ∧ dy = -1 ∨ dx = 1 ∧ dy = 0
              ∨ dx = -1 ∧ dy = 0) by lia.
      intuition (subst; auto). }
    all: repeat (first [by left | right]).
Qed.

Lemma size_union_list (V : gset (Z * Z)) new :
  NoDup new → (∀ q, q ∈ new → q ∉ V) →
  size (list_to_set new ∪ V) = (length new + size V)%nat.
Proof.
  intros Hnd Hnew. rewrite size_union.
  - by rewrite size_list_to_set.
  - intros q Hq HV. apply elem_of_list_to_set in Hq. by apply (Hnew q).
Qed.

(** One turn of the loop keeps the invariant, and takes one cell from the
    queue for every turn. *)
Lemma turn_inv lines start D st x y rest :
  Spec.flood_inv lines start D st → queue st = (x, y) :: rest →
  Spec.flood_inv lines start D (turn lines D x y rest st)
  ∧ (size (visited (turn lines D x y rest st)) + length rest
     = size (visited st) + length (queue (turn lines D x y rest st)))%nat.
Proof.
  intros [Hs Hsound Hcell Hq Hnd Hcl Hdia] HQ. unfold turn.
  destruct (visit_fold lines x y directions (visited st) rest)
    as (new & -> & Hndn & Hnew & Hall).
  rewrite HQ in *.
  assert (Hxy : (x, y) ∈ visited st) by (apply Hq; left).
  apply NoDup_cons in Hnd as [Hxyr Hndr].
  assert (Hxyn : (x, y) ∉ new).
  { intros Hin. by apply Hnew in Hin as (Hin & _). }
  split.
  - split; simpl.
    + apply elem_of_union. by right.
    + intros p Hp. apply elem_of_union in Hp as [Hp|Hp]; [|by apply Hsound].
      apply elem_of_list_to_set, Hnew in Hp as (_ & (c & Hc & Ht) & d & Hd & ->).
      apply (Spec.reach_step lines start x y d.1 d.2 c); auto.
      by apply directions_unit.
    + intros p Hp. apply elem_of_union in Hp as [Hp|Hp]; [|by apply Hcell].
      apply elem_of_list_to_set, Hnew in Hp as (_ & (c & Hc & Ht) & _).
      apply elem_of_all_cells. eauto.
    + intros p Hp. apply elem_of_union. apply elem_of_app in Hp as [Hp|Hp].
      * right. apply Hq. by right.
      * left. by apply elem_of_list_to_set.
    + apply NoDup_app. split; [done|]. split; [|done].
      intros p Hp Hpn. apply Hnew in Hpn as (Hpn & _). apply Hpn, Hq. by right.
    + intros p d Hp Hpq Hd Ho.
      assert (Hpn : p ∉ new) by (intros ?; apply Hpq, elem_of_app; by right).
      assert (Hpr : p ∉ rest) by (intros ?; apply Hpq, elem_of_app; by left).
      apply elem_of_union in Hp as [Hp|Hp]; [by apply elem_of_list_to_set in Hp|].
      destruct (decide (p = (x, y))) as [->|Hne].
      * by apply Hall.
      * apply elem_of_union. right. apply Hcl; try done.
        intros Hin. apply elem_of_cons in Hin as [?|?]; done.
    + intros p.
      assert (Hold : p ∈ reachable_diamonds st
                     ↔ p ∈ visited st ∧ p ≠ (x, y) ∧ (p ∉ rest) ∧ p ∈ D).
      { rewrite Hdia, not_elem_of_cons. tauto. }
      rewrite elem_of_union, elem_of_list_to_set, not_elem_of_app.
      destruct (decide (p = (x, y))) as [->|Hne].
      * destruct (bool_decide_reflect ((x, y) ∈ D)) as [HD|HD].
        -- rewrite elem_of_union, elem_of_singleton. tauto.
        -- rewrite Hold. tauto.
      * assert (p ∈ new → p ∉ visited st)
          by (intros Hp; apply Hnew in Hp as (? & _); done).
        destruct (bool_decide_reflect ((x, y) ∈ D)) as [HD|HD].
        -- rewrite elem_of_union, elem_of_singleton, Hold. tauto.
        -- rewrite Hold. tauto.
  - simpl. rewrite size_union_list, length_app; [lia|done|].
    intros q Hq'. by apply Hnew in Hq' as (? & _).
Qed.

(** The loop ends: as many turns as the grid has cells empty the queue. *)
Lemma flood_loop_ends lines start D : ∀ fuel st,
  Spec.flood_inv lines start D st →
  (cells lines - size (visited st) + length (queue st) ≤ fuel)%nat →
  ∃ st', flood_loop fuel lines D st = Some st'
         ∧ Spec.flood_inv lines start D st' ∧ queue st' = [].
Proof.
  induction fuel as [|fuel IH]; intros st Hinv Hfuel;
    destruct (queue st) as [|[x y] rest] eqn:HQ.
  - exists st. simpl. by rewrite HQ.
  - simpl in Hfuel. lia.
  - exists st. simpl. by rewrite HQ.
  - cbn [flood_loop]. rewrite HQ.
    destruct (turn_inv lines start D st x y rest Hinv HQ) as [Hinv' Hsize].
    apply IH; [done|].
    pose proof (visited_bound lines _ (Spec.inv_cell _ _ _ _ Hinv')).
    simpl in Hfuel. lia.
Qed.

(** When the queue is empty the visited cells are the cells a walk from the
    player gets to. *)
Lemma visited_complete lines start D st p :
  Spec.flood_inv lines start D st → queue st = [] →
  Spec.reachable lines start p → p ∈ visited st.
Proof.
  intros Hinv HQ Hr. induction Hr as [|x y dx dy c Hr IH Hd Hc Ht].
  - apply (Spec.inv_start _ _ _ _ Hinv).
  - apply (Spec.inv_closed _ _ _ _ Hinv (x, y) (dx, dy)); try done.
    + rewrite HQ. apply not_elem_of_nil.
    + by apply directions_unit.
    + exists c. done.
Qed.

(** From a cell of the grid the loop runs to the end within its fuel. *)
Lemma flood_from_cell lines D start :
  start ∈ Spec.all_cells lines →
  ∃ st, flood_loop (cells lines) lines D (mkflood {[ start ]} [start] ∅) = Some st
        ∧ Spec.flood_inv lines start D st ∧ queue st = [].
Proof.
  intros Hcell.
  assert (Hinv0 : Spec.flood_inv lines start D (mkflood {[ start ]} [start] ∅)).
  { split; simpl.
    - by apply elem_of_singleton.
    - intros p ->%elem_of_singleton. constructor.
    - by intros p ->%elem_of_singleton.
    - intros p ->%list_elem_of_singleton. by apply elem_of_singleton.
    - apply NoDup_singleton.
    - intros p d ->%elem_of_singleton Hq. destruct Hq. left.
    - intros p. split; [set_solver|].
      intros (->%elem_of_singleton & Hq & _). destruct Hq. left. }
  apply (flood_loop_ends lines start D (cells lines) _ Hinv0).
  pose proof (visited_bound lines _ (Spec.inv_cell _ _ _ _ Hinv0)) as Hb.
  cbn [visited queue length] in *. rewrite size_singleton in *. lia.
Qed.

(** The check returns a triple for every pattern: the fuel of the loop is
    never used up. *)
Lemma flood_fill_check_total text : ∃ r, flood_fill_check text = Some r.
Proof.
  unfold flood_fill_check.
  destruct (nonempty_lines text) as [|l ls] eqn:E; [eauto|].
  cbv iota. set (lines := l :: ls) in *.
  destruct (find_spec lines) as (_ & _ & _ & Hsome).
  destruct (find_in_lines 0 lines (None, ∅)) as [[p0|] D] eqn:Es;
    cbn [fst snd] in *; [|eauto].
  destruct (flood_from_cell lines D p0) as (st & -> & _).
  - apply elem_of_all_cells. exists "P"%char. apply elem_of_positions. auto.
  - cbn [mbind option_bind]. eauto.
Qed.

(** C2: with exactly one player cell the flood fill from that cell, over the
    four orthogonal neighbours and over traversable cells only, finds the
    diamonds a walk from the player gets to, and the second count it returns
    is the number of all diamonds less the number of those. *)
Theorem flood_fill_reaches text start :
  Spec.positions "P" (nonempty_lines text) = [start] →
  ∃ R : gset (Z * Z),
    (∀ p, p ∈ R ↔ Spec.reachable (nonempty_lines text) start p
                  ∧ Spec.is_diamond (nonempty_lines text) p)
    ∧ flood_fill_check text
      = Some (Z.of_nat (Spec.diamonds (nonempty_lines text)) - Z.of_nat (size R) =? 0,
              Z.of_nat (size R),
              Z.of_nat (Spec.diamonds (nonempty_lines text)) - Z.of_nat (size R)).
Proof.
  intros HP. unfold flood_fill_check.
  destruct (nonempty_lines text) as [|l ls] eqn:E; [done|].
  cbv iota. set (lines := l :: ls) in *.
  destruct (find_spec lines) as (Hdia & Hsize & Hnone & Hsome).
  destruct (find_in_lines 0 lines (None, ∅)) as [[p0|] D] eqn:Es;
    cbn [fst snd] in *.
  2:{ rewrite Hnone in HP by done. done. }
  specialize (Hsome p0 eq_refl). rewrite HP in Hsome.
  apply list_elem_of_singleton in Hsome as ->.
  destruct (flood_from_cell lines D start) as (st & -> & Hinv & HQ).
  { apply elem_of_all_cells. exists "P"%char. apply elem_of_positions.
    rewrite HP. left. }
  exists (reachable_diamonds st). split.
  - intros p. rewrite (Spec.inv_diamonds _ _ _ _ Hinv), HQ, Hdia. split.
    + intros (Hv & _ & Hd). split; [|done].
      by apply (Spec.inv_sound _ _ _ _ Hinv).
    + intros (Hr & Hd). split; [|split; [apply not_elem_of_nil|done]].
      by apply (visited_complete lines start D).
  - cbn [mbind option_bind]. by rewrite Hsize.
Qed.

Lemma flood_fill_reaches_witness :
  ∃ R : gset (Z * Z),
    (∀ p, p ∈ R
          ↔ Spec.reachable (nonempty_lines (join_nl ["WWWWW"; "W.P.W"; "W.*.W"; "WWWWW"]))
              (2, 1) p
            ∧ Spec.is_diamond (nonempty_lines (join_nl ["WWWWW"; "W.P.W"; "W.*.W"; "WWWWW"])) p)
    ∧ flood_fill_check (join_nl ["WWWWW"; "W.P.W"; "W.*.W"; "WWWWW"])
      = Some (Z.of_nat (Spec.diamonds
                          (nonempty_lines (join_nl ["WWWWW"; "W.P.W"; "W.*.W"; "WWWWW"])))
              - Z.of_nat (size R) =? 0,
              Z.of_nat (size R),
              Z.of_nat (Spec.diamonds
                          (nonempty_lines (join_nl ["WWWWW"; "W.P.W"; "W.*.W"; "WWWWW"])))
              - Z.of_nat (size R)).
Proof.
  apply (flood_fill_reaches (join_nl ["WWWWW"; "W.P.W"; "W.*.W"; "WWWWW"]) (2, 1)).
  vm_compute. reflexivity.
Defined.

(** The scenario of the specification: the player at (2,1), one diamond at
    (2,2) just below it. *)
Example flood_fill_scenario :
  flood_fill_check (join_nl ["WWWWW"; "W.P.W"; "W.*.W"; "WWWWW"])
  = Some (true, 1, 0).
Proof. vm_compute. reflexivity. Qed.

End FloodFacts.

(** ** Floating point *)

Module PyFloatFacts.
Import PyFloat.

Lemma pow2_pos e : 0 < pow2 e.
Proof. unfold pow2. apply Z.pow_pos_nonneg; lia. Qed.

(** Equations between products of powers of two. *)
Ltac pow2_eq :=
  unfold pow2;
  repeat match goal with
    | |- context [2 * ?x] => change (2 * x) with (2 ^ 1 * x)
    end;
  rewrite <- ?Z.pow_add_r by lia; f_equal; lia.

Lemma pow2_shift a b :
  0 <= a → 0 <= b → 2 ^ a * pow2 (- (a - b)) = 2 ^ b * pow2 (a - b).
Proof. intros. pow2_eq. Qed.

Lemma pow2_succ k : pow2 k * pow2 (- (k - 1)) = 2 * (pow2 (k - 1) * pow2 (- k)).
Proof. pow2_eq. Qed.

Lemma pow2_lt e1 e2 :
  e1 < e2 → 2 * (pow2 e1 * pow2 (- e2)) <= pow2 e2 * pow2 (- e1).
Proof.
  intros H. unfold pow2.
  change (2 * (2 ^ Z.max e1 0 * 2 ^ Z.max (- e2) 0))
    with (2 ^ 1 * (2 ^ Z.max e1 0 * 2 ^ Z.max (- e2) 0)).
  rewrite <- !Z.pow_add_r by lia. apply Z.pow_le_mono_r; lia.
Qed.

Lemma pow2_52 k :
  2 ^ 52 * (pow2 (k - 52) * pow2 (- k)) = pow2 k * pow2 (- (k - 52)).
Proof. pow2_eq. Qed.

Lemma pow2_add a b :
  pow2 (a + b) * (pow2 (- a) * pow2 (- b))
  = pow2 a * pow2 b * pow2 (- (a + b)).
Proof. pow2_eq. Qed.

Lemma pow2_shift1 a b :
  0 <= a → 0 <= b →
  2 ^ a * pow2 (- (a - b - 1)) = 2 * (2 ^ b * pow2 (a - b - 1)).
Proof. intros. pow2_eq. Qed.

(** [ilog2_frac n d] is the [k] with [2 ^ k <= n / d < 2 ^ (k + 1)]. *)
Lemma ilog2_frac_spec n d :
  0 < n → 0 < d →
  d * pow2 (ilog2_frac n d) <= n * pow2 (- ilog2_frac n d)
  ∧ n * pow2 (- ilog2_frac n d) < 2 * (d * pow2 (ilog2_frac n d)).
Proof.
  intros Hn Hd. unfold ilog2_frac.
  destruct (Z.log2_spec n Hn) as [Hn1 Hn2], (Z.log2_spec d Hd) as [Hd1 Hd2].
  pose proof (Z.log2_nonneg n) as Ha. pose proof (Z.log2_nonneg d) as Hb.
  set (a := Z.log2 n) in *. set (b := Z.log2 d) in *.
  pose proof (pow2_shift a b Ha Hb) as Hs.
  pose proof (pow2_pos (a - b)) as Hp. pose proof (pow2_pos (- (a - b))) as Hq.
  rewrite Z.pow_succ_r in Hn2, Hd2 by lia.
  destruct (Z.ltb_spec (n * pow2 (- (a - b))) (d * pow2 (a - b))) as [Hlt|Hge].
  - pose proof (pow2_succ (a - b)) as Hk.
    pose proof (pow2_shift1 a b Ha Hb) as Hs1.
    pose proof (pow2_pos (a - b - 1)) as Hp'.
    pose proof (pow2_pos (- (a - b - 1))) as Hq'.
    split.
    + assert (d * pow2 (a - b - 1) <= 2 * (2 ^ b * pow2 (a - b - 1))) by nia.
      assert (2 ^ a * pow2 (- (a - b - 1)) <= n * pow2 (- (a - b - 1))) by nia.
      lia.
    + apply (Z.mul_lt_mono_pos_r (pow2 (- (a - b)))); [done|].
      assert (n * pow2 (- (a - b - 1)) * pow2 (- (a - b))
              = n * pow2 (- (a - b)) * pow2 (- (a - b - 1))) as -> by ring.
      assert (2 * (d * pow2 (a - b - 1)) * pow2 (- (a - b))
              = d * pow2 (a - b) * pow2 (- (a - b - 1))) as ->.
      { rewrite <- (Z.mul_assoc d), Hk. ring. }
      by apply Z.mul_lt_mono_pos_r.
  - split; [lia|].
    assert (n * pow2 (- (a - b)) < 2 * 2 ^ a * pow2 (- (a - b))) by nia.
    assert (2 ^ b * pow2 (a - b) <= d * pow2 (a - b)) by nia.
    lia.
Qed.

Lemma rne_spec n d :
  0 <= n → 0 < d →
  n / d <= rne n d <= n / d + 1
  ∧ 2 * Z.abs (rne n d * d - n) <= d.
Proof.
  intros Hn Hd. unfold rne.
  pose proof (Z.div_mod n d ltac:(lia)) as Hdm.
  pose proof (Z.mod_pos_bound n d Hd) as Hr.
  destruct (Z.compare_spec (2 * (n mod d)) d); [destruct (Z.even (n / d))| |];
    split; nia.
Qed.

(** Rounding to the nearest integer is monotone. *)
Lemma rne_mono n1 d1 n2 d2 :
  0 <= n1 → 0 < d1 → 0 <= n2 → 0 < d2 →
  n1 * d2 <= n2 * d1 → rne n1 d1 <= rne n2 d2.
Proof.
  intros Hn1 Hd1 Hn2 Hd2 Hle.
  pose proof (Z.div_mod n1 d1 ltac:(lia)) as Hdm1.
  pose proof (Z.mod_pos_bound n1 d1 Hd1) as Hr1.
  pose proof (Z.div_mod n2 d2 ltac:(lia)) as Hdm2.
  pose proof (Z.mod_pos_bound n2 d2 Hd2) as Hr2.
  assert (Hq : n1 / d1 <= n2 / d2).
  { apply Z.div_le_lower_bound; [done|].
    apply (Z.mul_le_mono_pos_l _ _ d1); [done|]. nia. }
  unfold rne.
  set (q1 := n1 / d1) in *. set (q2 := n2 / d2) in *.
  set (r1 := n1 mod d1) in *. set (r2 := n2 mod d2) in *.
  destruct (Z.eq_dec q1 q2) as [Heq|Hne].
  2:{ destruct (2 * r1 ?= d1), (2 * r2 ?= d2); repeat destruct (Z.even _); lia. }
  assert (Hr : r1 * d2 <= r2 * d1) by nia.
  rewrite <- Heq in *.
  destruct (Z.compare_spec (2 * r1) d1), (Z.compare_spec (2 * r2) d2);
    destruct (Z.even q1); try lia; nia.
Qed.

(** So the nearest integer depends on the fraction only. *)
Lemma rne_ratio n1 d1 n2 d2 :
  0 <= n1 → 0 < d1 → 0 <= n2 → 0 < d2 →
  n1 * d2 = n2 * d1 → rne n1 d1 = rne n2 d2.
Proof.
  intros. apply Z.le_antisymm; apply rne_mono; lia.
Qed.

(** [ilog2_frac] is monotone in the fraction. *)
Lemma ilog2_frac_mono n1 d1 n2 d2 :
  0 < n1 → 0 < d1 → 0 < n2 → 0 < d2 →
  n1 * d2 <= n2 * d1 → ilog2_frac n1 d1 <= ilog2_frac n2 d2.
Proof.
  intros Hn1 Hd1 Hn2 Hd2 Hle.
  destruct (ilog2_frac_spec n1 d1 Hn1 Hd1) as [Hl1 _].
  destruct (ilog2_frac_spec n2 d2 Hn2 Hd2) as [_ Hu2].
  set (k1 := ilog2_frac n1 d1) in *. set (k2 := ilog2_frac n2 d2) in *.
  destruct (Z.le_gt_cases k1 k2) as [|Hgt]; [done|exfalso].
  pose proof (pow2_lt k2 k1 Hgt) as Hp.
  pose proof (pow2_pos k1). pose proof (pow2_pos (- k1)).
  pose proof (pow2_pos k2). pose proof (pow2_pos (- k2)).
  (* d1 P1 N2 d2 <= n1 N1 N2 d2 <= n2 d1 N1 N2 < 2 d2 P2 d1 N1 <= d1 d2 P1 N2 *)
  assert (A1 : d1 * pow2 k1 * (pow2 (- k2) * d2)
               <= n1 * pow2 (- k1) * (pow2 (- k2) * d2)).
  { apply Z.mul_le_mono_nonneg_r; [nia|done]. }
  assert (A2 : n1 * pow2 (- k1) * (pow2 (- k2) * d2)
               <= n2 * pow2 (- k2) * (pow2 (- k1) * d1)).
  { replace (n1 * pow2 (- k1) * (pow2 (- k2) * d2))
      with (n1 * d2 * (pow2 (- k1) * pow2 (- k2))) by ring.
    replace (n2 * pow2 (- k2) * (pow2 (- k1) * d1))
      with (n2 * d1 * (pow2 (- k1) * pow2 (- k2))) by ring.
    apply Z.mul_le_mono_nonneg_r; [nia|done]. }
  assert (A3 : n2 * pow2 (- k2) * (pow2 (- k1) * d1)
               < 2 * (d2 * pow2 k2) * (pow2 (- k1) * d1)).
  { apply Z.mul_lt_mono_pos_r; [nia|done]. }
  assert (A4 : 2 * (d2 * pow2 k2) * (pow2 (- k1) * d1)
               <= d1 * pow2 k1 * (pow2 (- k2) * d2)).
  { replace (2 * (d2 * pow2 k2) * (pow2 (- k1) * d1))
      with (2 * (pow2 k2 * pow2 (- k1)) * (d1 * d2)) by ring.
    replace (d1 * pow2 k1 * (pow2 (- k2) * d2))
      with (pow2 k1 * pow2 (- k2) * (d1 * d2)) by ring.
    apply Z.mul_le_mono_nonneg_r; [nia|done]. }
  lia.
Qed.

Lemma ilog2_frac_ratio n1 d1 n2 d2 :
  0 < n1 → 0 < d1 → 0 < n2 → 0 < d2 →
  n1 * d2 = n2 * d1 → ilog2_frac n1 d1 = ilog2_frac n2 d2.
Proof. intros. apply Z.le_antisymm; apply ilog2_frac_mono; lia. Qed.

(** The rounded value has 53 significant bits and lies within half a unit
    in the last place of the fraction. *)
Lemma round53_spec n d :
  0 < n → 0 < d →
  let x := round53 n d in
  expo x = ilog2_frac n d - 52
  ∧ 2 ^ 52 <= mant x <= 2 ^ 53
  ∧ 2 ^ 52 * (d * pow2 (expo x)) <= n * pow2 (- expo x)
  ∧ n * pow2 (- expo x) < 2 ^ 53 * (d * pow2 (expo x))
  ∧ 2 * Z.abs (mant x * (d * pow2 (expo x)) - n * pow2 (- expo x))
    <= d * pow2 (expo x).
Proof.
  intros Hn Hd. cbn zeta. unfold round53. cbn [mant expo].
  destruct (ilog2_frac_spec n d Hn Hd) as [Hl Hu].
  set (k := ilog2_frac n d) in *.
  pose proof (pow2_52 k) as H52.
  pose proof (pow2_pos k). pose proof (pow2_pos (- k)).
  pose proof (pow2_pos (k - 52)) as Hpe. pose proof (pow2_pos (- (k - 52))) as Hne.
  assert (Hlo : 2 ^ 52 * (d * pow2 (k - 52)) <= n * pow2 (- (k - 52))).
  { apply (Z.mul_le_mono_pos_r _ _ (pow2 (- k))); [done|].
    replace (2 ^ 52 * (d * pow2 (k - 52)) * pow2 (- k))
      with (d * (2 ^ 52 * (pow2 (k - 52) * pow2 (- k)))) by ring.
    rewrite H52.
    replace (d * (pow2 k * pow2 (- (k - 52))))
      with (d * pow2 k * pow2 (- (k - 52))) by ring.
    replace (n * pow2 (- (k - 52)) * pow2 (- k))
      with (n * pow2 (- k) * pow2 (- (k - 52))) by ring.
    apply Z.mul_le_mono_nonneg_r; lia. }
  assert (Hhi : n * pow2 (- (k - 52)) < 2 ^ 53 * (d * pow2 (k - 52))).
  { apply (Z.mul_lt_mono_pos_r (pow2 (- k))); [done|].
    replace (2 ^ 53 * (d * pow2 (k - 52)) * pow2 (- k))
      with (2 * d * (2 ^ 52 * (pow2 (k - 52) * pow2 (- k)))) by ring.
    rewrite H52.
    replace (2 * d * (pow2 k * pow2 (- (k - 52))))
      with (2 * (d * pow2 k) * pow2 (- (k - 52))) by ring.
    replace (n * pow2 (- (k - 52)) * pow2 (- k))
      with (n * pow2 (- k) * pow2 (- (k - 52))) by ring.
    apply Z.mul_lt_mono_pos_r; lia. }
  assert (Hd' : 0 < d * pow2 (k - 52)) by nia.
  assert (Hn' : 0 <= n * pow2 (- (k - 52))) by nia.
  destruct (rne_spec _ _ Hn' Hd') as [[Hq1 Hq2] Herr].
  split; [done|]. split; [|done].
  split.
  - etrans; [|exact Hq1]. apply Z.div_le_lower_bound; lia.
  - assert (n * pow2 (- (k - 52)) / (d * pow2 (k - 52)) < 2 ^ 53)
      by (apply Z.div_lt_upper_bound; lia).
    lia.
Qed.

(** Rounding is monotone. *)
Lemma round53_mono n1 d1 n2 d2 :
  0 < n1 → 0 < d1 → 0 < n2 → 0 < d2 →
  n1 * d2 <= n2 * d1 → le (round53 n1 d1) (round53 n2 d2).
Proof.
  intros Hn1 Hd1 Hn2 Hd2 Hle.
  pose proof (ilog2_frac_mono _ _ _ _ Hn1 Hd1 Hn2 Hd2 Hle) as Hk.
  destruct (round53_spec n1 d1 Hn1 Hd1) as (He1 & [Hm1 Hm1'] & _).
  destruct (round53_spec n2 d2 Hn2 Hd2) as (He2 & [Hm2 Hm2'] & _).
  unfold le, num, den.
  destruct (Z.eq_dec (ilog2_frac n1 d1) (ilog2_frac n2 d2)) as [Heq|Hne].
  - assert (Hm : mant (round53 n1 d1) <= mant (round53 n2 d2)).
    { unfold round53. cbn [mant]. rewrite Heq.
      pose proof (pow2_pos (ilog2_frac n2 d2 - 52)).
      pose proof (pow2_pos (- (ilog2_frac n2 d2 - 52))).
      apply rne_mono; try nia. }
    rewrite He1, He2, Heq.
    pose proof (pow2_pos (ilog2_frac n2 d2 - 52)).
    pose proof (pow2_pos (- (ilog2_frac n2 d2 - 52))).
    apply Z.mul_le_mono_nonneg_r; [lia|].
    apply Z.mul_le_mono_nonneg_r; lia.
  - assert (Hlt : expo (round53 n1 d1) < expo (round53 n2 d2)) by lia.
    pose proof (pow2_lt _ _ Hlt) as Hp.
    set (e1 := expo (round53 n1 d1)) in *. set (e2 := expo (round53 n2 d2)) in *.
    pose proof (pow2_pos e1). pose proof (pow2_pos (- e1)).
    pose proof (pow2_pos e2). pose proof (pow2_pos (- e2)).
    assert (mant (round53 n1 d1) * pow2 e1 * pow2 (- e2)
            <= 2 ^ 53 * (pow2 e1 * pow2 (- e2))) by nia.
    assert (2 ^ 52 * (pow2 e2 * pow2 (- e1))
            <= mant (round53 n2 d2) * pow2 e2 * pow2 (- e1)) by nia.
    lia.
Qed.

(** So the rounded value depends on the fraction only. *)
Lemma round53_ratio n1 d1 n2 d2 :
  0 < n1 → 0 < d1 → 0 < n2 → 0 < d2 →
  n1 * d2 = n2 * d1 → round53 n1 d1 = round53 n2 d2.
Proof.
  intros Hn1 Hd1 Hn2 Hd2 Heq. unfold round53.
  rewrite (ilog2_frac_ratio n1 d1 n2 d2) by done.
  f_equal.
  pose proof (pow2_pos (ilog2_frac n2 d2 - 52)).
  pose proof (pow2_pos (- (ilog2_frac n2 d2 - 52))).
  apply rne_ratio; nia.
Qed.

Lemma num_round53 n d : 0 < n → 0 < d → 0 < num (round53 n d).
Proof.
  intros Hn Hd. destruct (round53_spec n d Hn Hd) as (_ & [Hm _] & _).
  unfold num. pose proof (pow2_pos (expo (round53 n d))). nia.
Qed.

Lemma den_pos x : 0 < den x.
Proof. apply pow2_pos. Qed.

(** Multiplying by a positive float is monotone. *)
Lemma mul_mono x y z :
  0 < mant x → 0 < mant y → 0 < mant z → le x y → le (mul x z) (mul y z).
Proof.
  intros Hx Hy Hz Hle. unfold mul, le, num, den in *.
  pose proof (pow2_add (expo x) (expo z)) as Ix.
  pose proof (pow2_add (expo y) (expo z)) as Iy.
  set (Px := pow2 (expo x)) in *. set (Nx := pow2 (- expo x)) in *.
  set (Py := pow2 (expo y)) in *. set (Ny := pow2 (- expo y)) in *.
  set (Pz := pow2 (expo z)) in *. set (Nz := pow2 (- expo z)) in *.
  set (Pxz := pow2 (expo x + expo z)) in *.
  set (Nxz := pow2 (- (expo x + expo z))) in *.
  set (Pyz := pow2 (expo y + expo z)) in *.
  set (Nyz := pow2 (- (expo y + expo z))) in *.
  assert (0 < Px ∧ 0 < Nx ∧ 0 < Py ∧ 0 < Ny ∧ 0 < Pz ∧ 0 < Nz ∧ 0 < Pxz
          ∧ 0 < Nxz ∧ 0 < Pyz ∧ 0 < Nyz) as (?&?&?&?&?&?&?&?&?&?)
    by (repeat split; apply pow2_pos).
  assert (Hnx : 0 < mant x * mant z * Pxz) by nia.
  assert (Hny : 0 < mant y * mant z * Pyz) by nia.
  unfold round_frac.
  destruct (mant x * mant z * Pxz) as [|nx|nx] eqn:Ex; try lia.
  destruct (mant y * mant z * Pyz) as [|ny|ny] eqn:Ey; try lia.
  rewrite <- Ex, <- Ey.
  apply round53_mono; try lia.
  apply (Z.mul_le_mono_pos_r _ _ (Nx * Nz * (Ny * Nz))); [nia|].
  replace (mant x * mant z * Pxz * Nyz * (Nx * Nz * (Ny * Nz)))
    with (mant x * mant z * Nyz * (Ny * Nz) * (Pxz * (Nx * Nz))) by ring.
  replace (mant y * mant z * Pyz * Nxz * (Nx * Nz * (Ny * Nz)))
    with (mant y * mant z * Nxz * (Nx * Nz) * (Pyz * (Ny * Nz))) by ring.
  rewrite Ix, Iy.
  replace (mant x * mant z * Nyz * (Ny * Nz) * (Px * Pz * Nxz))
    with (mant x * Px * Ny * (mant z * Pz * Nz * Nxz * Nyz)) by ring.
  replace (mant y * mant z * Nxz * (Nx * Nz) * (Py * Pz * Nyz))
    with (mant y * Py * Nx * (mant z * Pz * Nz * Nxz * Nyz)) by ring.
  apply Z.mul_le_mono_nonneg_r; [nia|done].
Qed.

(** A float above an integer stays above it when it grows. *)
Lemma gt_int_mono x y n : le x y → gt_int x n = true → gt_int y n = true.
Proof.
  unfold le, gt_int, num, den. intros Hle Hx.
  apply Z.ltb_lt in Hx. apply Z.ltb_lt.
  pose proof (pow2_pos (- expo x)). pose proof (pow2_pos (- expo y)).
  apply (Z.mul_lt_mono_pos_r (pow2 (- expo x))); [done|]. nia.
Qed.

(** Line 28 and line 30: for [0 < t <= a], with [a] up to [2 ^ 51], the
    percentage computed in floating point is above 60 exactly when
    [t / a] is above three fifths. *)
Lemma percentage_above_60 t a :
  0 < t <= a → a <= 2 ^ 51 →
  gt_int (mul (round_frac t a) (of_int 100)) 60 = true ↔ 3 * a < 5 * t.
Proof.
  intros [Ht Hta] Ha.
  assert (Hrf : round_frac t a = round53 t a) by (destruct t; done || lia).
  rewrite Hrf.
  assert (Hh : 0 < mant (of_int 100)) by (vm_compute; done).
  destruct (round53_spec t a) as (_ & [Hm _] & _); try lia.
  assert (Hq : 0 < mant (round53 t a)) by lia.
  split.
  - intros Hgt. destruct (Z.lt_ge_cases (3 * a) (5 * t)) as [|Hge]; [done|].
    exfalso.
    assert (Hle : le (round53 t a) (round53 3 5))
      by (apply round53_mono; lia).
    assert (Hc : 0 < mant (round53 3 5)) by (vm_compute; done).
    pose proof (gt_int_mono _ _ 60
      (mul_mono _ _ (of_int 100) Hq Hc Hh Hle) Hgt) as Habs.
    vm_compute in Habs. done.
  - intros Hlt.
    assert (Hle : le (round53 5404319552844596 (2 ^ 53)) (round53 t a))
      by (apply round53_mono; lia).
    assert (Hc : 0 < mant (round53 5404319552844596 (2 ^ 53)))
      by (vm_compute; done).
    apply (gt_int_mono _ _ 60
      (mul_mono _ _ (of_int 100) Hc Hq Hh Hle)).
    vm_compute. done.
Qed.

(** An integer below [2 ^ 53] is a float. *)
Lemma of_int_exact i :
  0 < i < 2 ^ 53 → num (of_int i) = i * den (of_int i) ∧ expo (of_int i) <= 0.
Proof.
  intros [Hi Hi']. unfold of_int.
  assert (Hrf : round_frac i 1 = round53 i 1) by (destruct i; done || lia).
  rewrite Hrf.
  destruct (round53_spec i 1) as (He & _ & Hlo & _ & _); try lia.
  assert (Hexp : expo (round53 i 1) <= 0).
  { destruct (Z.le_gt_cases (expo (round53 i 1)) 0) as [|Hgt]; [done|exfalso].
    unfold pow2 in Hlo.
    rewrite (Z.max_l (expo _) 0), (Z.max_r (- expo _) 0) in Hlo by lia.
    assert (2 ^ 1 <= 2 ^ expo (round53 i 1)) by (apply Z.pow_le_mono_r; lia).
    change (2 ^ 0) with 1 in Hlo. lia. }
  split; [|done].
  unfold num, den. unfold round53 at 1 2. cbn [mant expo].
  rewrite <- He. unfold pow2 at 2 3.
  rewrite (Z.max_r (expo _) 0) by lia. change (2 ^ 0) with 1.
  rewrite !Z.mul_1_r. unfold rne.
  pose proof (pow2_pos (- expo (round53 i 1))).
  rewrite Z.mod_1_r, Z.div_1_r. simpl. done.
Qed.

Lemma round_frac_pos n d : 0 < n → round_frac n d = round53 n d.
Proof. intros. destruct n; done || lia. Qed.

Lemma pow2_nonpos e : e <= 0 → pow2 e = 1.
Proof. intros. unfold pow2. by rewrite Z.max_r by lia. Qed.

(** The product [i * x] of an integer below [2 ^ 53] and a positive float
    is the rounded fraction [i * mant x / 2 ^ (- expo x)]. *)
Lemma mul_int_round i x :
  0 < i < 2 ^ 53 → 0 < mant x → expo x <= 0 →
  mul_int i x = round53 (i * mant x) (pow2 (- expo x)).
Proof.
  intros Hi Hx Hex. unfold mul_int, mul.
  destruct (of_int_exact i Hi) as [Hnum Hei].
  unfold num, den in Hnum. rewrite (pow2_nonpos _ Hei), Z.mul_1_r in Hnum.
  pose proof (pow2_add (expo (of_int i)) (expo x)) as Hadd.
  rewrite (pow2_nonpos _ Hei), (pow2_nonpos _ Hex), !Z.mul_1_l in Hadd.
  pose proof (pow2_pos (- expo (of_int i))) as Hpi.
  pose proof (pow2_pos (- expo x)) as Hpx.
  pose proof (pow2_pos (expo (of_int i) + expo x)) as Hps.
  pose proof (pow2_pos (- (expo (of_int i) + expo x))) as Hns.
  assert (Hmi : 0 < mant (of_int i)) by nia.
  rewrite round_frac_pos by nia.
  apply round53_ratio; nia.
Qed.

Lemma to_int_div x :
  0 <= mant x → expo x <= 0 → to_int x = mant x / pow2 (- expo x).
Proof.
  intros Hm He. unfold to_int. rewrite (pow2_nonpos _ He), Z.mul_1_r.
  pose proof (pow2_pos (- expo x)). apply Z.quot_div_nonneg; lia.
Qed.

(** The two rounding errors of [i * (N / R)] together stay below one unit
    of the last digit kept by [int]. *)
Lemma close_aux A B R i E1 E2 T :
  0 < A → 0 < B → 0 < R → 0 <= i →
  - R <= 2 * E1 <= R → - A <= 2 * E2 <= A →
  A <= 2 * i * B → 3 * i * R < 2 * A →
  A * T = R * E2 + i * B * E1 → - B < T < B.
Proof.
  intros HA HB HR Hi HE1 HE2 HA2 H3 HT.
  assert (H1 : - (R * A) <= R * (2 * E2) <= R * A) by nia.
  assert (H2 : - (i * B * R) <= i * B * (2 * E1) <= i * B * R) by nia.
  assert (H4 : R * A + i * B * R < 2 * (A * B)).
  { assert (R * A <= R * (2 * i * B)) by (apply Z.mul_le_mono_nonneg_l; lia).
    assert (B * (3 * i * R) < B * (2 * A)) by (apply Z.mul_lt_mono_pos_l; lia).
    lia. }
  assert (H5 : - (2 * (A * B)) < 2 * (A * T) < 2 * (A * B)) by lia.
  split; nia.
Qed.

Lemma floor_aux mp B R f r T :
  0 < B → 0 < R → 0 <= r < R → - B < T < B →
  mp * R = R * (f * B) + r * B + T →
  mp / B = f ∨ (mp / B = f - 1 ∧ r = 0).
Proof.
  intros HB HR Hr HT Hmp.
  assert (Hup : mp < (f + 1) * B).
  { assert (r * B <= (R - 1) * B) by (apply Z.mul_le_mono_nonneg_r; lia).
    assert (mp * R < R * ((f + 1) * B)) by lia.
    apply (Z.mul_lt_mono_pos_l R); [done|]. lia. }
  destruct (Z.eq_dec r 0) as [Hr0|Hr0].
  - assert (Hlow : (f - 1) * B < mp).
    { assert (B <= R * B) by nia.
      assert (R * ((f - 1) * B) < mp * R) by (subst r; lia).
      apply (Z.mul_lt_mono_pos_l R); [done|]. lia. }
    destruct (Z.le_gt_cases (f * B) mp).
    + left. symmetry. apply Z.div_unique with (mp - f * B); lia.
    + right. split; [|done]. symmetry.
      apply Z.div_unique with (mp - (f - 1) * B); lia.
  - left. assert (Hlow : f * B < mp).
    { assert (1 * B <= r * B) by (apply Z.mul_le_mono_nonneg_r; lia).
      assert (R * (f * B) < mp * R) by lia.
      apply (Z.mul_lt_mono_pos_l R); [done|]. lia. }
    symmetry. apply Z.div_unique with (mp - f * B); lia.
Qed.

(** Line 32 in exact terms.  For [0 < R <= N < 2 ^ 25] the index
    [int(i * (N / R))] computed in floating point is [floor (i * N / R)], or
    one less when [i * N / R] is an integer. *)
Lemma index_spec N R i :
  0 < R <= N → N < 2 ^ 25 → 0 <= i < R →
  let k := to_int (mul_int i (round_frac N R)) in
  0 <= k ∧ (k = i * N / R ∨ (k = i * N / R - 1 ∧ (i * N) mod R = 0)).
Proof.
  intros [HR HRN] HN [Hi HiR]. cbn zeta.
  rewrite round_frac_pos by lia.
  destruct (Z.eq_dec i 0) as [->|Hi0].
  { vm_compute to_int. rewrite Z.div_0_l by lia. split; [done|by left]. }
  destruct (round53_spec N R) as (_ & [Hms Hms'] & Hlo & _ & Herr); try lia.
  set (s := round53 N R) in *.
  assert (Hes : expo s <= 0).
  { destruct (Z.le_gt_cases (expo s) 0) as [|Hgt]; [done|exfalso].
    unfold pow2 in Hlo.
    rewrite (Z.max_l (expo _) 0), (Z.max_r (- expo _) 0) in Hlo by lia.
    assert (2 ^ 1 <= 2 ^ expo s) by (apply Z.pow_le_mono_r; lia).
    change (2 ^ 0) with 1 in Hlo.
    assert (R * 2 ^ 1 <= R * 2 ^ expo s) by (apply Z.mul_le_mono_nonneg_l; lia).
    lia. }
  rewrite (pow2_nonpos _ Hes), !Z.mul_1_r in Hlo, Herr.
  pose proof (pow2_pos (- expo s)) as HA.
  set (A := pow2 (- expo s)) in *. set (ms := mant s) in *.
  rewrite mul_int_round by (fold ms; lia). fold ms A.
  assert (HX : 0 < i * ms) by (apply Z.mul_pos_pos; lia).
  destruct (round53_spec (i * ms) A HX HA) as (_ & [Hmp Hmp'] & Hlo2 & _ & Herr2).
  set (p := round53 (i * ms) A) in *.
  assert (HNA : N * 1 <= N * A) by (apply Z.mul_le_mono_nonneg_l; lia).
  assert (HXR : 2 * (i * ms * R) <= i * (3 * (N * A))).
  { replace (2 * (i * ms * R)) with (i * (2 * (ms * R))) by ring.
    apply Z.mul_le_mono_nonneg_l; lia. }
  assert (HXN : 2 * (i * ms) < 3 * N * A).
  { apply (Z.mul_lt_mono_pos_r R); [done|].
    assert (i * (3 * (N * A)) < R * (3 * (N * A)))
      by (apply Z.mul_lt_mono_pos_r; lia).
    replace (2 * (i * ms) * R) with (2 * (i * ms * R)) by ring.
    replace (3 * N * A * R) with (R * (3 * (N * A))) by ring. lia. }
  assert (Hep : expo p <= 0).
  { destruct (Z.le_gt_cases (expo p) 0) as [|Hgt]; [done|exfalso].
    unfold pow2 in Hlo2.
    rewrite (Z.max_l (expo _) 0), (Z.max_r (- expo _) 0) in Hlo2 by lia.
    assert (2 ^ 1 <= 2 ^ expo p) by (apply Z.pow_le_mono_r; lia).
    change (2 ^ 0) with 1 in Hlo2.
    assert (A * 2 ^ 1 <= A * 2 ^ expo p) by (apply Z.mul_le_mono_nonneg_l; lia).
    assert (3 * N * A <= 3 * 2 ^ 25 * A) by (apply Z.mul_le_mono_nonneg_r; lia).
    lia. }
  rewrite (pow2_nonpos _ Hep), !Z.mul_1_r in Hlo2, Herr2.
  pose proof (pow2_pos (- expo p)) as HB.
  rewrite to_int_div by lia.
  set (B := pow2 (- expo p)) in *. set (mp := mant p) in *.
  assert (HA2 : A <= 2 * i * B).
  { assert (i * ms * B <= i * 2 ^ 53 * B).
    { apply Z.mul_le_mono_nonneg_r; [lia|].
      apply Z.mul_le_mono_nonneg_l; lia. }
    lia. }
  assert (H3 : 3 * i * R < 2 * A).
  { assert (i * N <= 2 ^ 25 * 2 ^ 25) by (apply Z.mul_le_mono_nonneg; lia).
    assert (3 * (i * N) < 2 ^ 53) by lia.
    assert (3 * (i * N) * R < 2 ^ 53 * R)
      by (apply Z.mul_lt_mono_pos_r; lia).
    apply (Z.mul_lt_mono_pos_r N); [lia|].
    replace (3 * i * R * N) with (3 * (i * N) * R) by ring. lia. }
  assert (Hclose : - B < mp * R - i * N * B < B).
  { apply (close_aux A B R i (ms * R - N * A) (mp * A - i * ms * B));
      first [lia|ring]. }
  pose proof (Z.div_mod (i * N) R ltac:(lia)) as Hdm.
  pose proof (Z.mod_pos_bound (i * N) R HR) as Hr.
  split; [apply Z.div_pos; lia|].
  apply (floor_aux mp B R _ _ (mp * R - i * N * B)); try done.
  set (f := i * N / R) in *. set (r := (i * N) mod R) in *.
  rewrite Hdm. ring.
Qed.

(** With as many candidates as diamonds the step is [1.0] and the indices
    are exact. *)
Lemma index_exact R i :
  0 < R → 0 <= i < 2 ^ 53 → to_int (mul_int i (round_frac R R)) = i.
Proof.
  intros HR [Hi Hi']. rewrite round_frac_pos by done.
  rewrite (round53_ratio R R 1 1) by lia.
  destruct (Z.eq_dec i 0) as [->|Hi0]; [vm_compute; reflexivity|].
  assert (Hone : round53 1 1 = mkfloat (2 ^ 52) (-52)) by (vm_compute; reflexivity).
  rewrite Hone.
  rewrite mul_int_round by (cbn [mant expo]; lia).
  cbn [mant expo]. change (pow2 (- -52)) with (2 ^ 52).
  rewrite (round53_ratio _ _ i 1) by lia.
  destruct (of_int_exact i ltac:(lia)) as [Hnum He].
  unfold of_int in *. rewrite round_frac_pos in * by lia.
  unfold num, den in Hnum. rewrite (pow2_nonpos _ He), Z.mul_1_r in Hnum.
  pose proof (pow2_pos (- expo (round53 i 1))).
  rewrite to_int_div by lia. rewrite Hnum. apply Z.div_mul. lia.
Qed.

(** The indices are in range. *)
Lemma index_bound N R i :
  0 < R <= N → N < 2 ^ 25 → 0 <= i < R →
  0 <= to_int (mul_int i (round_frac N R)) < N.
Proof.
  intros HR HN Hi. destruct (index_spec N R i HR HN Hi) as [H0 Hk].
  split; [done|].
  assert (i * N / R < N).
  { apply Z.div_lt_upper_bound; [lia|].
    apply Z.mul_lt_mono_pos_r; lia. }
  lia.
Qed.

(** The indices grow strictly, so no candidate is selected twice. *)
Lemma index_lt N R i j :
  0 < R <= N → N < 2 ^ 25 → 0 <= i < j → j < R →
  to_int (mul_int i (round_frac N R)) < to_int (mul_int j (round_frac N R)).
Proof.
  intros HR HN Hij Hj.
  destruct (Z.eq_dec N R) as [->|Hne].
  { rewrite !index_exact by lia. lia. }
  destruct (index_spec N R i HR HN ltac:(lia)) as [_ Hi].
  destruct (index_spec N R j HR HN ltac:(lia)) as [_ Hj'].
  pose proof (Z.div_mod (i * N) R ltac:(lia)) as Hdi.
  pose proof (Z.mod_pos_bound (i * N) R ltac:(lia)) as Hri.
  pose proof (Z.div_mod (j * N) R ltac:(lia)) as Hdj.
  pose proof (Z.mod_pos_bound (j * N) R ltac:(lia)) as Hrj.
  assert (Hstep : i * N + N <= j * N).
  { replace (i * N + N) with ((i + 1) * N) by ring.
    apply Z.mul_le_mono_nonneg_r; lia. }
  set (fi := i * N / R) in *. set (fj := j * N / R) in *.
  set (ri := (i * N) mod R) in *. set (rj := (j * N) mod R) in *.
  assert (Hf : fi + 1 <= fj).
  { assert (R * (fi + 1) < R * (fj + 1)) by lia.
    assert (fi + 1 < fj + 1) by (apply (Z.mul_lt_mono_pos_l R); lia). lia. }
  destruct Hj' as [->|[-> Hrj0]]; [lia|].
  assert (Hf2 : fi + 2 <= fj).
  { assert (R * fi < R * (fj - 1)) by lia.
    assert (fi < fj - 1) by (apply (Z.mul_lt_mono_pos_l R); lia). lia. }
  lia.
Qed.

(** The model agrees with the binary64 operations of the standard library
    on the quotients and products the scripts meet. *)
Example model_agrees_with_binary64 :
  to_spec (round53 30 22) = SFdiv 53 1024 (spec_of_int 30) (spec_of_int 22)
  ∧ to_spec (mul_int 11 (round53 30 22))
    = SFmul 53 1024 (spec_of_int 11)
        (SFdiv 53 1024 (spec_of_int 30) (spec_of_int 22))
  ∧ to_spec (round53 10 3) = SFdiv 53 1024 (spec_of_int 10) (spec_of_int 3)
  ∧ to_spec (mul_int 2 (round53 10 3))
    = SFmul 53 1024 (spec_of_int 2)
        (SFdiv 53 1024 (spec_of_int 10) (spec_of_int 3))
  ∧ to_spec (mul (round53 3 5) (of_int 100))
    = SFmul 53 1024 (SFdiv 53 1024 (spec_of_int 3) (spec_of_int 5))
        (spec_of_int 100)
  ∧ to_spec (mul (round53 2 3) (of_int 100))
    = SFmul 53 1024 (SFdiv 53 1024 (spec_of_int 2) (spec_of_int 3))
        (spec_of_int 100)
  ∧ to_spec (of_int 100) = spec_of_int 100.
Proof. vm_compute. repeat split; reflexivity. Qed.

End PyFloatFacts.

(** ** check-all-caves.py *)

Module ClusteringFacts.
Import PyStr PyStrFacts PyFloat PyFloatFacts Clustering.

(** Lines 18-22: the rows that hold a diamond, with their counts. *)
Lemma collect_spec lines : ∀ idx acc,
  collect idx lines acc
  = (acc ++ filter (fun p : Z * Z => 0 < p.2)
              (imap (fun k l => (idx + Z.of_nat k, Z.of_nat (count "*" l)))
                    lines))%list.
Proof.
  induction lines as [|l lines IH]; intros idx acc.
  - simpl. by rewrite app_nil_r.
  - cbn [collect]. rewrite IH, imap_cons, filter_cons. cbn [snd].
    assert (Hext : imap (fun k l0 => (idx + 1 + Z.of_nat k, Z.of_nat (count "*" l0))) lines
                   = imap ((fun k l0 => (idx + Z.of_nat k, Z.of_nat (count "*" l0))) ∘ S) lines).
    { apply imap_ext. intros k l0 _. simpl. f_equal. lia. }
    rewrite Hext.
    destruct (Z.ltb_spec 0 (Z.of_nat (count "*" l))).
    + rewrite decide_True by done. rewrite <- app_assoc. simpl.
      by rewrite Z.add_0_r.
    + by rewrite decide_False by lia.
Qed.

Lemma filter_counts lines : ∀ idx : Z,
  (filter (fun p : Z * Z => 0 < p.2)
     (imap (fun k l => (idx + Z.of_nat k, Z.of_nat (count "*" l))) lines)).*2
  = filter (fun c => 0 < c) (Spec.row_counts lines).
Proof.
  unfold Spec.row_counts.
  induction lines as [|l lines IH]; intros idx; [done|].
  rewrite imap_cons, fmap_cons, !filter_cons. cbn [snd].
  assert (Hext : imap ((fun k l0 => (idx + Z.of_nat k, Z.of_nat (count "*" l0))) ∘ S) lines
                 = imap (fun k l0 => (idx + 1 + Z.of_nat k, Z.of_nat (count "*" l0))) lines).
  { apply imap_ext. intros k l0 _. simpl. f_equal. lia. }
  rewrite Hext.
  destruct (decide (0 < Z.of_nat (count "*" l))); [rewrite fmap_cons|];
    by rewrite IH.
Qed.

Lemma collect_counts lines :
  (collect 0 lines []).*2 = filter (fun c => 0 < c) (Spec.row_counts lines).
Proof. rewrite collect_spec. simpl. apply filter_counts. Qed.

Lemma two_largest_bounds cs :
  (∀ c, c ∈ cs → 0 <= c) →
  0 <= (Spec.two_largest cs).2 <= (Spec.two_largest cs).1
  ∧ (∀ c, c ∈ cs → c <= (Spec.two_largest cs).1)
  ∧ (Spec.two_largest cs).1 + (Spec.two_largest cs).2 <= foldr Z.add 0 cs.
Proof.
  induction cs as [|c cs IH]; intros Hpos.
  - simpl. split; [lia|]. split; [|lia]. intros c Hc. inversion Hc.
  - destruct IH as (Hab & Hmax & Hsum).
    { intros c' Hc'. apply Hpos. by right. }
    assert (Hc : 0 <= c) by (apply Hpos; left).
    cbn [Spec.two_largest foldr].
    destruct (Spec.two_largest cs) as [a b]. simpl in *.
    destruct (Z.leb_spec a c); [|destruct (Z.leb_spec b c)]; simpl;
      (split; [lia|]); (split; [|lia]); intros c' Hc';
      apply elem_of_cons in Hc' as [->|Hc']; try lia;
      specialize (Hmax c' Hc'); lia.
Qed.

(** [two_largest] gives the counts of two different rows (or zero where
    there are not two rows), and no two different rows have more diamonds
    together. *)
Lemma two_largest_spec cs :
  (∀ c, c ∈ cs → 0 <= c) →
  (∃ i j, i ≠ j ∧ (cs ++ [0; 0])%list !! i = Some (Spec.two_largest cs).1
          ∧ (cs ++ [0; 0])%list !! j = Some (Spec.two_largest cs).2)
  ∧ (∀ i j ci cj, i ≠ j → cs !! i = Some ci → cs !! j = Some cj →
       ci + cj <= (Spec.two_largest cs).1 + (Spec.two_largest cs).2).
Proof.
  induction cs as [|c cs IH]; intros Hpos.
  - split; [by exists 0%nat, 1%nat|]. intros i j ci cj _ Hi. done.
  - assert (Hcs : ∀ c', c' ∈ cs → 0 <= c') by (intros; apply Hpos; by right).
    destruct (IH Hcs) as ((i & j & Hij & Hi & Hj) & Hpair).
    destruct (two_largest_bounds cs Hcs) as (Hab & Hmax & _).
    cbn [Spec.two_largest]. destruct (Spec.two_largest cs) as [a b].
    cbn [fst snd] in *.
    assert (Hone : ∀ k ck, cs !! k = Some ck → ck <= a).
    { intros k ck Hk. apply Hmax. by apply list_elem_of_lookup_2 in Hk. }
    split.
    + destruct (Z.leb_spec a c); [|destruct (Z.leb_spec b c)]; cbn [fst snd].
      * by exists 0%nat, (S i).
      * by exists (S i), 0%nat.
      * exists (S i), (S j). split; [lia|done].
    + intros [|i'] [|j'] ci cj Hne Hci Hcj; try done; simpl in Hci, Hcj.
      * injection Hci as <-. specialize (Hone _ _ Hcj).
        destruct (Z.leb_spec a c); [|destruct (Z.leb_spec b c)];
          cbn [fst snd]; lia.
      * injection Hcj as <-. specialize (Hone _ _ Hci).
        destruct (Z.leb_spec a c); [|destruct (Z.leb_spec b c)];
          cbn [fst snd]; lia.
      * specialize (Hpair i' j' ci cj ltac:(lia) Hci Hcj).
        destruct (Z.leb_spec a c); [|destruct (Z.leb_spec b c)];
          cbn [fst snd]; lia.
Qed.

(** Rows without diamonds do not change the two highest counts. *)
Lemma two_largest_filter cs :
  (∀ c, c ∈ cs → 0 <= c) →
  Spec.two_largest (filter (fun c => 0 < c) cs) = Spec.two_largest cs.
Proof.
  induction cs as [|c cs IH]; intros Hpos; [done|].
  assert (Hcs : ∀ c', c' ∈ cs → 0 <= c') by (intros; apply Hpos; by right).
  assert (Hc : 0 <= c) by (apply Hpos; left).
  destruct (two_largest_bounds cs Hcs) as (Hab & _ & _).
  rewrite filter_cons. destruct (decide (0 < c)).
  - cbn [Spec.two_largest]. by rewrite IH.
  - rewrite IH by done. cbn [Spec.two_largest].
    destruct (Spec.two_largest cs) as [a b]. simpl in *.
    assert (c = 0) as -> by lia.
    destruct (Z.leb_spec a 0); [|destruct (Z.leb_spec b 0)]; f_equal; lia.
Qed.

(** Inserting a row into the sorted list updates the first two counts as
    [two_largest] does. *)
Lemma first_two_insert x s :
  0 <= x.2 → (∀ y, y ∈ s → 0 <= y.2) →
  Spec.first_two (insert_desc x s)
  = (let '(a, b) := Spec.first_two s in
     if a <=? x.2 then (x.2, a) else if b <=? x.2 then (a, x.2) else (a, b)).
Proof.
  intros Hx Hs. destruct s as [|a [|b s]]; cbn [insert_desc Spec.first_two].
  - by destruct (Z.leb_spec 0 x.2); [|lia].
  - assert (0 <= a.2) by (apply Hs; left).
    destruct (Z.ltb_spec x.2 a.2), (Z.leb_spec a.2 x.2); try lia; simpl; [|done].
    by destruct (Z.leb_spec 0 x.2); [|lia].
  - destruct (Z.ltb_spec x.2 a.2), (Z.leb_spec a.2 x.2); try lia; simpl; [|done].
    by destruct (Z.ltb_spec x.2 b.2), (Z.leb_spec b.2 x.2); try lia.
Qed.

Lemma elem_of_insert_desc x s y : y ∈ insert_desc x s ↔ y = x ∨ y ∈ s.
Proof.
  induction s as [|a s IH]; simpl.
  - rewrite list_elem_of_singleton. set_solver.
  - destruct (x.2 <? a.2); rewrite !elem_of_cons, ?IH; tauto.
Qed.

Lemma elem_of_sorted_desc l y : y ∈ sorted_desc l ↔ y ∈ l.
Proof.
  induction l as [|x l IH]; simpl; [done|].
  rewrite elem_of_insert_desc, IH, elem_of_cons. done.
Qed.

Lemma length_insert_desc x s : length (insert_desc x s) = S (length s).
Proof.
  induction s as [|a s IH]; simpl; [done|].
  destruct (x.2 <? a.2); simpl; by rewrite ?IH.
Qed.

Lemma length_sorted_desc l : length (sorted_desc l) = length l.
Proof.
  induction l as [|x l IH]; simpl; [done|]. by rewrite length_insert_desc, IH.
Qed.

(** Line 26 and line 27: the first two rows of the sorted list hold the two
    highest counts. *)
Lemma sorted_first_two l :
  (∀ y, y ∈ l → 0 <= y.2) →
  Spec.first_two (sorted_desc l) = Spec.two_largest (l.*2).
Proof.
  induction l as [|x l IH]; intros Hpos; [done|].
  cbn [sorted_desc foldr fmap list_fmap Spec.two_largest].
  rewrite first_two_insert.
  - fold (sorted_desc l). rewrite IH; [done|]. intros; apply Hpos; by right.
  - apply Hpos. left.
  - intros y Hy. apply Hpos. right. by apply elem_of_sorted_desc.
Qed.

Lemma sum_take_two s :
  sum_counts (take 2 s) = (Spec.first_two s).1 + (Spec.first_two s).2.
Proof.
  destruct s as [|a [|b s]]; unfold sum_counts; simpl; lia.
Qed.

Lemma sum_row_counts lines :
  foldr Z.add 0 (Spec.row_counts lines) = Z.of_nat (Spec.diamonds lines).
Proof.
  induction lines as [|l lines IH]; [done|].
  unfold Spec.row_counts, Spec.diamonds in *. simpl. rewrite IH. lia.
Qed.

Lemma row_counts_nonneg lines c : c ∈ Spec.row_counts lines → 0 <= c.
Proof.
  unfold Spec.row_counts. intros (l & -> & _)%list_elem_of_fmap. lia.
Qed.

Lemma filter_positive_nil cs :
  (∀ c, c ∈ cs → 0 <= c) →
  filter (fun c => 0 < c) cs = [] → foldr Z.add 0 cs = 0.
Proof.
  induction cs as [|c cs IH]; intros Hpos Hnil; [done|].
  rewrite filter_cons in Hnil. destruct (decide (0 < c)); [done|].
  assert (0 <= c) by (apply Hpos; left). simpl.
  rewrite IH; [lia| |done]. intros; apply Hpos; by right.
Qed.

Lemma sum_nonneg cs : (∀ c, c ∈ cs → 0 <= c) → 0 <= foldr Z.add 0 cs.
Proof.
  induction cs as [|c cs IH]; intros Hpos; simpl; [lia|].
  assert (0 <= c) by (apply Hpos; left).
  assert (0 <= foldr Z.add 0 cs) by (apply IH; intros; apply Hpos; by right).
  lia.
Qed.

Lemma elem_le_sum cs c :
  (∀ c, c ∈ cs → 0 <= c) → c ∈ cs → c <= foldr Z.add 0 cs.
Proof.
  induction cs as [|c0 cs IH]; intros Hpos Hc; [inversion Hc|].
  assert (0 <= c0) by (apply Hpos; left).
  assert (Hcs : ∀ c, c ∈ cs → 0 <= c) by (intros; apply Hpos; by right).
  pose proof (sum_nonneg cs Hcs). simpl.
  apply elem_of_cons in Hc as [->|Hc]; [lia|]. specialize (IH Hcs Hc). lia.
Qed.

(** When one row holds all the diamonds it is the only row with diamonds. *)
Lemma one_positive cs c :
  (∀ c, c ∈ cs → 0 <= c) → c ∈ cs → foldr Z.add 0 cs = c → 0 < c →
  length (filter (fun c => 0 < c) cs) = 1%nat.
Proof.
  induction cs as [|c0 cs IH]; intros Hpos Hc Hsum Hc0; [inversion Hc|].
  assert (0 <= c0) by (apply Hpos; left).
  assert (Hcs : ∀ c, c ∈ cs → 0 <= c) by (intros; apply Hpos; by right).
  pose proof (sum_nonneg cs Hcs). simpl in Hsum. rewrite filter_cons.
  apply elem_of_cons in Hc as [->|Hc].
  - rewrite decide_True by done. simpl. f_equal.
    destruct (filter (fun c => 0 < c) cs) as [|c1 l] eqn:E; [done|exfalso].
    assert (Hc1 : c1 ∈ filter (fun c => 0 < c) cs) by (rewrite E; left).
    apply list_elem_of_filter in Hc1 as [Hc1 Hin].
    pose proof (elem_le_sum cs c1 Hcs Hin). lia.
  - pose proof (elem_le_sum cs c Hcs Hc).
    rewrite decide_False by lia. apply (IH Hcs Hc); lia.
Qed.

(** C7: the verdict of the clustering check.  With no diamond the verdict
    is "no diamonds"; otherwise it is "clustered" exactly when the two highest
    row counts together exceed 60% of all the diamonds; and a row that holds
    all the diamonds gives "clustered" with 100% in one line. *)
Theorem clustering_verdict pattern :
  let rows := lines_of pattern in
  let total := Z.of_nat (count "*" pattern) in
  let top := (Spec.two_largest (Spec.row_counts rows)).1
             + (Spec.two_largest (Spec.row_counts rows)).2 in
  total <= 2 ^ 51 →
  (total = 0 → clustering_check pattern = Ret NoDiamonds)
  ∧ (0 < total → 3 * total < 5 * top →
     ∃ percentage n, clustering_check pattern = Ret (Clustered percentage n))
  ∧ (0 < total → 5 * top <= 3 * total →
     clustering_check pattern = Ret WellDistributed)
  ∧ (0 < total →
     (∃ row, row ∈ rows ∧ Z.of_nat (count "*" row) = total) →
     clustering_check pattern = Ret (Clustered (of_int 100) 1)
     ∧ show (Clustered (of_int 100) 1) = "100% in 1 line(s)").
Proof.
  intros rows total top Htot. unfold clustering_check. cbv zeta. fold rows total.
  pose proof (collect_counts rows) as Hdl.
  pose proof (row_counts_nonneg rows) as Hpos.
  pose proof (sum_row_counts rows) as Hsum.
  unfold rows at 2, lines_of in Hsum.
  rewrite diamonds_split_strip in Hsum. fold total in Hsum.
  destruct (two_largest_bounds _ Hpos) as (Hab & Hmax & Hle). fold top in Hle.
  destruct (collect 0 rows []) as [|d dl] eqn:E.
  - (* no row holds a diamond *)
    symmetry in Hdl. apply (filter_positive_nil _ Hpos) in Hdl.
    split; [done|]. repeat split; intros; lia.
  - (* some row does *)
    set (dls := d :: dl) in *.
    assert (Hdpos : ∀ y, y ∈ dls → 0 <= y.2).
    { intros y Hy. assert (y.2 ∈ dls.*2) as Hy2 by (apply list_elem_of_fmap; eauto).
      rewrite Hdl in Hy2. apply list_elem_of_filter in Hy2. lia. }
    assert (Htop : sum_counts (take 2 (sorted_desc dls)) = top).
    { rewrite sum_take_two, sorted_first_two, Hdl, two_largest_filter by done.
      done. }
    assert (Hd : 0 < d.2 ∧ d.2 ∈ Spec.row_counts rows).
    { assert (d.2 ∈ dls.*2) as Hd by (apply list_elem_of_fmap; exists d; split; [done|left]).
      rewrite Hdl in Hd. by apply list_elem_of_filter in Hd. }
    destruct Hd as [Hd0 Hdin]. specialize (Hmax _ Hdin).
    assert (Ht : 0 < top <= total) by lia.
    rewrite Htop.
    assert (Hav : (0 <? total) = true) by (apply Z.ltb_lt; lia). rewrite Hav.
    unfold truediv. destruct (Z.eqb_spec total 0) as [|_]; [lia|].
    rewrite Z.sgn_pos, Z.mul_1_r, Z.abs_eq by lia. cbn [mbind py_result_bind mret py_result_ret].
    pose proof (percentage_above_60 top total Ht Htot) as Hpct.
    split; [intros; lia|]. split; [|split].
    + intros _ Hcl. apply Hpct in Hcl. rewrite Hcl. eauto.
    + intros _ Hwd. destruct (gt_int _ 60) eqn:Eg; [|done].
      pose proof (proj1 Hpct eq_refl). lia.
    + intros _ (row & Hrow & Hcount).
      assert (Hin : total ∈ Spec.row_counts rows).
      { unfold Spec.row_counts. apply list_elem_of_fmap. eauto. }
      pose proof (proj1 (proj2 (two_largest_bounds _ Hpos)) total Hin) as Hmax'.
      assert (Heq : top = total) by (unfold top in *; lia).
      rewrite Heq. rewrite round_frac_pos by lia.
      rewrite (round53_ratio total total 1 1) by lia.
      assert (Hlen : length (take 2 (sorted_desc dls)) = 1%nat).
      { rewrite length_take, length_sorted_desc.
        rewrite <- (length_fmap snd), Hdl.
        rewrite (one_positive _ total); try done; lia. }
      rewrite Hlen. split; vm_compute; reflexivity.
Qed.

(** The check raises nothing: line 28 divides only by a positive count. *)
Lemma clustering_check_total pattern : ∃ c, clustering_check pattern = Ret c.
Proof.
  unfold clustering_check. cbv zeta.
  destruct (collect 0 (lines_of pattern) []); [eauto|].
  destruct (Z.ltb_spec 0 (Z.of_nat (count "*" pattern))).
  - unfold truediv. destruct (Z.eqb_spec (Z.of_nat (count "*" pattern)) 0); [lia|].
    cbn [mbind py_result_bind mret py_result_ret].
    destruct (gt_int _ 60); eauto.
  - cbn [mbind py_result_bind]. destruct (gt_int _ 60); eauto.
Qed.

Lemma clustering_verdict_witness :
  clustering_check (join_nl ["WWWWW"; "W.PWW"; "W***W"])
  = Ret (Clustered (of_int 100) 1).
Proof.
  apply (clustering_verdict (join_nl ["WWWWW"; "W.PWW"; "W***W"])).
  - vm_compute. discriminate.
  - vm_compute. reflexivity.
  - exists "W***W". split; [|vm_compute; reflexivity].
    vm_compute. right. right. left.
Defined.

End ClusteringFacts.

(** ** redistribute-diamonds.py: the selection and the stamping *)

Module SelectionFacts.
Import PyStr PyStrFacts PyFloat PyFloatFacts Redistribute RedistributeFacts.

(** Lines 31-33 never run out of the candidate list when the indices are in
    range, and select the candidates at the computed indices, in order. *)
Lemma select_spec step (cand : list (nat * nat)) indices : ∀ selected,
  (∀ i, i ∈ indices → 0 <= index_of step i < Z.of_nat (length cand)) →
  select step cand indices selected
  = Ret (selected ++ map (fun i => cand !!! Z.to_nat (index_of step i)) indices)%list.
Proof.
  induction indices as [|i indices IH]; intros selected Hin.
  - simpl. by rewrite app_nil_r.
  - cbn [select map].
    assert (Hi : 0 <= index_of step i < Z.of_nat (length cand)) by (apply Hin; left).
    unfold getitem. destruct (Z.leb_spec 0 (index_of step i)); [|lia].
    destruct (lookup_lt_is_Some_2 cand (Z.to_nat (index_of step i))) as [p Hp];
      [lia|].
    rewrite Hp, (list_lookup_total_correct _ _ _ Hp).
    rewrite IH by (intros; apply Hin; by right).
    by rewrite <- app_assoc.
Qed.

Lemma stamp_line_spec selected y line : ∀ x,
  stamp_line y x line selected
  = string_of_list_ascii
      (imap (fun k c => Spec.stamped_cell selected (x + k) y c)
            (list_ascii_of_string line)).
Proof.
  induction line as [|c line IH]; intros x; [done|].
  cbn [stamp_line list_ascii_of_string]. rewrite imap_cons. simpl.
  rewrite Nat.add_0_r. f_equal. rewrite IH. f_equal.
  apply imap_ext. intros k c' _. simpl. f_equal. lia.
Qed.

Lemma stamp_lines_spec selected lines : ∀ y,
  stamp_lines y lines selected
  = imap (fun k line =>
            string_of_list_ascii
              (imap (fun x c => Spec.stamped_cell selected x (y + k) c)
                    (list_ascii_of_string line))) lines.
Proof.
  induction lines as [|line lines IH]; intros y; [done|].
  cbn [stamp_lines]. rewrite imap_cons, stamp_line_spec, IH. f_equal.
  - f_equal. apply imap_ext. intros x c _. simpl. by rewrite Nat.add_0_r.
  - apply imap_ext. intros k l _. simpl. f_equal.
    apply imap_ext. intros x c _. f_equal. lia.
Qed.

(** Lines 36-42 stamp the selected cells and leave the others alone. *)
Lemma stamp_spec selected lines :
  stamp_lines 0 lines selected = Spec.stamp lines selected.
Proof. apply stamp_lines_spec. Qed.

(** C4 as stated does not hold: thirty candidates and twenty-two diamonds
    make [11 * (30 / 22)] fall just below 15 in floating point, so the twelfth
    diamond goes to candidate 14 where [floor (11 * 30 / 22)] is 15. *)
Lemma exact_spacing_fails :
  let text := ".............................." in
  0 < 22 <= Spec.walkable text
  ∧ (redistribute_cave_diamonds text 22).2
    ≠ Ret (join_nl (Spec.redistribute_with Spec.exact_index (lines_of text) 22))
  ∧ Spec.float_index 30 22 11 = 14
  ∧ Spec.exact_index 30 22 11 = 15.
Proof. vm_compute. repeat split; discriminate. Qed.

(** With enough candidates, and a required count above zero, the call
    prints nothing, raises nothing and returns the grid of the four steps,
    the indices being those computed in floating point. *)
Lemma redistribute_refines text required :
  0 < required <= Spec.walkable text → Spec.walkable text < 2 ^ 25 →
  redistribute_cave_diamonds text required
  = ([], Ret (join_nl (Spec.redistribute_with Spec.float_index
                         (lines_of text) required))).
Proof.
  intros Hreq Hn.
  unfold redistribute_cave_diamonds, Spec.redistribute_with. cbv zeta.
  rewrite valid_positions_spec. unfold Spec.walkable, clean_lines in *.
  set (cand := Spec.candidates _) in *.
  destruct (Z.ltb_spec (Z.of_nat (length cand)) required); [lia|].
  unfold truediv. destruct (Z.eqb_spec required 0); [lia|].
  rewrite Z.sgn_pos, Z.mul_1_r, Z.abs_eq by lia.
  cbn [mbind py_result_bind].
  rewrite select_spec.
  - cbn [mbind py_result_bind app]. rewrite stamp_spec.
    unfold index_of, Spec.float_index. reflexivity.
  - intros i Hi. unfold range in Hi.
    apply list_elem_of_fmap in Hi as (k & -> & Hk). apply elem_of_seq in Hk.
    apply index_bound; lia.
Qed.

(** C4, as the script has it: the diamonds become ['.'], the candidates are
    the ['.'] and [' '] cells in row-major order, the [i]-th diamond goes to
    the candidate at [int(i * (n / required))] computed in floating point,
    and the selected cells are stamped.  That index is
    [floor (i * n / required)], or one less when [i * n / required] is an
    integer; for ten candidates and three diamonds the indices are 0, 3
    and 6. *)
Theorem redistribute_selects text required :
  0 < required <= Spec.walkable text → Spec.walkable text < 2 ^ 25 →
  redistribute_cave_diamonds text required
  = ([], Ret (join_nl (Spec.redistribute_with Spec.float_index
                         (lines_of text) required)))
  ∧ (∀ i, 0 <= i < required →
       0 <= Spec.float_index (Spec.walkable text) required i < Spec.walkable text
       ∧ (Spec.float_index (Spec.walkable text) required i
          = Spec.exact_index (Spec.walkable text) required i
          ∨ (Spec.float_index (Spec.walkable text) required i
             = Spec.exact_index (Spec.walkable text) required i - 1
             ∧ (i * Spec.walkable text) mod required = 0)))
  ∧ map (Spec.float_index 10 3) [0; 1; 2] = [0; 3; 6].
Proof.
  intros Hreq Hn. split; [|split]; [| |vm_compute; reflexivity].
  - by apply redistribute_refines.
  - intros i Hi. split.
    + apply index_bound; lia.
    + apply (index_spec (Spec.walkable text) required i); lia.
Qed.

Lemma redistribute_selects_witness :
  redistribute_cave_diamonds (join_nl ["WWWWW"; "W*P.W"; "W.*.W"; "WW WW"]) 3
  = ([], Ret (join_nl ["WWWWW"; "W*P.W"; "W*.*W"; "WW WW"])).
Proof.
  etrans;
    [apply (redistribute_selects (join_nl ["WWWWW"; "W*P.W"; "W.*.W"; "WW WW"]) 3)|].
  - vm_compute. split; [reflexivity|discriminate].
  - vm_compute. reflexivity.
  - vm_compute. reflexivity.
Defined.

(** *** The count and the shape of the result *)

Lemma split_join_nl rows :
  rows ≠ [] → (∀ l, l ∈ rows → count nl l = 0%nat) →
  split_nl (join_nl rows) = rows.
Proof.
  induction rows as [|l rows IH]; intros Hne Hnl; [done|].
  assert (Hl : count nl l = 0%nat) by (apply Hnl; left).
  destruct rows as [|l' rows].
  - simpl. clear -Hl. induction l as [|c l IHl]; [done|].
    simpl in *. destruct (Ascii.eqb_spec c nl); [done|]. by rewrite IHl.
  - rewrite join_nl_cons.
    specialize (IH ltac:(done) ltac:(intros; apply Hnl; by right)).
    revert IH. generalize (join_nl (l' :: rows)). intros s IH.
    clear -Hl IH. induction l as [|c l IHl].
    + simpl. by rewrite IH.
    + simpl in *. destruct (Ascii.eqb_spec c nl); [done|]. by rewrite IHl.
Qed.

Lemma length_string_of_list l :
  String.length (string_of_list_ascii l) = length l.
Proof. induction l as [|c l IH]; simpl; by rewrite ?IH. Qed.

Lemma length_list_of_string s :
  length (list_ascii_of_string s) = String.length s.
Proof. induction s as [|c s IH]; simpl; by rewrite ?IH. Qed.

Lemma length_replace a b s : String.length (replace a b s) = String.length s.
Proof. induction s as [|c s IH]; simpl; by rewrite ?IH. Qed.

Lemma count_replace_other a b c s :
  c ≠ b → count c (replace a b s) = (if Ascii.eqb a c then 0 else count c s)%nat.
Proof.
  intros Hcb. induction s as [|c0 s IH]; simpl; [by destruct (Ascii.eqb a c)|].
  rewrite IH.
  destruct (Ascii.eqb_spec c0 a) as [->|], (Ascii.eqb_spec a c) as [->|];
    try rewrite Ascii.eqb_refl; try done.
  - by destruct (Ascii.eqb_spec b c); [congruence|].
  - by destruct (Ascii.eqb_spec b c); [congruence|].
  - by destruct (Ascii.eqb_spec c0 c); [congruence|].
Qed.

Lemma shape_imap (g : nat → nat → ascii → ascii) lines :
  Spec.shape (imap (fun y line =>
                      string_of_list_ascii
                        (imap (g y) (list_ascii_of_string line))) lines)
  = Spec.shape lines.
Proof.
  unfold Spec.shape. revert g.
  induction lines as [|l lines IH]; intros g; [done|].
  rewrite imap_cons, !fmap_cons.
  rewrite length_string_of_list, length_imap, length_list_of_string. f_equal.
  apply (IH (fun y => g (S y))).
Qed.

Lemma shape_stamp lines selected :
  Spec.shape (Spec.stamp lines selected) = Spec.shape lines.
Proof.
  apply (shape_imap (fun y x c => Spec.stamped_cell selected x y c)).
Qed.

Lemma shape_clean lines : Spec.shape (clean_lines lines) = Spec.shape lines.
Proof.
  unfold Spec.shape, clean_lines. rewrite <- list_fmap_compose.
  apply list_fmap_ext. intros i l _. apply length_replace.
Qed.

Lemma count_list_of_string c s :
  count c s = length (filter (fun c' => c' = c) (list_ascii_of_string s)).
Proof.
  induction s as [|c0 s IH]; [done|]. simpl. rewrite filter_cons, IH.
  destruct (Ascii.eqb_spec c0 c), (decide (c0 = c)); done.
Qed.

(** A stamped row has as many diamonds as it has selected cells, when it
    had none before. *)
Lemma count_stamped_row selected y l : ∀ x0,
  (∀ c, c ∈ l → c ≠ "*"%char) →
  count "*" (string_of_list_ascii
               (imap (fun x c => Spec.stamped_cell selected (x0 + x) y c) l))
  = length (filter (fun x => (x, y) ∈ selected) (seq x0 (length l))).
Proof.
  induction l as [|c l IH]; intros x0 Hl; [done|].
  rewrite imap_cons. cbn [string_of_list_ascii count length seq].
  rewrite filter_cons, Nat.add_0_r.
  assert (Hext : imap ((fun x c0 => Spec.stamped_cell selected (x0 + x) y c0) ∘ S) l
                 = imap (fun x c0 => Spec.stamped_cell selected (S x0 + x) y c0) l).
  { apply imap_ext. intros x c0 _. simpl. f_equal. lia. }
  rewrite Hext, IH by (intros; apply Hl; by right).
  unfold Spec.stamped_cell.
  destruct (decide ((x0, y) ∈ selected)) as [Hin|Hin].
  - rewrite bool_decide_true by done. done.
  - rewrite bool_decide_false by done.
    assert (c ≠ "*"%char) by (apply Hl; left).
    by destruct (Ascii.eqb_spec c "*").
Qed.

(** A stamped grid has as many diamonds as it has selected cells, when it
    had none before. *)
Lemma diamonds_stamped selected lines : ∀ y0,
  (∀ l, l ∈ lines → count "*" l = 0%nat) →
  Spec.diamonds
    (imap (fun k line =>
             string_of_list_ascii
               (imap (fun x c => Spec.stamped_cell selected x (y0 + k) c)
                     (list_ascii_of_string line))) lines)
  = length (filter (fun p => p ∈ selected)
              (concat (imap (fun k line =>
                               map (fun x => (x, (y0 + k)%nat))
                                   (seq 0 (String.length line))) lines))).
Proof.
  induction lines as [|l lines IH]; intros y0 Hl; [done|].
  rewrite !imap_cons, concat_cons, filter_app, length_app.
  assert (E1 : imap ((fun k line =>
                        string_of_list_ascii
                          (imap (fun x c => Spec.stamped_cell selected x (y0 + k) c)
                                (list_ascii_of_string line))) ∘ S) lines
               = imap (fun k line =>
                         string_of_list_ascii
                           (imap (fun x c => Spec.stamped_cell selected x (S y0 + k) c)
                                 (list_ascii_of_string line))) lines).
  { apply imap_ext. intros k line _. simpl. f_equal.
    apply imap_ext. intros x c _. f_equal. lia. }
  assert (E2 : imap ((fun k line => map (fun x => (x, (y0 + k)%nat))
                                        (seq 0 (String.length line))) ∘ S) lines
               = imap (fun k line => map (fun x => (x, (S y0 + k)%nat))
                                         (seq 0 (String.length line))) lines).
  { apply imap_ext. intros k line _. simpl.
    apply list_fmap_ext. intros i x _. f_equal. lia. }
  rewrite E1, E2. unfold Spec.diamonds in *. cbn [foldr].
  rewrite (IH (S y0)) by (intros; apply Hl; by right). f_equal.
  rewrite filter_fmap_list, length_map, Nat.add_0_r.
  rewrite <- length_list_of_string.
  rewrite <- (count_stamped_row selected y0 (list_ascii_of_string l) 0); [done|].
  intros c Hc ->.
  assert (H0 : count "*" l = 0%nat) by (apply Hl; left).
  rewrite count_list_of_string in H0.
  assert (Hin : "*"%char ∈ filter (fun c' => c' = "*"%char) (list_ascii_of_string l))
    by (by apply list_elem_of_filter).
  destruct (filter _ _); [inversion Hin|done].
Qed.

Lemma NoDup_rows (f : nat → string → list (nat * nat)) lines : ∀ y0,
  (∀ y l, NoDup (f y l)) → (∀ y l p, p ∈ f y l → p.2 = (y0 + y)%nat) →
  NoDup (concat (imap f lines)).
Proof.
  revert f. induction lines as [|l lines IH]; intros f y0 Hnd Hrow.
  - constructor.
  - rewrite imap_cons, concat_cons. apply NoDup_app. split; [apply Hnd|]. split.
    + intros p Hp Hq. apply Hrow in Hp.
      apply ScanFacts.elem_of_concat in Hq as (l' & Hq & Hl').
      apply elem_of_lookup_imap in Hl' as (k & l0 & -> & _).
      apply Hrow in Hq. lia.
    + apply (IH _ (S y0)); [intros; apply Hnd|].
      intros y l0 p Hp. apply Hrow in Hp. lia.
Qed.

Lemma NoDup_cells_of lines : NoDup (Spec.cells_of lines).
Proof.
  apply (NoDup_rows _ _ 0%nat).
  - intros y l. apply NoDup_fmap_2; [|apply NoDup_seq].
    intros x1 x2 Heq. by injection Heq.
  - intros y l p (x & -> & _)%list_elem_of_fmap. done.
Qed.

Lemma NoDup_candidates lines : NoDup (Spec.candidates lines).
Proof.
  apply (NoDup_rows _ _ 0%nat).
  - intros y l. apply NoDup_fmap_2; [|apply NoDup_filter, NoDup_seq].
    intros x1 x2 Heq. by injection Heq.
  - intros y l p (x & -> & _)%list_elem_of_fmap. done.
Qed.

Lemma candidates_cells lines p :
  p ∈ Spec.candidates lines → p ∈ Spec.cells_of lines.
Proof.
  unfold Spec.candidates, Spec.cells_of. rewrite !ScanFacts.elem_of_concat.
  intros (l & Hp & Hl). apply elem_of_lookup_imap in Hl as (y & line & -> & Hy).
  eexists. split; [|apply elem_of_lookup_imap; eauto].
  unfold Spec.row_candidates in Hp.
  apply list_elem_of_fmap in Hp as (x & -> & Hx).
  apply list_elem_of_filter in Hx as [_ Hx].
  apply list_elem_of_fmap. eauto.
Qed.

(** Selected cells that are cells of the grid, each once, are counted
    once. *)
Lemma length_filter_selected (cells selected : list (nat * nat)) :
  NoDup cells → NoDup selected → (∀ p, p ∈ selected → p ∈ cells) →
  length (filter (fun p => p ∈ selected) cells) = length selected.
Proof.
  intros Hc Hs Hin. apply Permutation_length, NoDup_Permutation.
  - by apply NoDup_filter.
  - done.
  - intros p. rewrite list_elem_of_filter. split; [tauto|]. auto.
Qed.

Lemma count_nl_imap (g : nat → ascii → ascii) l :
  (∀ x c, g x c = "*"%char ∨ g x c = c) →
  (count nl (string_of_list_ascii (imap g l))
   ≤ count nl (string_of_list_ascii l))%nat.
Proof.
  revert g. induction l as [|c l IH]; intros g Hg; [done|].
  rewrite imap_cons. cbn [string_of_list_ascii count].
  specialize (IH (g ∘ S) ltac:(intros; apply Hg)).
  destruct (Hg 0%nat c) as [-> | ->].
  - simpl. lia.
  - lia.
Qed.

Lemma stamp_no_nl lines selected l :
  (∀ l, l ∈ lines → count nl l = 0%nat) →
  l ∈ Spec.stamp lines selected → count nl l = 0%nat.
Proof.
  intros Hl Hin.
  apply elem_of_lookup_imap in Hin as (y & line & -> & Hy).
  assert (H0 : count nl line = 0%nat)
    by (apply Hl; by apply list_elem_of_lookup_2 in Hy).
  pose proof (count_nl_imap
    (fun x c => Spec.stamped_cell selected x y c) (list_ascii_of_string line)) as Hle.
  rewrite string_of_list_ascii_of_string in Hle.
  assert (∀ x c, Spec.stamped_cell selected x y c = "*"%char
                 ∨ Spec.stamped_cell selected x y c = c) as Hg.
  { intros x c. unfold Spec.stamped_cell. destruct (bool_decide _); auto. }
  specialize (Hle Hg). lia.
Qed.

Lemma NoDup_range required : NoDup (range required).
Proof.
  unfold range. apply NoDup_fmap_2; [|apply NoDup_seq].
  intros a b. apply Nat2Z.inj.
Qed.

Lemma elem_of_range required i : i ∈ range required ↔ 0 <= i < required.
Proof.
  unfold range. rewrite list_elem_of_fmap. split.
  - intros (k & -> & Hk). apply elem_of_seq in Hk. lia.
  - intros Hi. exists (Z.to_nat i). split; [lia|]. apply elem_of_seq. lia.
Qed.

(** What C1 says holds for every required count other than zero: with
    [0 < required <= walkable], the call returns a pattern whose rows have
    the lengths of the rows of the input and hold exactly [required]
    diamonds. *)
Lemma redistribute_count_and_shape text required :
  0 < required <= Spec.walkable text → Spec.walkable text < 2 ^ 25 →
  ∃ out, redistribute_cave_diamonds text required = ([], Ret out)
    ∧ Z.of_nat (Spec.diamonds (split_nl out)) = required
    ∧ Spec.shape (split_nl out) = Spec.shape (lines_of text).
Proof.
  intros Hreq Hn. rewrite (redistribute_refines text required Hreq Hn).
  assert (Hidx : ∀ i, 0 <= i < required →
            0 <= Spec.float_index (Spec.walkable text) required i
            < Spec.walkable text)
    by (intros; apply index_bound; lia).
  eexists. split; [done|].
  unfold Spec.redistribute_with. cbv zeta. fold (clean_lines (lines_of text)).
  unfold Spec.walkable in *.
  set (cl := clean_lines (lines_of text)) in *.
  set (cand := Spec.candidates cl) in *.
  set (sel := map _ (range required)).
  assert (Hnl : ∀ l, l ∈ cl → count nl l = 0%nat).
  { intros l (l0 & -> & Hl0)%list_elem_of_fmap.
    rewrite count_replace_other by done. simpl. by apply split_nl_no_nl in Hl0. }
  assert (Hstar : ∀ l, l ∈ cl → count "*" l = 0%nat).
  { intros l (l0 & -> & Hl0)%list_elem_of_fmap.
    by rewrite count_replace_other. }
  assert (Hshape : Spec.shape (Spec.stamp cl sel) = Spec.shape (lines_of text))
    by (rewrite shape_stamp; apply shape_clean).
  rewrite split_join_nl.
  2:{ intros Hnil. rewrite Hnil in Hshape. symmetry in Hshape.
      apply fmap_nil_inv in Hshape. by apply split_nl_nonempty in Hshape. }
  2:{ intros l. by apply stamp_no_nl. }
  split; [|done].
  pose proof (diamonds_stamped sel cl 0 Hstar) as Hd. cbn [Nat.add] in Hd.
  fold (Spec.stamp cl sel) in Hd. fold (Spec.cells_of cl) in Hd. rewrite Hd.
  assert (Hlook : ∀ i, i ∈ range required →
            cand !! Z.to_nat (Spec.float_index (Z.of_nat (length cand)) required i)
            = Some (cand !!! Z.to_nat (Spec.float_index (Z.of_nat (length cand)) required i))).
  { intros i Hi%elem_of_range. apply list_lookup_lookup_total_lt.
    specialize (Hidx i Hi). lia. }
  rewrite length_filter_selected.
  - unfold sel, range. rewrite !length_map, length_seq. lia.
  - apply NoDup_cells_of.
  - unfold sel. apply NoDup_fmap_2_strong; [|apply NoDup_range].
    intros i j Hi Hj Heq.
    pose proof (Hlook i Hi) as Li. pose proof (Hlook j Hj) as Lj.
    rewrite Heq in Li.
    pose proof (NoDup_lookup _ _ _ _ (NoDup_candidates cl) Li Lj) as Hk.
    apply elem_of_range in Hi, Hj.
    pose proof (Hidx i Hi). pose proof (Hidx j Hj).
    destruct (Z.lt_trichotomy i j) as [Hlt|[->|Hgt]]; [|done|].
    + pose proof (index_lt (Z.of_nat (length cand)) required i j
                    ltac:(lia) Hn ltac:(lia) ltac:(lia)) as Hlt'.
      unfold Spec.float_index in *. lia.
    + pose proof (index_lt (Z.of_nat (length cand)) required j i
                    ltac:(lia) Hn ltac:(lia) ltac:(lia)) as Hlt'.
      unfold Spec.float_index in *. lia.
  - intros p (i & -> & Hi)%list_elem_of_fmap.
    apply candidates_cells. apply list_elem_of_lookup. eauto.
Qed.

End SelectionFacts.

(** ** check-sealed-diamonds.py: the whole report *)

Module SealedReportFacts.
Import PyStr Grid GridFacts Sealed SealedFacts ScanFacts.

Lemma sealed_test lines x y :
  (Ascii.eqb (Spec.cell_at lines x (y - 1)) "W"
   && Ascii.eqb (Spec.cell_at lines x (y + 1)) "W"
   && Ascii.eqb (Spec.cell_at lines (x - 1) y) "W"
   && Ascii.eqb (Spec.cell_at lines (x + 1) y) "W")%bool
  = bool_decide (Spec.fully_sealed lines x y).
Proof.
  unfold Spec.fully_sealed.
  destruct (Ascii.eqb_spec (Spec.cell_at lines x (y - 1)) "W"),
           (Ascii.eqb_spec (Spec.cell_at lines x (y + 1)) "W"),
           (Ascii.eqb_spec (Spec.cell_at lines (x - 1) y) "W"),
           (Ascii.eqb_spec (Spec.cell_at lines (x + 1) y) "W"); simpl;
    (rewrite bool_decide_true by done) || (rewrite bool_decide_false by tauto);
    done.
Qed.

(** What lines 24-46 add for the diamond at [(x, y)]. *)
Lemma inspect_exact lines line x y issues :
  lines !! Z.to_nat y = Some line → 0 ≤ y → 0 ≤ x < len line →
  inspect lines line x y issues
  = Ret (issues ++ Spec.issues_at lines (x, y))%list.
Proof.
  intros Hl Hy Hx. unfold inspect, Spec.issues_at. cbn [fst snd].
  destruct (Z.ltb_spec 0 y), (Z.ltb_spec y (Z.of_nat (length lines) - 1));
    simpl; try (rewrite bool_decide_false by lia; by rewrite app_nil_r).
  rewrite bool_decide_true by lia.
  rewrite above_spec, below_spec by lia. simpl.
  rewrite (left_spec lines line x y), (right_spec lines line x y) by (done || lia).
  simpl. rewrite sealed_test, sealed_count_spec.
  destruct (bool_decide (Spec.fully_sealed lines x y));
    destruct (Z.leb_spec 7 (Spec.walls_inside lines x y));
    (rewrite bool_decide_true by lia) || (rewrite bool_decide_false by lia);
    simpl; by rewrite <- ?app_assoc, ?app_nil_r.
Qed.

Lemma check_line_exact lines line y :
  lines !! Z.to_nat y = Some line → 0 ≤ y →
  ∀ rest x issues, 0 ≤ x →
    (∀ k, String.get k rest = String.get (Z.to_nat x + k) line) →
    check_line lines line y x rest issues
    = Ret (issues ++
           ((fun k => (x + Z.of_nat k, y))
              <$> filter (fun k => String.get k rest = Some "*"%char)
                         (seq 0 (String.length rest)))
           ≫= Spec.issues_at lines)%list.
Proof.
  intros Hl Hy. induction rest as [|c rest IH]; intros x issues Hx Hsuf.
  - simpl. by rewrite app_nil_r.
  - assert (Hc : String.get (Z.to_nat x) line = Some c).
    { rewrite <- (Nat.add_0_r (Z.to_nat x)), <- Hsuf. done. }
    assert (Hxl : 0 ≤ x < len line).
    { apply get_lt in Hc. unfold len. lia. }
    assert (Hsuf' : ∀ k, String.get k rest = String.get (Z.to_nat (x + 1) + k) line).
    { intros k. replace (Z.to_nat (x + 1) + k)%nat with (Z.to_nat x + S k)%nat by lia.
      rewrite <- Hsuf. done. }
    cbn [check_line String.length].
    rewrite <- cons_seq, <- fmap_S_seq, filter_cons,
      RedistributeFacts.filter_fmap_list.
    cbn [String.get].
    assert (Hmap : (fun k => (x + Z.of_nat k, y)) <$> (S <$>
                filter (fun a => String.get a rest = Some "*"%char)
                       (seq 0 (String.length rest)))
             = (fun k => (x + 1 + Z.of_nat k, y)) <$>
                filter (fun a => String.get a rest = Some "*"%char)
                       (seq 0 (String.length rest))).
    { rewrite <- list_fmap_compose. apply list_fmap_ext.
      intros i k _. simpl. f_equal. lia. }
    destruct (Ascii.eqb_spec c "*") as [->|Hne].
    + rewrite decide_True by done. rewrite fmap_cons, bind_cons, Hmap.
      rewrite (inspect_exact lines line x y issues Hl Hy Hxl).
      cbn [mbind py_result_bind].
      rewrite IH by (done || lia).
      rewrite Z.add_0_r, <- app_assoc. done.
    + rewrite decide_False by congruence. rewrite Hmap.
      cbn [mbind py_result_bind]. by rewrite IH by (done || lia).
Qed.

Lemma check_lines_exact lines :
  ∀ rows y issues,
    (∀ k, rows !! k = lines !! (y + k)%nat) →
    check_lines lines (Z.of_nat y) rows issues
    = Ret (issues ++
           concat (imap (fun k => Spec.row_positions "*" (y + k)) rows)
           ≫= Spec.issues_at lines)%list.
Proof.
  induction rows as [|line rows IH]; intros y issues Hsuf.
  - simpl. by rewrite app_nil_r.
  - assert (Hl : lines !! y = Some line).
    { rewrite <- (Nat.add_0_r y), <- Hsuf. done. }
    cbn [check_lines].
    rewrite (check_line_exact lines line (Z.of_nat y)); try lia; try done.
    2:{ by rewrite Nat2Z.id. }
    simpl. replace (Z.of_nat y + 1) with (Z.of_nat (S y)) by lia.
    rewrite IH.
    2:{ intros k. replace (S y + k)%nat with (y + S k)%nat by lia.
        rewrite <- Hsuf. done. }
    rewrite <- app_assoc, <- bind_app. do 3 f_equal.
    f_equal.
    + unfold Spec.row_positions. rewrite Nat.add_0_r. apply list_fmap_ext.
      intros i k _. f_equal.
    + f_equal. apply imap_ext. intros k l _. simpl. do 2 f_equal. lia.
Qed.

Lemma check_sealed_exact pattern_text cave_name :
  check_sealed_diamonds pattern_text cave_name
  = Ret (Spec.positions "*" (lines_of pattern_text)
         ≫= Spec.issues_at (lines_of pattern_text)).
Proof.
  unfold check_sealed_diamonds.
  pose proof (check_lines_exact (lines_of pattern_text) (lines_of pattern_text)
                0%nat [] ltac:(done)) as H.
  change (Z.of_nat 0) with 0 in H. cbn [Nat.add app] in H. fold (Spec.positions "*" (lines_of pattern_text)) in H.
  rewrite H. by destruct (lines_of pattern_text).
Qed.


Lemma bind_nil_iff {A B} (f : A → list B) (l : list A) :
  l ≫= f = [] ↔ ∀ a, a ∈ l → f a = [].
Proof.
  induction l as [|a l IH]; [split; [intros _ a Ha; inversion Ha|done]|].
  rewrite bind_cons. split.
  - intros [Ha Hl]%app_eq_nil a' [->|Hin]%elem_of_cons; [done|].
    by apply IH.
  - intros H. rewrite (H a) by left. apply IH. intros a' Ha'. apply H. by right.
Qed.

Lemma issues_at_nil lines p :
  Spec.issues_at lines p = []
  ↔ (0 < p.2 < Z.of_nat (length lines) - 1 →
     ¬ Spec.fully_sealed lines p.1 p.2 ∧ Spec.walls_inside lines p.1 p.2 < 7).
Proof.
  unfold Spec.issues_at.
  destruct (bool_decide_reflect (0 < p.2 < Z.of_nat (length lines) - 1));
    [|split; [tauto|done]].
  destruct (bool_decide_reflect (Spec.fully_sealed lines p.1 p.2)),
           (bool_decide_reflect (7 <= Spec.walls_inside lines p.1 p.2));
    simpl; split; try done; try tauto; try (intros H; split; [tauto|lia]);
    intros H; destruct (H ltac:(done)); (done || lia).
Qed.

(** X1: The issues are those of the diamonds of the grid, diamond by diamond
    in row-major order; for each diamond outside the first and the last row
    the "sealed" message when its four orthogonal neighbours are Wall, then
    the "heavily walled" message when at least seven of the surrounding
    cells of the grid are Wall. Nothing is raised, whatever the lengths of
    the rows. *)
Theorem sealed_report_in_row_major_order pattern_text cave_name :
  check_sealed_diamonds pattern_text cave_name
  = Ret (Spec.positions "*" (lines_of pattern_text)
         ≫= Spec.issues_at (lines_of pattern_text)).
Proof. apply check_sealed_exact. Qed.

(** X2: Every issue reported is justified: it is the "sealed" message of a
    diamond with Wall on its four sides, or the "heavily walled" message of a
    diamond with at least seven Wall cells of the grid around it, and the
    diamond lies below the first row and above the last. *)
Theorem sealed_issues_are_justified pattern_text cave_name issues issue :
  check_sealed_diamonds pattern_text cave_name = Ret issues →
  issue ∈ issues →
  ∃ x y, Spec.cell (lines_of pattern_text) x y = Some "*"%char
    ∧ 0 < y < Z.of_nat (length (lines_of pattern_text)) - 1
    ∧ ((issue = sealed_issue x y
        ∧ Spec.fully_sealed (lines_of pattern_text) x y)
       ∨ (issue = walled_issue x y
          ∧ 7 <= Spec.walls_inside (lines_of pattern_text) x y)).
Proof.
  rewrite check_sealed_exact. intros [= <-] Hin.
  apply list_elem_of_bind in Hin as ([x y] & Hissue & Hp).
  apply elem_of_positions in Hp. exists x, y. split; [done|].
  unfold Spec.issues_at in Hissue. cbn [fst snd] in *.
  destruct (bool_decide_reflect (0 < y < Z.of_nat (length (lines_of pattern_text)) - 1));
    [|inversion Hissue].
  split; [done|].
  apply elem_of_app in Hissue as [Hi|Hi].
  - destruct (bool_decide_reflect (Spec.fully_sealed (lines_of pattern_text) x y));
      [|inversion Hi].
    apply list_elem_of_singleton in Hi. by left.
  - destruct (bool_decide_reflect (7 <= Spec.walls_inside (lines_of pattern_text) x y));
      [|inversion Hi].
    apply list_elem_of_singleton in Hi. by right.
Qed.

Lemma sealed_issues_are_justified_witness :
  ∃ x y,
    Spec.cell (lines_of (join_nl ["WWWWW"; "W.PWW"; "W.W*W"; "WWWWW"])) x y
    = Some "*"%char
    ∧ 0 < y < Z.of_nat (length (lines_of (join_nl ["WWWWW"; "W.PWW"; "W.W*W"; "WWWWW"]))) - 1
    ∧ (("Diamond at (3,2) in heavily walled area" = sealed_issue x y
        ∧ Spec.fully_sealed (lines_of (join_nl ["WWWWW"; "W.PWW"; "W.W*W"; "WWWWW"])) x y)
       ∨ ("Diamond at (3,2) in heavily walled area" = walled_issue x y
          ∧ 7 <= Spec.walls_inside
                   (lines_of (join_nl ["WWWWW"; "W.PWW"; "W.W*W"; "WWWWW"])) x y)).
Proof.
  apply (sealed_issues_are_justified
           (join_nl ["WWWWW"; "W.PWW"; "W.W*W"; "WWWWW"]) ""
           ["Diamond at (3,2) completely sealed by walls";
            "Diamond at (3,2) in heavily walled area"]).
  - vm_compute. reflexivity.
  - apply elem_of_cons. right. apply elem_of_cons. left. reflexivity.
Defined.

(** X3: The report is empty exactly when no diamond between the first and the
    last row is sealed on its four sides or has seven Wall cells around it. *)
Theorem no_issue_iff_nothing_to_flag pattern_text cave_name :
  check_sealed_diamonds pattern_text cave_name = Ret []
  ↔ (∀ x y, Spec.cell (lines_of pattern_text) x y = Some "*"%char →
            0 < y < Z.of_nat (length (lines_of pattern_text)) - 1 →
            ¬ Spec.fully_sealed (lines_of pattern_text) x y
            ∧ Spec.walls_inside (lines_of pattern_text) x y < 7).
Proof.
  rewrite check_sealed_exact. split.
  - intros [= H] x y Hc Hy.
    apply (proj1 (bind_nil_iff _ _)) with (a := (x, y)) in H.
    + by apply issues_at_nil in H.
    + by apply elem_of_positions.
  - intros H. f_equal. apply bind_nil_iff. intros [x y] Hp.
    apply issues_at_nil. intros Hy. apply H; [|done].
    by apply elem_of_positions in Hp.
Qed.

Lemma no_issue_iff_nothing_to_flag_witness :
  ¬ Spec.fully_sealed (lines_of (join_nl ["WWWWW"; "W*..W"; "W.P.W"; "WWWWW"])) 1 1
  ∧ Spec.walls_inside (lines_of (join_nl ["WWWWW"; "W*..W"; "W.P.W"; "WWWWW"])) 1 1 < 7.
Proof.
  apply (proj1 (no_issue_iff_nothing_to_flag
                  (join_nl ["WWWWW"; "W*..W"; "W.P.W"; "WWWWW"]) "")).
  - vm_compute. reflexivity.
  - vm_compute. reflexivity.
  - vm_compute. split; reflexivity.
Defined.

(** X4: A grid of one or two rows is never flagged: every diamond is in the
    first or in the last row, which the check leaves out; a diamond walled in
    on all sides of such a grid goes unreported. *)
Theorem short_grid_is_never_flagged pattern_text cave_name :
  (length (lines_of pattern_text) ≤ 2)%nat →
  check_sealed_diamonds pattern_text cave_name = Ret [].
Proof.
  intros Hlen. rewrite check_sealed_exact. f_equal.
  apply bind_nil_iff. intros p _. apply issues_at_nil. lia.
Qed.

Lemma short_grid_is_never_flagged_witness :
  check_sealed_diamonds (join_nl ["W*W"; "WWW"]) "" = Ret [].
Proof.
  apply (short_grid_is_never_flagged (join_nl ["W*W"; "WWW"]) "").
  vm_compute. lia.
Defined.

End SealedReportFacts.

(** ** verify-accessibility.py: several players, the counts and the report *)

Module FloodReportFacts.
Import PyStr Grid GridFacts Accessibility ScanFacts FloodFacts AccessibilityReport.

(** The scan of one row keeps the last ['P'] it meets. *)
Lemma find_in_line_player y rest : ∀ x pp (D : gset (Z * Z)),
  (find_in_line y x rest (pp, D)).1
  = match last ((fun k => (x + Z.of_nat k, y))
                  <$> filter (fun k => String.get k rest = Some "P"%char)
                             (seq 0 (String.length rest))) with
    | Some p => Some p
    | None => pp
    end.
Proof.
  induction rest as [|c rest IH]; intros x pp D; [done|].
  cbn [find_in_line String.length].
  rewrite <- cons_seq, <- fmap_S_seq, filter_cons,
    RedistributeFacts.filter_fmap_list.
  cbn [String.get].
  assert (Hmap : (fun k => (x + Z.of_nat k, y)) <$> (S <$>
              filter (fun a => String.get a rest = Some "P"%char)
                     (seq 0 (String.length rest)))
           = (fun k => (x + 1 + Z.of_nat k, y)) <$>
              filter (fun a => String.get a rest = Some "P"%char)
                     (seq 0 (String.length rest))).
  { rewrite <- list_fmap_compose. apply list_fmap_ext.
    intros i k _. simpl. f_equal. lia. }
  destruct (Ascii.eqb_spec c "P") as [->|HP].
  - rewrite decide_True by done. rewrite IH, fmap_cons, last_cons, Hmap.
    rewrite Z.add_0_r. by destruct (last _).
  - rewrite decide_False by congruence. rewrite Hmap.
    destruct (Ascii.eqb c "*"); by rewrite IH.
Qed.

(** The scan of the rows keeps the last ['P'] in row-major order. *)
Lemma find_in_lines_player rows : ∀ y pp (D : gset (Z * Z)),
  (find_in_lines (Z.of_nat y) rows (pp, D)).1
  = match last (concat (imap (fun k => Spec.row_positions "P" (y + k)) rows)) with
    | Some p => Some p
    | None => pp
    end.
Proof.
  induction rows as [|line rows IH]; intros y pp D; [done|].
  cbn [find_in_lines].
  pose proof (find_in_line_player (Z.of_nat y) line 0 pp D) as Hl.
  destruct (find_in_line (Z.of_nat y) 0 line (pp, D)) as [pp1 D1].
  cbn [fst] in Hl. replace (Z.of_nat y + 1) with (Z.of_nat (S y)) by lia.
  rewrite IH, imap_cons, concat_cons, last_app.
  assert (Hext : imap ((fun k => Spec.row_positions "P" (y + k)) ∘ S) rows
                 = imap (fun k => Spec.row_positions "P" (S y + k)) rows).
  { apply imap_ext. intros k l _. simpl. f_equal. lia. }
  rewrite Hext. destruct (last (concat _)); [done|].
  rewrite Hl. unfold Spec.row_positions. rewrite Nat.add_0_r.
  assert (Hm : (fun k => (0 + Z.of_nat k, Z.of_nat y))
               <$> filter (fun k => String.get k line = Some "P"%char)
                          (seq 0 (String.length line))
               = map (fun x => (Z.of_nat x, Z.of_nat y))
                     (filter (fun x => String.get x line = Some "P"%char)
                             (seq 0 (String.length line)))).
  { apply list_fmap_ext. intros i k _. f_equal. }
  by rewrite Hm.
Qed.

(** Lines 19-22: the player found is the last ['P'] cell of the grid in
    row-major order. *)
Lemma find_last_player lines :
  (find_in_lines 0 lines (None, ∅)).1 = last (Spec.positions "P" lines).
Proof.
  pose proof (find_in_lines_player lines 0%nat None ∅) as H.
  change (Z.of_nat 0) with 0 in H. cbn [Nat.add] in H.
  fold (Spec.positions "P" lines) in H. rewrite H.
  by destruct (last _).
Qed.

(** The three ways through [flood_fill_check]: no row at all; rows and no
    player; a player, the last in row-major order when there are several. *)
Lemma flood_fill_cases text :
  let lines := nonempty_lines text in
  ∃ D : gset (Z * Z),
    (∀ p, p ∈ D ↔ Spec.is_diamond lines p)
    ∧ size D = Spec.diamonds lines
    ∧ (lines = [] → flood_fill_check text = Some (true, 0, 0))
    ∧ (lines ≠ [] → Spec.positions "P" lines = [] →
       flood_fill_check text = Some (false, 0, Z.of_nat (size D)))
    ∧ (∀ start, last (Spec.positions "P" lines) = Some start →
       ∃ R : gset (Z * Z),
         (∀ p, p ∈ R ↔ Spec.reachable lines start p ∧ p ∈ D)
         ∧ flood_fill_check text
           = Some (Z.of_nat (size D) - Z.of_nat (size R) =? 0,
                   Z.of_nat (size R),
                   Z.of_nat (size D) - Z.of_nat (size R))).
Proof.
  cbn zeta. unfold flood_fill_check.
  destruct (find_spec (nonempty_lines text)) as (Hdia & Hsize & Hnone & Hsome).
  pose proof (find_last_player (nonempty_lines text)) as Hlast.
  destruct (find_in_lines 0 (nonempty_lines text) (None, ∅)) as [pp D] eqn:Es.
  cbn [fst snd] in *. exists D. split; [done|]. split; [done|].
  split; [by intros ->|]. split.
  - intros Hne Hno. destruct (nonempty_lines text) as [|l ls]; [done|].
    rewrite Hno in Hlast. by rewrite Hlast.
  - intros start Hst. rewrite Hst in Hlast. subst pp.
    destruct (nonempty_lines text) as [|l ls] eqn:E; [done|].
    set (lines := l :: ls) in *.
    destruct (flood_from_cell lines D start) as (st & -> & Hinv & HQ).
    { apply elem_of_all_cells. exists "P"%char. apply elem_of_positions.
      by apply Hsome. }
    exists (reachable_diamonds st). split; [|done].
    intros p. rewrite (Spec.inv_diamonds _ _ _ _ Hinv), HQ. split.
    + intros (Hv & _ & Hd). split; [|done].
      by apply (Spec.inv_sound _ _ _ _ Hinv).
    + intros (Hr & Hd). split; [|split; [apply not_elem_of_nil|done]].
      by apply (visited_complete lines start D).
Qed.


(** X5: The flood fill ends for every pattern, within as many turns of its
    loop as the grid has cells, and returns its three values: each cell enters
    the queue once at most. *)
Theorem flood_fill_always_ends text :
  ∃ all_accessible reachable unreachable,
    flood_fill_check text = Some (all_accessible, reachable, unreachable).
Proof.
  destruct (flood_fill_check_total text) as ([[a r] u] & H). eauto.
Qed.

(** X6: With several player cells the flood fill starts from the last one in
    row-major order: the diamonds it counts as reachable are those a walk from
    that cell gets to, the other player cells being cells to walk over. *)
Theorem flood_starts_at_last_player text start :
  last (Spec.positions "P" (nonempty_lines text)) = Some start →
  ∃ R : gset (Z * Z),
    (∀ p, p ∈ R ↔ Spec.reachable (nonempty_lines text) start p
                  ∧ Spec.is_diamond (nonempty_lines text) p)
    ∧ flood_fill_check text
      = Some (Z.of_nat (Spec.diamonds (nonempty_lines text)) - Z.of_nat (size R) =? 0,
              Z.of_nat (size R),
              Z.of_nat (Spec.diamonds (nonempty_lines text)) - Z.of_nat (size R)).
Proof.
  intros Hst.
  destruct (flood_fill_cases text) as (D & HD & Hsz & _ & _ & Hplayer).
  destruct (Hplayer start Hst) as (R & HR & Hres).
  exists R. split.
  - intros p. by rewrite HR, HD.
  - by rewrite <- Hsz.
Qed.

Lemma flood_starts_at_last_player_witness :
  ∃ R : gset (Z * Z),
    (∀ p, p ∈ R
          ↔ Spec.reachable (nonempty_lines (join_nl ["WP*W"; "WWWW"; "W*PW"])) (2, 2) p
            ∧ Spec.is_diamond (nonempty_lines (join_nl ["WP*W"; "WWWW"; "W*PW"])) p)
    ∧ flood_fill_check (join_nl ["WP*W"; "WWWW"; "W*PW"])
      = Some (Z.of_nat (Spec.diamonds (nonempty_lines (join_nl ["WP*W"; "WWWW"; "W*PW"])))
              - Z.of_nat (size R) =? 0,
              Z.of_nat (size R),
              Z.of_nat (Spec.diamonds (nonempty_lines (join_nl ["WP*W"; "WWWW"; "W*PW"])))
              - Z.of_nat (size R)).
Proof.
  apply (flood_starts_at_last_player (join_nl ["WP*W"; "WWWW"; "W*PW"]) (2, 2)).
  vm_compute. reflexivity.
Defined.

(** X7: The two counts of the result are not negative and add up to the number
    of diamonds of the grid. The first component is true exactly when no
    diamond is unreachable and the grid has a player or has no row at all:
    rows without a player give false even when there is no diamond. *)
Theorem flood_counts_add_up text all_accessible reachable unreachable :
  flood_fill_check text = Some (all_accessible, reachable, unreachable) →
  0 <= reachable ∧ 0 <= unreachable
  ∧ reachable + unreachable = Z.of_nat (Spec.diamonds (nonempty_lines text))
  ∧ (all_accessible = true
     ↔ unreachable = 0
       ∧ (nonempty_lines text = []
          ∨ Spec.positions "P" (nonempty_lines text) ≠ [])).
Proof.
  intros Hres.
  destruct (flood_fill_cases text) as (D & HD & Hsz & Hempty & Hnone & Hplayer).
  destruct (nonempty_lines text) as [|l ls] eqn:E.
  - rewrite Hempty in Hres by done. injection Hres as <- <- <-.
    repeat split; auto; lia.
  - destruct (last (Spec.positions "P" (l :: ls))) as [start|] eqn:El.
    + destruct (Hplayer start eq_refl) as (R & HR & Hres').
      rewrite Hres' in Hres. injection Hres as <- <- <-.
      assert (Hsub : R ⊆ D) by (intros p Hp; by apply HR in Hp as [_ ?]).
      apply subseteq_size in Hsub. rewrite <- Hsz.
      split; [lia|]. split; [lia|]. split; [lia|].
      rewrite Z.eqb_eq. split; [|tauto].
      intros Hu. split; [done|]. right. intros Hnil. by rewrite Hnil in El.
    + apply last_None in El. rewrite Hnone in Hres by done.
      injection Hres as <- <- <-. rewrite <- Hsz.
      split; [lia|]. split; [lia|]. split; [lia|].
      split; [done|]. intros [_ [?|?]]; done.
Qed.

Lemma flood_counts_add_up_witness :
  0 <= 0 ∧ 0 <= 0
  ∧ 0 + 0 = Z.of_nat (Spec.diamonds (nonempty_lines "W.W"))
  ∧ (false = true
     ↔ 0 = 0 ∧ (nonempty_lines "W.W" = []
                ∨ Spec.positions "P" (nonempty_lines "W.W") ≠ [])).
Proof.
  apply (flood_counts_add_up "W.W" false 0 0). vm_compute. reflexivity.
Defined.

(** *** The report of lines 61-80 *)

(** X8: A cave with a player is reported OK exactly when every diamond of the
    grid can be reached from the player and the grid holds at least the
    required number of diamonds. *)
Theorem cave_ok_iff required pattern all_ok start :
  last (Spec.positions "P" (nonempty_lines pattern)) = Some start →
  (check_cave required pattern all_ok = Some (StatusOk, all_ok)
   ↔ (∀ p, Spec.is_diamond (nonempty_lines pattern) p →
           Spec.reachable (nonempty_lines pattern) start p)
     ∧ required <= Z.of_nat (Spec.diamonds (nonempty_lines pattern))).
Proof.
  intros Hst.
  destruct (flood_fill_cases pattern) as (D & HD & Hsz & _ & _ & Hplayer).
  destruct (Hplayer start Hst) as (R & HR & Hres).
  unfold check_cave. rewrite Hres. cbn [mbind option_bind].
  assert (Hsub : R ⊆ D) by (intros p Hp; by apply HR in Hp as [_ ?]).
  pose proof (subseteq_size _ _ Hsub) as Hle. rewrite <- Hsz.
  destruct (Z.eqb_spec (Z.of_nat (size D) - Z.of_nat (size R)) 0) as [Hu|Hu];
    cbn [negb].
  - assert (Heq : R = D) by (apply set_subseteq_size_eq; [done|lia]).
    destruct (Z.ltb_spec (Z.of_nat (size R)) required).
    + split; [done|]. intros [_ ?]. lia.
    + split; [|done]. intros _. split; [|lia].
      intros p Hp. apply HD in Hp. rewrite <- Heq in Hp.
      by apply HR in Hp as [? _].
  - split; [done|]. intros [Hall _]. exfalso. apply Hu.
    assert (D ⊆ R).
    { intros p Hp. apply HR. split; [|done]. apply Hall. by apply HD. }
    apply subseteq_size in H. lia.
Qed.

Lemma cave_ok_iff_witness :
  check_cave 1 (join_nl ["WWWWW"; "W.P.W"; "W.*.W"; "WWWWW"]) true
  = Some (StatusOk, true)
  ↔ (∀ p, Spec.is_diamond (nonempty_lines (join_nl ["WWWWW"; "W.P.W"; "W.*.W"; "WWWWW"])) p →
          Spec.reachable (nonempty_lines (join_nl ["WWWWW"; "W.P.W"; "W.*.W"; "WWWWW"]))
            (2, 1) p)
    ∧ 1 <= Z.of_nat (Spec.diamonds
                       (nonempty_lines (join_nl ["WWWWW"; "W.P.W"; "W.*.W"; "WWWWW"]))).
Proof.
  apply (cave_ok_iff 1 (join_nl ["WWWWW"; "W.P.W"; "W.*.W"; "WWWWW"]) true (2, 1)).
  vm_compute. reflexivity.
Defined.

(** X9: A cave whose grid has rows and no player is reported UNREACHABLE with
    the number of all its diamonds, also when that number is zero; a pattern
    without any row is reported as short of all the required diamonds, or OK
    when none is required. *)
Theorem cave_without_player required pattern all_ok :
  Spec.positions "P" (nonempty_lines pattern) = [] →
  check_cave required pattern all_ok
  = Some (match nonempty_lines pattern with
          | [] => if 0 <? required then (NeedMore required, false)
                  else (StatusOk, all_ok)
          | _ => (Unreachable (Z.of_nat (Spec.diamonds (nonempty_lines pattern))),
                  false)
          end).
Proof.
  intros Hno.
  destruct (flood_fill_cases pattern) as (D & HD & Hsz & Hempty & Hnone & _).
  unfold check_cave.
  destruct (nonempty_lines pattern) as [|l ls] eqn:E.
  - rewrite Hempty by done. cbn [mbind option_bind negb].
    rewrite Z.sub_0_r. by destruct (0 <? required).
  - rewrite Hnone by done. cbn [mbind option_bind negb]. by rewrite Hsz.
Qed.

Lemma cave_without_player_witness :
  check_cave 0 "W.W" true = Some (Unreachable 0, false).
Proof.
  apply (cave_without_player 0 "W.W" true). vm_compute. reflexivity.
Defined.

Lemma check_cave_flag required pattern all_ok :
  ∃ st, check_cave required pattern all_ok
        = Some (st, all_ok && bool_decide (st = StatusOk)).
Proof.
  unfold check_cave.
  destruct (flood_fill_check_total pattern) as ([[a r] u] & ->).
  cbn [mbind option_bind].
  destruct a; cbn [negb].
  - destruct (r <? required).
    + exists (NeedMore (required - r)).
      by rewrite bool_decide_false, andb_false_r by done.
    + exists StatusOk. by rewrite bool_decide_true, andb_true_r by done.
  - exists (Unreachable u). by rewrite bool_decide_false, andb_false_r by done.
Qed.

Lemma check_caves_flag caves : ∀ all_ok,
  ∃ sts, check_caves caves all_ok
         = Some (sts, all_ok && forallb (fun st => bool_decide (st = StatusOk)) sts)
    ∧ length sts = length caves.
Proof.
  induction caves as [|[[name required] pattern] caves IH]; intros all_ok.
  - exists []. by rewrite andb_true_r.
  - cbn [check_caves].
    destruct (check_cave_flag required pattern all_ok) as (st & ->).
    cbn [mbind option_bind].
    destruct (IH (all_ok && bool_decide (st = StatusOk))) as (sts & -> & Hlen).
    cbn [mbind option_bind]. exists (st :: sts).
    cbn [forallb length]. by rewrite andb_assoc, Hlen.
Qed.

(** X10: The report gives one status for each cave, and [all_ok] ends up true
    exactly when every one of them is OK: one cave that is not OK is enough
    for the closing message to be the warning. *)
Theorem report_flag_iff_all_ok caves :
  ∃ sts all_ok,
    accessibility_report caves = Some (sts, all_ok)
    ∧ length sts = length caves
    ∧ (all_ok = true ↔ Forall (fun st => st = StatusOk) sts).
Proof.
  unfold accessibility_report.
  destruct (check_caves_flag caves true) as (sts & -> & Hlen).
  eexists _, _. split; [done|]. split; [done|].
  cbn [andb]. rewrite forallb_forall, Forall_forall.
  split; intros H st Hin.
  - apply list_elem_of_In in Hin. by apply H, bool_decide_eq_true in Hin.
  - apply bool_decide_eq_true, H. by apply list_elem_of_In.
Qed.

End FloodReportFacts.

(** ** check-all-caves.py: how many rows hold the diamonds *)

Module ClusteringMoreFacts.
Import PyStr PyStrFacts PyFloat PyFloatFacts Clustering ClusteringFacts.

(** Lines 25-33 for a pattern with diamonds: the verdict in terms of the two
    highest row counts and of the number of rows that hold a diamond. *)
Lemma clustering_value pattern :
  let rows := lines_of pattern in
  let total := Z.of_nat (count "*" pattern) in
  let top := (Spec.two_largest (Spec.row_counts rows)).1
             + (Spec.two_largest (Spec.row_counts rows)).2 in
  let k := length (filter (fun c => 0 < c) (Spec.row_counts rows)) in
  0 < total → total <= 2 ^ 51 →
  0 < top <= total
  ∧ foldr Z.add 0 (Spec.row_counts rows) = total
  ∧ clustering_check pattern
    = Ret (if decide (3 * total < 5 * top)
           then Clustered (mul (round53 top total) (of_int 100)) (k `min` 2)
           else WellDistributed).
Proof.
  intros rows total top k Hpos Htot. unfold clustering_check. cbv zeta.
  fold rows total.
  pose proof (collect_counts rows) as Hdl.
  pose proof (row_counts_nonneg rows) as Hnn.
  pose proof (sum_row_counts rows) as Hsum.
  unfold rows at 2, lines_of in Hsum.
  rewrite diamonds_split_strip in Hsum. fold total in Hsum.
  destruct (two_largest_bounds _ Hnn) as (Hab & Hmax & Hle). fold top in Hle.
  destruct (collect 0 rows []) as [|d dl] eqn:E.
  { symmetry in Hdl. apply (filter_positive_nil _ Hnn) in Hdl. lia. }
  set (dls := d :: dl) in *.
  assert (Hdpos : ∀ y, y ∈ dls → 0 <= y.2).
  { intros y Hy. assert (y.2 ∈ dls.*2) as Hy2 by (apply list_elem_of_fmap; eauto).
    rewrite Hdl in Hy2. apply list_elem_of_filter in Hy2. lia. }
  assert (Htop : sum_counts (take 2 (sorted_desc dls)) = top).
  { rewrite sum_take_two, sorted_first_two, Hdl, two_largest_filter by done.
    done. }
  assert (Hd : 0 < d.2 ∧ d.2 ∈ Spec.row_counts rows).
  { assert (d.2 ∈ dls.*2) as Hd by (apply list_elem_of_fmap; exists d; split; [done|left]).
    rewrite Hdl in Hd. by apply list_elem_of_filter in Hd. }
  destruct Hd as [Hd0 Hdin]. specialize (Hmax _ Hdin).
  assert (Ht : 0 < top <= total) by lia.
  split; [done|]. split; [done|].
  rewrite Htop.
  assert (Hav : (0 <? total) = true) by (apply Z.ltb_lt; lia). rewrite Hav.
  unfold truediv. destruct (Z.eqb_spec total 0) as [|_]; [lia|].
  rewrite Z.sgn_pos, Z.mul_1_r, Z.abs_eq by lia.
  cbn [mbind py_result_bind mret py_result_ret].
  pose proof (percentage_above_60 top total Ht Htot) as Hpct.
  rewrite round_frac_pos in * by lia.
  assert (Hlen : length (take 2 (sorted_desc dls)) = (k `min` 2)%nat).
  { rewrite length_take, length_sorted_desc.
    rewrite <- (length_fmap snd), Hdl. unfold k. lia. }
  rewrite Hlen.
  destruct (decide (3 * total < 5 * top)) as [Hc|Hc].
  - apply Hpct in Hc. by rewrite Hc.
  - destruct (gt_int _ 60) eqn:Eg; [|done]. destruct Hc. by apply Hpct.
Qed.

Lemma sum_filter_positive cs :
  (∀ c, c ∈ cs → 0 <= c) →
  foldr Z.add 0 (filter (fun c => 0 < c) cs) = foldr Z.add 0 cs.
Proof.
  induction cs as [|c cs IH]; intros Hnn; [done|].
  assert (0 <= c) by (apply Hnn; left).
  rewrite filter_cons. destruct (decide (0 < c)); simpl; rewrite IH; try lia;
    intros; apply Hnn; by right.
Qed.

(** Up to three rows with diamonds: the two fullest hold more than 60% of
    them. *)
Lemma few_rows_top cs :
  (∀ c, c ∈ cs → 0 <= c) →
  (length (filter (fun c : Z => (0 < c)%Z) cs) ≤ 3)%nat →
  0 < foldr Z.add 0 cs →
  3 * foldr Z.add 0 cs
  < 5 * ((Spec.two_largest cs).1 + (Spec.two_largest cs).2).
Proof.
  intros Hnn Hlen Hsum.
  rewrite <- (sum_filter_positive cs Hnn) in *.
  rewrite <- (two_largest_filter cs Hnn).
  assert (Hpos : ∀ c, c ∈ filter (fun c => 0 < c) cs → 0 < c)
    by (intros c Hc; by apply list_elem_of_filter in Hc as [? _]).
  destruct (filter (fun c => 0 < c) cs) as [|x [|y [|z [|w l]]]];
    [simpl in Hsum; lia| | | |simpl in Hlen; lia].
  - pose proof (Hpos x ltac:(left)). simpl.
    destruct (Z.leb_spec 0 x); simpl; lia.
  - pose proof (Hpos x ltac:(left)).
    pose proof (Hpos y ltac:(right; left)). simpl.
    destruct (Z.leb_spec 0 y); [|lia]. simpl.
    destruct (Z.leb_spec y x); [|destruct (Z.leb_spec 0 x)]; simpl; lia.
  - pose proof (Hpos x ltac:(left)).
    pose proof (Hpos y ltac:(right; left)).
    pose proof (Hpos z ltac:(right; right; left)). simpl.
    destruct (Z.leb_spec 0 z); [|lia]. simpl.
    destruct (Z.leb_spec z y); [|destruct (Z.leb_spec 0 y)]; simpl; try lia;
      repeat match goal with
        | |- context [Z.leb ?a ?b] => destruct (Z.leb_spec a b); simpl
        end; lia.
Qed.

(** Up to two rows with diamonds: the two fullest hold them all. *)
Lemma two_rows_top cs :
  (∀ c, c ∈ cs → 0 <= c) →
  (length (filter (fun c : Z => (0 < c)%Z) cs) ≤ 2)%nat →
  (Spec.two_largest cs).1 + (Spec.two_largest cs).2 = foldr Z.add 0 cs.
Proof.
  intros Hnn Hlen.
  rewrite <- (sum_filter_positive cs Hnn).
  rewrite <- (two_largest_filter cs Hnn).
  assert (Hpos : ∀ c, c ∈ filter (fun c => 0 < c) cs → 0 < c)
    by (intros c Hc; by apply list_elem_of_filter in Hc as [? _]).
  destruct (filter (fun c => 0 < c) cs) as [|x [|y [|z l]]];
    [done| | |simpl in Hlen; lia].
  - pose proof (Hpos x ltac:(left)). simpl.
    destruct (Z.leb_spec 0 x); simpl; lia.
  - pose proof (Hpos x ltac:(left)).
    pose proof (Hpos y ltac:(right; left)). simpl.
    destruct (Z.leb_spec 0 y); [|lia]. simpl.
    destruct (Z.leb_spec y x); [|destruct (Z.leb_spec 0 x)]; simpl; lia.
Qed.


Lemma rne_whole k d : 0 <= k → 0 < d → rne (k * d) d = k.
Proof.
  intros Hk Hd. rewrite (rne_ratio (k * d) d k 1) by lia.
  unfold rne. rewrite Z.mod_1_r, Z.div_1_r. done.
Qed.

(** X11: A pattern whose diamonds lie in no more than three rows is never
    reported as well distributed: the two fullest rows always hold more than
    60% of the diamonds. *)
Theorem few_rows_are_always_clustered pattern :
  0 < Z.of_nat (count "*" pattern) <= 2 ^ 51 →
  (length (filter (fun c : Z => (0 < c)%Z)
                  (Spec.row_counts (lines_of pattern))) ≤ 3)%nat →
  ∃ percentage n, clustering_check pattern = Ret (Clustered percentage n).
Proof.
  intros [Hpos Htot] Hk.
  destruct (clustering_value pattern Hpos Htot) as (Htop & Hsum & ->).
  pose proof (few_rows_top _ (row_counts_nonneg (lines_of pattern)) Hk) as H.
  rewrite Hsum in H. rewrite decide_True by (apply H; lia). eauto.
Qed.

Lemma few_rows_are_always_clustered_witness :
  ∃ percentage n,
    clustering_check (join_nl ["W**W"; "W*PW"; "W*.W"]) = Ret (Clustered percentage n).
Proof.
  apply (few_rows_are_always_clustered (join_nl ["W**W"; "W*PW"; "W*.W"])).
  - vm_compute. split; [reflexivity|discriminate].
  - vm_compute. lia.
Defined.

(** X12: A pattern whose diamonds lie in one or two rows is reported as
    clustered with 100%, and the number of lines in the message is the number
    of these rows. *)
Theorem two_rows_hold_everything pattern :
  let k := length (filter (fun c : Z => (0 < c)%Z)
                          (Spec.row_counts (lines_of pattern))) in
  0 < Z.of_nat (count "*" pattern) <= 2 ^ 51 →
  (k ≤ 2)%nat →
  clustering_check pattern = Ret (Clustered (of_int 100) k)
  ∧ show (Clustered (of_int 100) k)
    = "100% in " ++ str_of_int (Z.of_nat k) ++ " line(s)".
Proof.
  intros k [Hpos Htot] Hk. split; [|done].
  destruct (clustering_value pattern Hpos Htot) as (Htop & Hsum & ->).
  pose proof (two_rows_top _ (row_counts_nonneg (lines_of pattern)) Hk) as H.
  rewrite Hsum in H. rewrite H, decide_True by lia.
  rewrite (round53_ratio _ _ 1 1) by lia. fold k.
  rewrite Nat.min_l by done. f_equal.
Qed.

Lemma two_rows_hold_everything_witness :
  clustering_check (join_nl ["W**W"; "W.PW"; "W*.W"]) = Ret (Clustered (of_int 100) 2).
Proof.
  apply (two_rows_hold_everything (join_nl ["W**W"; "W.PW"; "W*.W"])).
  - vm_compute. split; [reflexivity|discriminate].
  - vm_compute. lia.
Defined.

Lemma no_diamonds_value pattern :
  count "*" pattern = 0%nat → clustering_check pattern = Ret NoDiamonds.
Proof.
  intros H0. unfold clustering_check. cbv zeta.
  pose proof (collect_counts (lines_of pattern)) as Hdl.
  pose proof (sum_row_counts (lines_of pattern)) as Hsum.
  unfold lines_of in Hsum at 2. rewrite diamonds_split_strip, H0 in Hsum.
  destruct (collect 0 (lines_of pattern) []) as [|d dl]; [done|exfalso].
  assert (Hd : d.2 ∈ filter (fun c => 0 < c) (Spec.row_counts (lines_of pattern)))
    by (rewrite <- Hdl; left).
  apply list_elem_of_filter in Hd as [Hd Hin].
  pose proof (elem_le_sum _ _ (row_counts_nonneg (lines_of pattern)) Hin). lia.
Qed.

(** X13: When a pattern is reported as clustered, the message names one or two
    lines and a whole percentage from 60 to 100: the percentage is above 60
    and is rounded to the nearest whole number for the message. *)
Theorem clustered_message_range pattern percentage n :
  Z.of_nat (count "*" pattern) <= 2 ^ 51 →
  clustering_check pattern = Ret (Clustered percentage n) →
  (n = 1 ∨ n = 2)%nat
  ∧ gt_int percentage 60 = true
  ∧ ∃ m, 60 <= m <= 100 ∧ format_0f percentage = str_of_int m.
Proof.
  intros Htot Hres.
  destruct (Nat.eq_dec (count "*" pattern) 0%nat) as [H0|H0].
  { rewrite no_diamonds_value in Hres by done. done. }
  assert (Hpos : 0 < Z.of_nat (count "*" pattern)) by lia.
  destruct (clustering_value pattern Hpos Htot) as (Htop & Hsum & Hval).
  rewrite Hval in Hres.
  set (total := Z.of_nat (count "*" pattern)) in *.
  set (top := _ + _) in *.
  remember (mul (round53 top total) (of_int 100)) as x eqn:Ex.
  destruct (decide (3 * total < 5 * top)) as [Hc|Hc]; [|done].
  injection Hres as <- <-.
  assert (Hk : (0 < length (filter (fun c : Z => (0 < c)%Z)
                              (Spec.row_counts (lines_of pattern))))%nat).
  { destruct (filter _ _) eqn:E; [|simpl; lia].
    apply (filter_positive_nil _ (row_counts_nonneg (lines_of pattern))) in E. lia. }
  split; [lia|].
  assert (Hgt : gt_int x 60 = true).
  { pose proof (percentage_above_60 top total Htop Htot) as Hp.
    rewrite round_frac_pos in Hp by lia. rewrite Ex. by apply Hp. }
  split; [done|].
  assert (Hle : le x (of_int 100)).
  { rewrite Ex. assert (Hone : mul (round53 total total) (of_int 100) = of_int 100).
    { rewrite (round53_ratio _ _ 1 1) by lia. vm_compute. reflexivity. }
    rewrite <- Hone at 2. apply mul_mono.
    - destruct (round53_spec top total) as (_ & [Hm _] & _); [lia|lia|].
      eapply Z.lt_le_trans; [|exact Hm]. done.
    - destruct (round53_spec total total) as (_ & [Hm _] & _); [lia|lia|].
      eapply Z.lt_le_trans; [|exact Hm]. done.
    - vm_compute. reflexivity.
    - apply round53_mono; try lia. apply Z.mul_le_mono_nonneg_r; lia. }
  clear Ex. unfold gt_int in Hgt. apply Z.ltb_lt in Hgt.
  unfold le, num, den in Hle.
  change (mant (of_int 100) * pow2 (expo (of_int 100)))
    with (100 * pow2 (- expo (of_int 100))) in Hle.
  pose proof (pow2_pos (- expo x)) as Hd.
  pose proof (pow2_pos (- expo (of_int 100))) as Hd'.
  assert (Hn : mant x * pow2 (expo x) <= 100 * pow2 (- expo x)) by nia.
  exists (rne (mant x * pow2 (expo x)) (pow2 (- expo x))). split.
  - split.
    + transitivity (rne (60 * pow2 (- expo x)) (pow2 (- expo x)));
        [rewrite rne_whole; lia|apply rne_mono; nia].
    + transitivity (rne (100 * pow2 (- expo x)) (pow2 (- expo x)));
        [apply rne_mono; nia|rewrite rne_whole; lia].
  - unfold format_0f. cbv zeta.
    assert (Hp : 0 < mant x * pow2 (expo x)).
    { lia. }
    rewrite (Z.sgn_pos _ Hp), Z.mul_1_l, (Z.abs_eq _ (Z.lt_le_incl _ _ Hp)). done.
Qed.

Lemma clustered_message_range_witness :
  (1 = 1 ∨ 1 = 2)%nat
  ∧ gt_int (of_int 100) 60 = true
  ∧ ∃ m, 60 <= m <= 100 ∧ format_0f (of_int 100) = str_of_int m.
Proof.
  apply (clustered_message_range (join_nl ["WWWWW"; "W.PWW"; "W***W"])).
  - vm_compute. discriminate.
  - vm_compute. reflexivity.
Defined.

End ClusteringMoreFacts.

(** ** redistribute-diamonds.py: the cells of the result *)

Module RedistributeMoreFacts.
Import PyStr PyStrFacts PyFloat PyFloatFacts Redistribute RedistributeFacts.
Import GridFacts ScanFacts SelectionFacts.

Lemma get_replace a b s : ∀ n,
  String.get n (replace a b s)
  = (fun c => if Ascii.eqb c a then b else c) <$> String.get n s.
Proof. induction s as [|c s IH]; intros [|n]; simpl; auto. Qed.

Lemma get_row_map (g : nat → ascii → ascii) s : ∀ n,
  String.get n (string_of_list_ascii (imap g (list_ascii_of_string s)))
  = g n <$> String.get n s.
Proof.
  revert g. induction s as [|c s IH]; intros g [|n]; simpl; try done.
  apply (IH (g ∘ S)).
Qed.

(** The cells of the cleaned grid. *)
Lemma cell_clean lines x y :
  Spec.cell (clean_lines lines) x y = Spec.cleaned <$> Spec.cell lines x y.
Proof.
  unfold Spec.cell, clean_lines.
  destruct (_ || _); [done|]. rewrite list_lookup_fmap.
  destruct (lines !! Z.to_nat y) as [line|]; [|done]. simpl.
  apply get_replace.
Qed.

(** The cells of a stamped grid. *)
Lemma cell_stamp lines selected x y :
  Spec.cell (Spec.stamp lines selected) x y
  = Spec.stamped_cell selected (Z.to_nat x) (Z.to_nat y) <$> Spec.cell lines x y.
Proof.
  unfold Spec.cell, Spec.stamp.
  destruct (_ || _); [done|]. rewrite list_lookup_imap.
  destruct (lines !! Z.to_nat y) as [line|]; [|done]. simpl.
  apply (get_row_map (fun k c => Spec.stamped_cell selected k (Z.to_nat y) c)).
Qed.

(** The candidates are the cells that hold ['.'] or [' ']. *)
Lemma elem_of_candidates lines x y :
  (x, y) ∈ Spec.candidates lines
  ↔ Spec.cell lines (Z.of_nat x) (Z.of_nat y) = Some "."%char
    ∨ Spec.cell lines (Z.of_nat x) (Z.of_nat y) = Some " "%char.
Proof.
  rewrite !cell_Some, !Nat2Z.id. unfold Spec.candidates.
  rewrite elem_of_concat. split.
  - intros (l & Hp & Hl).
    apply elem_of_lookup_imap in Hl as (y' & line & -> & Hy).
    apply list_elem_of_fmap in Hp as (x' & [= -> ->] & Hx).
    apply list_elem_of_filter in Hx as [[Hx|Hx] _]; [left|right];
      (split; [lia|]; split; [lia|]); eauto.
  - intros H.
    assert (∃ line, lines !! y = Some line
                    ∧ (String.get x line = Some "."%char
                       ∨ String.get x line = Some " "%char)) as (line & Hl & Hx).
    { destruct H as [(_ & _ & line & ? & ?)|(_ & _ & line & ? & ?)]; eauto. }
    exists (Spec.row_candidates y line). split.
    + apply list_elem_of_fmap. exists x. split; [done|].
      apply list_elem_of_filter. split; [done|]. apply elem_of_seq.
      destruct Hx as [Hx|Hx]; apply get_lt in Hx; lia.
    + apply elem_of_lookup_imap. eauto.
Qed.

(** With enough candidates and a required count above zero: the selected
    cells are [required] different candidates of the cleaned grid, and the
    text returned is the cleaned grid with these cells stamped. *)
Lemma selection_facts text required :
  0 < required <= Spec.walkable text → Spec.walkable text < 2 ^ 25 →
  let cl := clean_lines (lines_of text) in
  let sel := Spec.selected_cells (Spec.candidates cl) required in
  NoDup sel
  ∧ Z.of_nat (length sel) = required
  ∧ (∀ p, p ∈ sel → p ∈ Spec.candidates cl)
  ∧ redistribute_cave_diamonds text required
    = ([], Ret (join_nl (Spec.stamp cl sel)))
  ∧ split_nl (join_nl (Spec.stamp cl sel)) = Spec.stamp cl sel.
Proof.
  intros Hreq Hn cl sel.
  assert (Hidx : ∀ i, 0 <= i < required →
            0 <= Spec.float_index (Spec.walkable text) required i
            < Spec.walkable text)
    by (intros; apply index_bound; lia).
  unfold Spec.walkable in *. fold cl in Hreq, Hn, Hidx.
  set (cand := Spec.candidates cl) in *.
  assert (Hlook : ∀ i, i ∈ range required →
            cand !! Z.to_nat (Spec.float_index (Z.of_nat (length cand)) required i)
            = Some (cand !!! Z.to_nat (Spec.float_index (Z.of_nat (length cand)) required i))).
  { intros i Hi%elem_of_range. apply list_lookup_lookup_total_lt.
    specialize (Hidx i Hi). lia. }
  assert (Hnl : ∀ l, l ∈ cl → count nl l = 0%nat).
  { intros l (l0 & -> & Hl0)%list_elem_of_fmap.
    rewrite count_replace_other by done. simpl. by apply split_nl_no_nl in Hl0. }
  split; [|split; [|split; [|split]]].
  - unfold sel, Spec.selected_cells. fold cand.
    apply NoDup_fmap_2_strong; [|apply NoDup_range].
    intros i j Hi Hj Heq.
    pose proof (Hlook i Hi) as Li. pose proof (Hlook j Hj) as Lj.
    rewrite Heq in Li.
    pose proof (NoDup_lookup _ _ _ _ (NoDup_candidates cl) Li Lj) as Hk.
    apply elem_of_range in Hi, Hj.
    pose proof (Hidx i Hi). pose proof (Hidx j Hj).
    destruct (Z.lt_trichotomy i j) as [Hlt|[->|Hgt]]; [|done|].
    + pose proof (index_lt (Z.of_nat (length cand)) required i j
                    ltac:(lia) Hn ltac:(lia) ltac:(lia)) as Hlt'.
      unfold Spec.float_index in *. lia.
    + pose proof (index_lt (Z.of_nat (length cand)) required j i
                    ltac:(lia) Hn ltac:(lia) ltac:(lia)) as Hlt'.
      unfold Spec.float_index in *. lia.
  - unfold sel, Spec.selected_cells, range. rewrite !length_map, length_seq. lia.
  - intros p (i & -> & Hi)%list_elem_of_fmap.
    apply list_elem_of_lookup. eauto.
  - by rewrite (redistribute_refines text required).
  - apply split_join_nl.
    + intros Hnil.
      pose proof (shape_stamp cl sel) as Hs. rewrite Hnil in Hs.
      symmetry in Hs. apply fmap_nil_inv in Hs.
      unfold cl, clean_lines in Hs. apply fmap_nil_inv in Hs.
      by apply split_nl_nonempty in Hs.
    + intros l. by apply stamp_no_nl.
Qed.


Lemma stamp_line_nothing line : ∀ y x, stamp_line y x line [] = line.
Proof.
  induction line as [|c line IH]; intros y x; [done|].
  cbn [stamp_line]. rewrite IH.
  by rewrite bool_decide_false by apply not_elem_of_nil.
Qed.

Lemma stamp_lines_nothing lines : ∀ y, stamp_lines y lines [] = lines.
Proof.
  induction lines as [|l lines IH]; intros y; [done|].
  cbn [stamp_lines]. by rewrite stamp_line_nothing, IH.
Qed.

Lemma diamonds_clean lines : Spec.diamonds (clean_lines lines) = 0%nat.
Proof.
  induction lines as [|l lines IH]; [done|].
  unfold Spec.diamonds, clean_lines in *. cbn [map foldr].
  rewrite IH, count_replace_other by done. done.
Qed.

(** X14: With enough candidates and a required count above zero, the pattern
    returned holds exactly the required number of diamonds, and its rows have
    the lengths of the rows of the stripped input. *)
Theorem redistribute_places_required text required :
  0 < required <= Spec.walkable text → Spec.walkable text < 2 ^ 25 →
  ∃ out, redistribute_cave_diamonds text required = ([], Ret out)
    ∧ Z.of_nat (count "*" out) = required
    ∧ Spec.shape (split_nl out) = Spec.shape (lines_of text).
Proof.
  intros Hreq Hn.
  destruct (redistribute_count_and_shape text required Hreq Hn)
    as (out & Hout & Hcount & Hshape).
  exists out. split; [done|]. split; [|done].
  by rewrite <- (join_split_nl out), <- diamonds_join.
Qed.

Lemma redistribute_places_required_witness :
  ∃ out,
    redistribute_cave_diamonds (join_nl ["WWWWW"; "W*P.W"; "W.*.W"; "WW WW"]) 3
    = ([], Ret out)
    ∧ Z.of_nat (count "*" out) = 3
    ∧ Spec.shape (split_nl out)
      = Spec.shape (lines_of (join_nl ["WWWWW"; "W*P.W"; "W.*.W"; "WW WW"])).
Proof.
  apply (redistribute_places_required
           (join_nl ["WWWWW"; "W*P.W"; "W.*.W"; "WW WW"]) 3).
  - vm_compute. split; [reflexivity|discriminate].
  - vm_compute. reflexivity.
Defined.

(** X15: A negative required count is no error: nothing is printed or raised,
    no cell is selected, and the pattern returned is the stripped input with
    every diamond turned into ['.']. *)
Theorem negative_required_removes_diamonds text required :
  required < 0 →
  redistribute_cave_diamonds text required
  = ([], Ret (join_nl (clean_lines (lines_of text))))
  ∧ count "*" (join_nl (clean_lines (lines_of text))) = 0%nat.
Proof.
  intros Hneg. split.
  - unfold redistribute_cave_diamonds. cbv zeta.
    destruct (Z.ltb_spec
      (Z.of_nat (length (scan_lines 0 (clean_lines (lines_of text)) []))) required);
      [lia|].
    unfold truediv. destruct (Z.eqb_spec required 0); [lia|].
    cbn [mbind py_result_bind]. unfold range.
    rewrite Z2Nat.nonpos by lia. cbn [seq map select mbind py_result_bind].
    by rewrite stamp_lines_nothing.
  - rewrite <- diamonds_join. apply diamonds_clean.
Qed.

Lemma negative_required_removes_diamonds_witness :
  redistribute_cave_diamonds (join_nl ["W*W"; "*P "]) (-2)
  = ([], Ret (join_nl (clean_lines (lines_of (join_nl ["W*W"; "*P "])))))
  ∧ count "*" (join_nl (clean_lines (lines_of (join_nl ["W*W"; "*P "])))) = 0%nat.
Proof.
  apply (negative_required_removes_diamonds (join_nl ["W*W"; "*P "]) (-2)).
  reflexivity.
Defined.

(** The cells of the pattern returned, for a cell that holds [c] in the
    stripped input. *)
Lemma redistributed_cell text required x y c :
  0 < required <= Spec.walkable text → Spec.walkable text < 2 ^ 25 →
  let cl := clean_lines (lines_of text) in
  let sel := Spec.selected_cells (Spec.candidates cl) required in
  Spec.cell (lines_of text) x y = Some c →
  Spec.cell (Spec.stamp cl sel) x y
  = Some (if bool_decide ((Z.to_nat x, Z.to_nat y) ∈ sel) then "*"%char
          else Spec.cleaned c)
  ∧ ((Z.to_nat x, Z.to_nat y) ∈ Spec.candidates cl ↔ Spec.candidate_symbol c).
Proof.
  intros Hreq Hn cl sel Hc. split.
  - rewrite cell_stamp. unfold cl. rewrite cell_clean, Hc. done.
  - rewrite elem_of_candidates. unfold cl. rewrite cell_clean.
    apply cell_Some in Hc as Hxy. rewrite !Z2Nat.id by lia. rewrite Hc.
    unfold Spec.candidate_symbol, Spec.cleaned. simpl.
    destruct (Ascii.eqb_spec c "*") as [->|Hne].
    + split; [auto|]. intros _. by left.
    + split.
      * intros [[= ->]|[= ->]]; auto.
      * intros [?|[->| ->]]; [done|by left|by right].
Qed.

(** X16: Walls, the player, the exit and every other symbol that is not ['*'],
    ['.'] or [' '] stay where they are; a diamond of the result lies on a cell
    that held one of these three symbols; and every cell of the result holds a
    diamond or what line 15 left there. *)
Theorem other_cells_stay text required :
  0 < required <= Spec.walkable text → Spec.walkable text < 2 ^ 25 →
  ∃ out, redistribute_cave_diamonds text required = ([], Ret out)
    ∧ ∀ x y c, Spec.cell (lines_of text) x y = Some c →
        (¬ Spec.candidate_symbol c → Spec.cell (split_nl out) x y = Some c)
        ∧ (Spec.cell (split_nl out) x y = Some "*"%char → Spec.candidate_symbol c)
        ∧ (Spec.cell (split_nl out) x y = Some "*"%char
           ∨ Spec.cell (split_nl out) x y = Some (Spec.cleaned c)).
Proof.
  intros Hreq Hn.
  destruct (selection_facts text required Hreq Hn)
    as (Hnd & Hlen & Hsub & Hout & Hsplit).
  eexists. split; [exact Hout|]. intros x y c Hc. rewrite Hsplit.
  destruct (redistributed_cell text required x y c Hreq Hn Hc) as [Hcell Hcand].
  rewrite Hcell.
  destruct (bool_decide_reflect
    ((Z.to_nat x, Z.to_nat y)
     ∈ Spec.selected_cells (Spec.candidates (clean_lines (lines_of text))) required))
    as [Hin|Hin].
  - apply Hsub, Hcand in Hin. split; [done|]. split; [done|by left].
  - split; [|split; [|by right]].
    + intros Hnc. f_equal. unfold Spec.cleaned.
      destruct (Ascii.eqb_spec c "*") as [->|]; [|done].
      destruct Hnc. by left.
    + intros [= Hcl]. unfold Spec.cleaned in Hcl.
      destruct (Ascii.eqb_spec c "*") as [->|]; [by left|]. by left.
Qed.

Lemma other_cells_stay_witness :
  ∃ out,
    redistribute_cave_diamonds (join_nl ["WWWWW"; "W*P.W"; "W.*.W"; "WW WW"]) 3
    = ([], Ret out)
    ∧ ∀ x y c,
        Spec.cell (lines_of (join_nl ["WWWWW"; "W*P.W"; "W.*.W"; "WW WW"])) x y
        = Some c →
        (¬ Spec.candidate_symbol c → Spec.cell (split_nl out) x y = Some c)
        ∧ (Spec.cell (split_nl out) x y = Some "*"%char → Spec.candidate_symbol c)
        ∧ (Spec.cell (split_nl out) x y = Some "*"%char
           ∨ Spec.cell (split_nl out) x y = Some (Spec.cleaned c)).
Proof.
  apply (other_cells_stay (join_nl ["WWWWW"; "W*P.W"; "W.*.W"; "WW WW"]) 3).
  - vm_compute. split; [reflexivity|discriminate].
  - vm_compute. reflexivity.
Defined.

(** X17: When as many diamonds are required as there are candidates, every
    cell that held ['*'], ['.'] or [' '] holds a diamond in the result. *)
Theorem every_candidate_is_taken text x y c :
  0 < Spec.walkable text < 2 ^ 25 →
  Spec.cell (lines_of text) x y = Some c → Spec.candidate_symbol c →
  ∃ out, redistribute_cave_diamonds text (Spec.walkable text) = ([], Ret out)
    ∧ Spec.cell (split_nl out) x y = Some "*"%char.
Proof.
  intros [Hpos Hn] Hc Hsym.
  assert (Hreq : 0 < Spec.walkable text <= Spec.walkable text) by lia.
  destruct (selection_facts text _ Hreq Hn)
    as (Hnd & Hlen & Hsub & Hout & Hsplit).
  eexists. split; [exact Hout|]. rewrite Hsplit.
  destruct (redistributed_cell text _ x y c Hreq Hn Hc) as [Hcell Hcand].
  rewrite Hcell. rewrite bool_decide_true; [done|].
  apply Hcand in Hsym.
  assert (Hperm : Spec.selected_cells
                    (Spec.candidates (clean_lines (lines_of text)))
                    (Spec.walkable text)
                  ≡ₚ Spec.candidates (clean_lines (lines_of text))).
  { apply submseteq_length_Permutation.
    - by apply NoDup_submseteq.
    - apply Nat2Z.inj_le. rewrite Hlen. unfold Spec.walkable. lia. }
  by rewrite Hperm.
Qed.

Lemma every_candidate_is_taken_witness :
  ∃ out,
    redistribute_cave_diamonds (join_nl ["W*W"; ".P "])
      (Spec.walkable (join_nl ["W*W"; ".P "]))
    = ([], Ret out)
    ∧ Spec.cell (split_nl out) 0 1 = Some "*"%char.
Proof.
  apply (every_candidate_is_taken (join_nl ["W*W"; ".P "]) 0 1 "."%char).
  - vm_compute. split; reflexivity.
  - vm_compute. reflexivity.
  - right. left. reflexivity.
Defined.


(** X18: The first candidate cell in row-major order always receives a
    diamond: the index of the first selection is [int(0 * step)], which is
    zero. *)
Theorem first_candidate_is_selected text required x y :
  0 < required <= Spec.walkable text → Spec.walkable text < 2 ^ 25 →
  Spec.candidates (clean_lines (lines_of text)) !! 0%nat = Some (x, y) →
  ∃ out, redistribute_cave_diamonds text required = ([], Ret out)
    ∧ Spec.cell (split_nl out) (Z.of_nat x) (Z.of_nat y) = Some "*"%char.
Proof.
  intros Hreq Hn Hfirst.
  destruct (selection_facts text required Hreq Hn)
    as (_ & _ & _ & Hout & Hsplit).
  eexists. split; [exact Hout|]. rewrite Hsplit, cell_stamp, !Nat2Z.id.
  assert (Hcand : (x, y) ∈ Spec.candidates (clean_lines (lines_of text)))
    by (by apply list_elem_of_lookup_2 in Hfirst).
  assert (Hsel : (x, y) ∈ Spec.selected_cells
                   (Spec.candidates (clean_lines (lines_of text))) required).
  { unfold Spec.selected_cells. apply list_elem_of_fmap. exists 0. split.
    - assert (H0 : Spec.float_index
                     (Z.of_nat (length (Spec.candidates (clean_lines (lines_of text)))))
                     required 0 = 0).
      { unfold Spec.walkable in *.
        destruct (index_spec _ required 0 Hreq Hn ltac:(lia)) as [Hk Hv].
        rewrite Z.mul_0_l, Z.div_0_l in Hv by lia.
        unfold Spec.float_index. lia. }
      rewrite H0. change (Z.to_nat 0) with 0%nat.
      by rewrite (list_lookup_total_correct _ _ _ Hfirst).
    - apply elem_of_range. lia. }
  apply elem_of_candidates in Hcand.
  unfold Spec.stamped_cell.
  destruct Hcand as [-> | ->]; simpl; by rewrite bool_decide_true.
Qed.

Lemma first_candidate_is_selected_witness :
  ∃ out,
    redistribute_cave_diamonds (join_nl ["WWWWW"; "WWP.W"; "W.*.W"; "WW WW"]) 2
    = ([], Ret out)
    ∧ Spec.cell (split_nl out) (Z.of_nat 3) (Z.of_nat 1) = Some "*"%char.
Proof.
  apply (first_candidate_is_selected
           (join_nl ["WWWWW"; "WWP.W"; "W.*.W"; "WW WW"]) 2 3 1).
  - vm_compute. split; [reflexivity|discriminate].
  - vm_compute. reflexivity.
  - vm_compute. reflexivity.
Defined.

End RedistributeMoreFacts.

(** ** redistribute-diamonds.py: a second run *)

Module RewriteFacts.
Import PyStr PyStrFacts Redistribute RedistributeFacts SelectionFacts.
Import GridFacts ScanFacts RedistributeMoreFacts.

(** *** Stripped texts *)

Lemma length_lstrip s : (String.length (lstrip s) ≤ String.length s)%nat.
Proof.
  induction s as [|c s IH]; simpl; [done|].
  destruct (is_space c); simpl; lia.
Qed.

Lemma lstrip_fixed s :
  lstrip s = s ↔ match s with
                 | EmptyString => True
                 | String c _ => is_space c = false
                 end.
Proof.
  destruct s as [|c s]; simpl; [done|].
  destruct (is_space c) eqn:E; [|done]. split; [|done].
  intros H. pose proof (length_lstrip s) as Hl. rewrite H in Hl. simpl in Hl. lia.
Qed.

Lemma rstrip_cons c s :
  rstrip (String c s)
  = match rstrip s with
    | EmptyString => if is_space c then EmptyString else String c EmptyString
    | r => String c r
    end.
Proof. done. Qed.

Lemma rstrip_idem s : rstrip (rstrip s) = rstrip s.
Proof.
  induction s as [|c s IH]; [done|].
  rewrite rstrip_cons. destruct (rstrip s) as [|c' r] eqn:E.
  - destruct (is_space c) eqn:Ec; [done|]. simpl. by rewrite Ec.
  - rewrite rstrip_cons, IH. done.
Qed.

Lemma strip_is_stripped s :
  lstrip (strip s) = strip s ∧ rstrip (strip s) = strip s.
Proof.
  unfold strip. split; [|apply rstrip_idem].
  apply lstrip_fixed.
  assert (Hl : lstrip (lstrip s) = lstrip s).
  { induction s as [|c s IH]; simpl; [done|].
    destruct (is_space c) eqn:E; [done|]. simpl. by rewrite E. }
  apply lstrip_fixed in Hl.
  destruct (lstrip s) as [|c u]; [done|].
  rewrite rstrip_cons. destruct (rstrip u); [|done]. by rewrite Hl.
Qed.

(** *** Texts rewritten cell by cell *)

Section Rewrite.
Variable g : nat → nat → ascii → ascii.
Hypothesis g_keeps_symbols : ∀ y x c, is_space c = false → is_space (g y x c) = false.

Lemma rewrite_text_empty s y x :
  Spec.rewrite_text g y x s = EmptyString → s = EmptyString.
Proof. destruct s as [|c s]; simpl; [done|]. by destruct (Ascii.eqb c nl). Qed.

Lemma lstrip_rewrite_text s y x :
  lstrip s = s → lstrip (Spec.rewrite_text g y x s) = Spec.rewrite_text g y x s.
Proof.
  rewrite !lstrip_fixed. destruct s as [|c s]; [done|]. intros Hc.
  cbn [Spec.rewrite_text]. destruct (Ascii.eqb_spec c nl) as [->|]; [done|].
  by apply g_keeps_symbols.
Qed.

Lemma rstrip_rewrite_text s : ∀ y x,
  rstrip s = s → rstrip (Spec.rewrite_text g y x s) = Spec.rewrite_text g y x s.
Proof.
  induction s as [|c s IH]; intros y x Hs; [done|].
  rewrite rstrip_cons in Hs.
  destruct (rstrip s) as [|c' r] eqn:E.
  - destruct (is_space c) eqn:Ec; [done|]. injection Hs as <-.
    cbn [Spec.rewrite_text].
    destruct (Ascii.eqb_spec c nl) as [->|]; [done|].
    simpl. by rewrite g_keeps_symbols.
  - injection Hs as Hs. rewrite <- Hs in IH.
    cbn [Spec.rewrite_text]. rewrite <- Hs.
    destruct (Ascii.eqb c nl); rewrite rstrip_cons, IH by done;
      cbn [Spec.rewrite_text]; by destruct (Ascii.eqb c' nl).
Qed.

End Rewrite.

Lemma join_nl_String c l ls :
  join_nl (String c l :: ls) = String c (join_nl (l :: ls)).
Proof. by destruct ls. Qed.

(** Rewriting the rows of a text one by one and joining them is rewriting
    the text. *)
Lemma rewrite_text_rows g s : ∀ y x,
  ∃ l ls, split_nl s = l :: ls
    ∧ Spec.rewrite_text g y x s
      = join_nl
          (string_of_list_ascii
             (imap (fun j c => g y (x + j)%nat c) (list_ascii_of_string l))
           :: imap (fun k row =>
                      string_of_list_ascii
                        (imap (g (S y + k)%nat) (list_ascii_of_string row))) ls).
Proof.
  induction s as [|c s IH]; intros y x.
  - by exists EmptyString, [].
  - cbn [split_nl Spec.rewrite_text].
    destruct (Ascii.eqb_spec c nl) as [->|Hc].
    + destruct (IH (S y) 0%nat) as (l & ls & Hsplit & Hrw).
      exists EmptyString, (l :: ls). split; [by rewrite Hsplit|].
      rewrite Hrw. cbn [list_ascii_of_string imap string_of_list_ascii].
      rewrite join_nl_cons, Nat.add_0_r.
      change (EmptyString ++ ?t) with t.
      f_equal. f_equal. f_equal.
      apply imap_ext. intros k row _. simpl.
      replace (y + S k)%nat with (S (y + k)) by lia. done.
    + destruct (IH y (S x)) as (l & ls & Hsplit & Hrw).
      exists (String c l), ls. rewrite Hsplit. split; [done|].
      rewrite Hrw. cbn [list_ascii_of_string]. rewrite imap_cons.
      cbn [string_of_list_ascii]. rewrite join_nl_String, Nat.add_0_r.
      do 4 f_equal. apply imap_ext. intros j c' _. simpl. f_equal. lia.
Qed.


(** *** The redistribution as a rewriting of the text *)

Lemma row_map_replace (h : nat → ascii → ascii) l :
  string_of_list_ascii (imap h (list_ascii_of_string (replace "*" "." l)))
  = string_of_list_ascii
      (imap (fun x c => h x (Spec.cleaned c)) (list_ascii_of_string l)).
Proof.
  revert h. induction l as [|c l IH]; intros h; [done|].
  cbn [replace list_ascii_of_string]. rewrite !imap_cons.
  cbn [string_of_list_ascii]. f_equal. apply (IH (h ∘ S)).
Qed.

Lemma stamp_clean_rows lines selected :
  Spec.stamp (clean_lines lines) selected
  = imap (fun y l =>
            string_of_list_ascii
              (imap (fun x c => Spec.stamped_cell selected x y (Spec.cleaned c))
                    (list_ascii_of_string l))) lines.
Proof.
  unfold Spec.stamp, clean_lines. rewrite imap_fmap.
  apply imap_ext. intros y l _. simpl.
  apply (row_map_replace (fun x c => Spec.stamped_cell selected x y c)).
Qed.

Lemma stamped_keeps_symbols selected y x c :
  is_space c = false →
  is_space (Spec.stamped_cell selected x y (Spec.cleaned c)) = false.
Proof.
  intros Hc. unfold Spec.stamped_cell, Spec.cleaned.
  destruct (bool_decide _); [done|].
  by destruct (Ascii.eqb c "*").
Qed.

(** With enough candidates and a required count above zero, the pattern
    returned is the stripped input rewritten cell by cell: a selected cell
    becomes a diamond, another diamond becomes ['.'], and nothing else
    changes, the line feeds included. *)
Lemma redistribute_rewrites text required :
  0 < required <= Spec.walkable text → Spec.walkable text < 2 ^ 25 →
  let sel := Spec.selected_cells
               (Spec.candidates (clean_lines (lines_of text))) required in
  redistribute_cave_diamonds text required
  = ([], Ret (Spec.rewrite_text
                (fun y x c => Spec.stamped_cell sel x y (Spec.cleaned c))
                0 0 (strip text)))
  ∧ Spec.rewrite_text (fun y x c => Spec.stamped_cell sel x y (Spec.cleaned c))
      0 0 (strip text)
    = join_nl (Spec.stamp (clean_lines (lines_of text)) sel).
Proof.
  intros Hreq Hn sel.
  destruct (selection_facts text required Hreq Hn) as (_ & _ & _ & Hout & _).
  fold sel in Hout. rewrite Hout.
  assert (Heq : Spec.rewrite_text
                  (fun y x c => Spec.stamped_cell sel x y (Spec.cleaned c))
                  0 0 (strip text)
                = join_nl (Spec.stamp (clean_lines (lines_of text)) sel));
    [|by rewrite Heq].
  rewrite stamp_clean_rows. unfold lines_of.
  destruct (rewrite_text_rows
              (fun y x c => Spec.stamped_cell sel x y (Spec.cleaned c))
              (strip text) 0 0) as (l & ls & -> & ->).
  by rewrite imap_cons.
Qed.

Lemma imap_imap {A B C} (f : nat → B → C) (g : nat → A → B) l :
  imap f (imap g l) = imap (fun n x => f n (g n x)) l.
Proof.
  revert f g. induction l as [|x l IH]; intros f g; [done|].
  rewrite !imap_cons. f_equal. apply (IH (f ∘ S) (g ∘ S)).
Qed.

Lemma cleaned_row_get lines l x :
  l ∈ clean_lines lines → String.get x l ≠ Some "*"%char.
Proof.
  intros (l0 & -> & _)%list_elem_of_fmap. rewrite get_replace.
  destruct (String.get x l0) as [c|]; [|done]. simpl.
  destruct (Ascii.eqb_spec c "*"); congruence.
Qed.

(** Cleaning the result gives a grid with the candidates of the cleaned
    input. *)
Lemma candidates_again lines selected :
  (∀ p, p ∈ selected → p ∈ Spec.candidates (clean_lines lines)) →
  Spec.candidates (clean_lines (Spec.stamp (clean_lines lines) selected))
  = Spec.candidates (clean_lines lines).
Proof.
  intros Hsub. set (cl := clean_lines lines) in *.
  unfold Spec.candidates. f_equal.
  unfold clean_lines at 1, Spec.stamp. rewrite imap_fmap, imap_imap.
  apply imap_ext. intros y l Hl. simpl.
  unfold Spec.row_candidates.
  rewrite length_replace, length_string_of_list, length_imap, length_list_of_string.
  f_equal. apply list_filter_iff. intros x.
  rewrite get_replace.
  rewrite (get_row_map (fun k c => Spec.stamped_cell selected k y c)).
  pose proof (cleaned_row_get lines l x (list_elem_of_lookup_2 _ _ _ Hl)) as Hnd.
  destruct (String.get x l) as [c|] eqn:Hx; simpl; [|by split; intros [?|?]].
  unfold Spec.stamped_cell.
  destruct (bool_decide_reflect ((x, y) ∈ selected)) as [Hin|Hin].
  - simpl. split; [intros _|by left].
    apply Hsub, elem_of_candidates in Hin.
    rewrite !(SealedFacts.cell_row cl l) in Hin by (rewrite ?Nat2Z.id; done || lia).
    by rewrite !Nat2Z.id, Hx in Hin.
  - destruct (Ascii.eqb_spec c "*") as [->|]; [done|]. done.
Qed.

(** Stamping the selected cells on the cleaned result gives the result. *)
Lemma stamp_again lines selected :
  Spec.stamp (clean_lines (Spec.stamp (clean_lines lines) selected)) selected
  = Spec.stamp (clean_lines lines) selected.
Proof.
  set (cl := clean_lines lines).
  unfold Spec.stamp at 1, clean_lines at 1. unfold Spec.stamp at 1.
  rewrite imap_fmap, imap_imap. unfold Spec.stamp.
  apply imap_ext. intros y l Hl. simpl.
  apply String.get_correct. intros x.
  rewrite !(get_row_map (fun k c => Spec.stamped_cell selected k y c)).
  rewrite get_replace.
  rewrite (get_row_map (fun k c => Spec.stamped_cell selected k y c)).
  pose proof (cleaned_row_get lines l x (list_elem_of_lookup_2 _ _ _ Hl)) as Hnd.
  destruct (String.get x l) as [c|] eqn:Hx; simpl; [|done].
  unfold Spec.stamped_cell.
  destruct (bool_decide ((x, y) ∈ selected)); [done|].
  destruct (Ascii.eqb_spec c "*") as [->|]; [done|]. done.
Qed.

(** X19: Running the redistribution on its own result changes nothing: with
    the same required count the second run selects the same cells and returns
    the same pattern. *)
Theorem redistribute_twice text required :
  0 < required <= Spec.walkable text → Spec.walkable text < 2 ^ 25 →
  ∃ out, redistribute_cave_diamonds text required = ([], Ret out)
    ∧ redistribute_cave_diamonds out required = ([], Ret out).
Proof.
  intros Hreq Hn.
  destruct (selection_facts text required Hreq Hn)
    as (_ & _ & Hsub & Hout & Hsplit).
  destruct (redistribute_rewrites text required Hreq Hn) as [_ Hrw].
  set (cl := clean_lines (lines_of text)) in *.
  set (sel := Spec.selected_cells (Spec.candidates cl) required) in *.
  set (out := join_nl (Spec.stamp cl sel)) in *.
  exists out. split; [done|].
  assert (Hlines : lines_of out = Spec.stamp cl sel).
  { unfold lines_of.
    assert (Hstrip : strip out = out); [|by rewrite Hstrip].
    destruct (strip_is_stripped text) as [Hls Hrs].
    unfold strip. rewrite <- Hrw.
    rewrite (lstrip_rewrite_text _ (stamped_keeps_symbols sel)) by done.
    by rewrite (rstrip_rewrite_text _ (stamped_keeps_symbols sel)). }
  assert (Hcand : Spec.candidates (clean_lines (lines_of out)) = Spec.candidates cl).
  { rewrite Hlines. by apply candidates_again. }
  assert (Hw : Spec.walkable out = Spec.walkable text).
  { unfold Spec.walkable. fold cl. by rewrite Hcand. }
  destruct (selection_facts out required) as (_ & _ & _ & Hout2 & _);
    [by rewrite Hw|by rewrite Hw|].
  rewrite Hout2, Hcand, Hlines. fold sel.
  unfold out. f_equal. f_equal. f_equal. apply stamp_again.
Qed.

Lemma redistribute_twice_witness :
  ∃ out,
    redistribute_cave_diamonds (join_nl ["WWWWW"; "W*P.W"; "W.*.W"; "WW WW"]) 3
    = ([], Ret out)
    ∧ redistribute_cave_diamonds out 3 = ([], Ret out).
Proof.
  apply (redistribute_twice (join_nl ["WWWWW"; "W*P.W"; "W.*.W"; "WW WW"]) 3).
  - vm_compute. split; [reflexivity|discriminate].
  - vm_compute. reflexivity.
Defined.

End RewriteFacts.

(** ** fix-all-caves.py *)

Module FixAllCavesFacts.
Import PyStr PyStrFacts Redistribute RedistributeFacts SelectionFacts.
Import GridFacts ScanFacts RedistributeMoreFacts FixAllCaves.

(** A stamped row holds the diamonds it had and one more for each selected
    cell, when no selected cell held a diamond. *)
Lemma count_stamped_string selected y l : ∀ x0,
  (∀ k, (x0 + k, y)%nat ∈ selected → String.get k l ≠ Some "*"%char) →
  count "*" (string_of_list_ascii
               (imap (fun x c => Spec.stamped_cell selected (x0 + x) y c)
                     (list_ascii_of_string l)))
  = (count "*" l
     + length (filter (fun x => (x, y) ∈ selected) (seq x0 (String.length l))))%nat.
Proof.
  induction l as [|c l IH]; intros x0 Hl; [done|].
  cbn [list_ascii_of_string]. rewrite imap_cons.
  cbn [string_of_list_ascii count String.length seq].
  rewrite filter_cons, Nat.add_0_r.
  assert (Hext : imap ((fun x c0 => Spec.stamped_cell selected (x0 + x) y c0) ∘ S)
                      (list_ascii_of_string l)
                 = imap (fun x c0 => Spec.stamped_cell selected (S x0 + x) y c0)
                        (list_ascii_of_string l)).
  { apply imap_ext. intros x c0 _. simpl. f_equal. lia. }
  rewrite Hext, IH.
  2:{ intros k Hk. apply (Hl (S k)). by replace (x0 + S k)%nat with (S x0 + k)%nat by lia. }
  unfold Spec.stamped_cell.
  destruct (decide ((x0, y) ∈ selected)) as [Hin|Hin].
  - rewrite bool_decide_true by done.
    assert (c ≠ "*"%char).
    { intros ->. apply (Hl 0%nat); [by rewrite Nat.add_0_r|done]. }
    destruct (Ascii.eqb_spec c "*"); [done|]. simpl. lia.
  - rewrite bool_decide_false by done. lia.
Qed.

Lemma diamonds_stamped_add selected lines : ∀ y0,
  (∀ k line x, lines !! k = Some line → (x, (y0 + k)%nat) ∈ selected →
               String.get x line ≠ Some "*"%char) →
  Spec.diamonds
    (imap (fun k line =>
             string_of_list_ascii
               (imap (fun x c => Spec.stamped_cell selected x (y0 + k) c)
                     (list_ascii_of_string line))) lines)
  = (Spec.diamonds lines
     + length (filter (fun p => p ∈ selected)
                 (concat (imap (fun k line =>
                                  map (fun x => (x, (y0 + k)%nat))
                                      (seq 0 (String.length line))) lines))))%nat.
Proof.
  induction lines as [|l lines IH]; intros y0 Hl; [done|].
  rewrite !imap_cons, concat_cons, filter_app, length_app.
  assert (E1 : imap ((fun k line =>
                        string_of_list_ascii
                          (imap (fun x c => Spec.stamped_cell selected x (y0 + k) c)
                                (list_ascii_of_string line))) ∘ S) lines
               = imap (fun k line =>
                         string_of_list_ascii
                           (imap (fun x c => Spec.stamped_cell selected x (S y0 + k) c)
                                 (list_ascii_of_string line))) lines).
  { apply imap_ext. intros k line _. simpl. f_equal.
    apply imap_ext. intros x c _. f_equal. lia. }
  assert (E2 : imap ((fun k line => map (fun x => (x, (y0 + k)%nat))
                                        (seq 0 (String.length line))) ∘ S) lines
               = imap (fun k line => map (fun x => (x, (S y0 + k)%nat))
                                         (seq 0 (String.length line))) lines).
  { apply imap_ext. intros k line _. simpl.
    apply list_fmap_ext. intros i x _. f_equal. lia. }
  rewrite E1, E2. unfold Spec.diamonds in *. cbn [foldr].
  rewrite (IH (S y0)).
  2:{ intros k line x Hk Hx. apply (Hl (S k) line x); [done|].
      by replace (y0 + S k)%nat with (S y0 + k)%nat by lia. }
  rewrite filter_fmap_list, length_map, Nat.add_0_r.
  pose proof (count_stamped_string selected y0 l 0%nat) as Hrow.
  cbn [Nat.add] in Hrow. rewrite Hrow; [simpl; lia|].
  intros k Hk. apply (Hl 0%nat l k); [done|by rewrite Nat.add_0_r].
Qed.


Lemma slice_to_take {A} (l : list A) n :
  ∃ k, slice_to l n = take k l
       ∧ k = if n <? 0 then (length l - Z.to_nat (- n))%nat else Z.to_nat n.
Proof. unfold slice_to. destruct (n <? 0); eauto. Qed.

(** Lines 22-37 for a required count that does not exceed the number of
    candidates: the cells stamped are different candidates of the grid, as
    many as the slice of line 26 takes, and the grid returned has the same
    shape and that many diamonds more. *)
Lemma distribute_facts shuffle lines required :
  (∀ l, shuffle l ≡ₚ l) →
  required <= Z.of_nat (length (Spec.candidates lines)) →
  let sel := slice_to (shuffle (Spec.candidates lines)) required in
  distribute_diamonds shuffle lines required = ([], Spec.stamp lines sel)
  ∧ (∀ p, p ∈ sel → p ∈ Spec.candidates lines)
  ∧ length sel = (if required <? 0
                  then (length (Spec.candidates lines) - Z.to_nat (- required))%nat
                  else Z.to_nat required)
  ∧ Spec.diamonds (Spec.stamp lines sel) = (Spec.diamonds lines + length sel)%nat
  ∧ Spec.shape (Spec.stamp lines sel) = Spec.shape lines.
Proof.
  intros Hperm Hreq sel.
  destruct (slice_to_take (shuffle (Spec.candidates lines)) required)
    as (k & Hsel & Hk).
  fold sel in Hsel.
  assert (Hlen : length (shuffle (Spec.candidates lines))
                 = length (Spec.candidates lines))
    by (by rewrite Hperm).
  assert (Hsub : ∀ p, p ∈ sel → p ∈ Spec.candidates lines).
  { intros p Hp. rewrite Hsel in Hp. apply subseteq_take in Hp.
    by rewrite Hperm in Hp. }
  assert (Hnd : NoDup sel).
  { rewrite Hsel. apply (sublist_NoDup _ (shuffle (Spec.candidates lines)));
      [|apply sublist_take]. rewrite Hperm. apply NoDup_candidates. }
  split; [|split; [done|split; [|split]]].
  - unfold distribute_diamonds. cbv zeta. rewrite valid_positions_spec.
    destruct (Z.ltb_spec (Z.of_nat (length (Spec.candidates lines))) required);
      [lia|].
    by rewrite stamp_spec.
  - rewrite Hsel, length_take, Hk, Hlen.
    destruct (Z.ltb_spec required 0); lia.
  - unfold Spec.stamp.
    pose proof (diamonds_stamped_add sel lines 0%nat) as Hd.
    cbn [Nat.add] in Hd. rewrite Hd.
    + f_equal. fold (Spec.cells_of lines). apply length_filter_selected.
      * apply NoDup_cells_of.
      * done.
      * intros p Hp. by apply candidates_cells, Hsub.
    + intros y line x Hl Hin Hx.
      apply Hsub, elem_of_candidates in Hin.
      rewrite !(SealedFacts.cell_row lines line) in Hin
        by (rewrite ?Nat2Z.id; done || lia).
      rewrite !Nat2Z.id, Hx in Hin. by destruct Hin.
  - apply shape_stamp.
Qed.

(** What becomes of a cell: it keeps its symbol, or it held ['.'] or [' ']
    and holds a diamond now. *)
Lemma distributed_cell lines sel x y c :
  (∀ p, p ∈ sel → p ∈ Spec.candidates lines) →
  Spec.cell lines x y = Some c →
  Spec.cell (Spec.stamp lines sel) x y = Some c
  ∨ ((c = "."%char ∨ c = " "%char)
     ∧ Spec.cell (Spec.stamp lines sel) x y = Some "*"%char).
Proof.
  intros Hsub Hc. rewrite cell_stamp, Hc. simpl. unfold Spec.stamped_cell.
  destruct (bool_decide_reflect ((Z.to_nat x, Z.to_nat y) ∈ sel)) as [Hin|Hin];
    [right|by left].
  apply Hsub, elem_of_candidates in Hin.
  apply cell_Some in Hc as Hxy. rewrite !Z2Nat.id in Hin by lia.
  rewrite Hc in Hin. split; [|done].
  destruct Hin as [[= ->]|[= ->]]; auto.
Qed.

(** X20: With fewer candidate cells than diamonds to add, the rows are
    returned as they are and the warning is printed. *)
Theorem distribute_short_of_space shuffle lines required :
  Z.of_nat (length (Spec.candidates lines)) < required →
  distribute_diamonds shuffle lines required
  = ([warning_line required], lines).
Proof.
  intros H. unfold distribute_diamonds. cbv zeta. rewrite valid_positions_spec.
  apply Z.ltb_lt in H. by rewrite H.
Qed.

Lemma distribute_short_of_space_witness :
  distribute_diamonds reverse ["W.W"; "*P "] 3
  = (["Warning: Not enough positions for 3 diamonds"], ["W.W"; "*P "]).
Proof.
  apply (distribute_short_of_space reverse ["W.W"; "*P "] 3).
  vm_compute. reflexivity.
Defined.

(** X21: With enough candidate cells, and whatever the rearrangement of line
    25: the grid returned has the shape of the input; it holds the diamonds of
    the input, which are kept, and exactly the required number of new ones;
    and a cell that changes held ['.'] or [' '] and holds a diamond. *)
Theorem distribute_adds_required shuffle lines required :
  (∀ l, shuffle l ≡ₚ l) →
  0 <= required <= Z.of_nat (length (Spec.candidates lines)) →
  ∃ out, distribute_diamonds shuffle lines required = ([], out)
    ∧ Spec.shape out = Spec.shape lines
    ∧ Z.of_nat (Spec.diamonds out) = Z.of_nat (Spec.diamonds lines) + required
    ∧ ∀ x y c, Spec.cell lines x y = Some c →
        Spec.cell out x y = Some c
        ∨ ((c = "."%char ∨ c = " "%char) ∧ Spec.cell out x y = Some "*"%char).
Proof.
  intros Hperm [H0 Hreq].
  destruct (distribute_facts shuffle lines required Hperm Hreq)
    as (Hout & Hsub & Hlen & Hd & Hshape).
  eexists. split; [exact Hout|]. split; [done|]. split.
  - rewrite Hd, Hlen. destruct (Z.ltb_spec required 0); lia.
  - intros x y c Hc. by apply distributed_cell.
Qed.

Lemma distribute_adds_required_witness :
  ∃ out, distribute_diamonds reverse ["W.W"; "*P "] 1 = ([], out)
    ∧ Spec.shape out = Spec.shape ["W.W"; "*P "]
    ∧ Z.of_nat (Spec.diamonds out) = Z.of_nat (Spec.diamonds ["W.W"; "*P "]) + 1
    ∧ ∀ x y c, Spec.cell ["W.W"; "*P "] x y = Some c →
        Spec.cell out x y = Some c
        ∨ ((c = "."%char ∨ c = " "%char) ∧ Spec.cell out x y = Some "*"%char).
Proof.
  apply (distribute_adds_required reverse ["W.W"; "*P "] 1).
  - intros l. apply reverse_Permutation.
  - vm_compute. split; discriminate.
Defined.

(** X22: A negative required count is no error either: the slice of line 26
    then leaves out the last [- required] cells of the rearranged list, so all
    the candidates but that many receive a diamond. *)
Theorem distribute_negative_required shuffle lines required :
  (∀ l, shuffle l ≡ₚ l) → required < 0 →
  ∃ out, distribute_diamonds shuffle lines required = ([], out)
    ∧ Spec.shape out = Spec.shape lines
    ∧ Z.of_nat (Spec.diamonds out)
      = Z.of_nat (Spec.diamonds lines)
        + Z.max 0 (Z.of_nat (length (Spec.candidates lines)) + required).
Proof.
  intros Hperm Hneg.
  destruct (distribute_facts shuffle lines required Hperm ltac:(lia))
    as (Hout & Hsub & Hlen & Hd & Hshape).
  eexists. split; [exact Hout|]. split; [done|].
  rewrite Hd, Hlen. destruct (Z.ltb_spec required 0); lia.
Qed.

Lemma distribute_negative_required_witness :
  ∃ out, distribute_diamonds reverse ["W.W"; "*P "] (-1) = ([], out)
    ∧ Spec.shape out = Spec.shape ["W.W"; "*P "]
    ∧ Z.of_nat (Spec.diamonds out)
      = Z.of_nat (Spec.diamonds ["W.W"; "*P "])
        + Z.max 0 (Z.of_nat (length (Spec.candidates ["W.W"; "*P "])) + -1).
Proof.
  apply (distribute_negative_required reverse ["W.W"; "*P "] (-1)).
  - intros l. apply reverse_Permutation.
  - reflexivity.
Defined.

End FixAllCavesFacts.

(** ** check-sealed-diamonds.py: how many issues *)

Module SealedCountFacts.
Import PyStr PyStrFacts Grid GridFacts Sealed SealedFacts ScanFacts SealedReportFacts.

Lemma length_row_positions c y line :
  length (Spec.row_positions c y line) = count c line.
Proof.
  unfold Spec.row_positions. rewrite length_map.
  induction line as [|a line IH]; [done|].
  cbn [String.length count].
  rewrite <- cons_seq, <- fmap_S_seq, filter_cons,
    RedistributeFacts.filter_fmap_list.
  cbn [String.get]. rewrite <- IH.
  destruct (Ascii.eqb_spec a c) as [->|Hne].
  - rewrite decide_True by done. cbn [length]. by rewrite length_fmap.
  - rewrite decide_False by congruence. by rewrite length_fmap.
Qed.

Lemma length_concat_rows (f : nat → string → list (Z * Z)) lines :
  (∀ k l, length (f k l) = count "*" l) →
  length (concat (imap f lines)) = Spec.diamonds lines.
Proof.
  revert f. induction lines as [|l lines IH]; intros f Hf; [done|].
  rewrite imap_cons, concat_cons, length_app, Hf.
  rewrite (IH (f ∘ S)) by (intros; apply Hf). done.
Qed.

Lemma length_positions lines :
  length (Spec.positions "*" lines) = Spec.diamonds lines.
Proof.
  apply length_concat_rows. intros k l. apply length_row_positions.
Qed.

Lemma length_bind_le {A B} (f : A → list B) (l : list A) n :
  (∀ a, (length (f a) ≤ n)%nat) → (length (l ≫= f) ≤ n * length l)%nat.
Proof.
  intros Hf. induction l as [|a l IH]; [simpl; lia|].
  rewrite bind_cons, length_app. specialize (Hf a). simpl. lia.
Qed.

Lemma length_issues_at lines p : (length (Spec.issues_at lines p) ≤ 2)%nat.
Proof.
  unfold Spec.issues_at.
  destruct (bool_decide _); [|simpl; lia].
  rewrite length_app. destruct (bool_decide _), (bool_decide _); simpl; lia.
Qed.

(** X23: The report holds two issues for a diamond at most, so it is never
    longer than twice the number of diamonds of the pattern. *)
Theorem at_most_two_issues_per_diamond pattern_text cave_name :
  ∃ issues, check_sealed_diamonds pattern_text cave_name = Ret issues
    ∧ (length issues ≤ 2 * count "*" pattern_text)%nat.
Proof.
  rewrite check_sealed_exact. eexists. split; [done|].
  rewrite <- (diamonds_split_strip pattern_text).
  fold (lines_of pattern_text). rewrite <- length_positions.
  apply length_bind_le. intros p. apply length_issues_at.
Qed.

Lemma eight_walls_sealed lines x y :
  Spec.walls_inside lines x y = 8 → Spec.fully_sealed lines x y.
Proof.
  unfold Spec.walls_inside, Spec.fully_sealed, Spec.cell_at, Spec.neighbours8.
  intros H.
  repeat (rewrite filter_cons in H;
          match type of H with
          | context [decide (?P)] => destruct (decide P) as [?|?]
          end);
    rewrite ?filter_nil in H; cbn [length] in H; try lia.
  simpl in *.
  repeat match goal with
         | H : Spec.cell _ _ _ = Some _ |- _ => rewrite H; clear H
         end.
  done.
Qed.

(** X24: The two messages are counted one by one: a diamond between the
    first and the last row whose eight neighbours are all Wall cells of the
    grid is reported twice, as sealed and as heavily walled, so that the
    number of issues can exceed the number of diamonds concerned. *)
Theorem walled_in_diamond_counts_twice pattern_text cave_name x y :
  Spec.cell (lines_of pattern_text) x y = Some "*"%char →
  0 < y < Z.of_nat (length (lines_of pattern_text)) - 1 →
  Spec.walls_inside (lines_of pattern_text) x y = 8 →
  ∃ issues, check_sealed_diamonds pattern_text cave_name = Ret issues
    ∧ sealed_issue x y ∈ issues ∧ walled_issue x y ∈ issues.
Proof.
  intros Hc Hy Hw. rewrite check_sealed_exact. eexists. split; [done|].
  assert (Hat : Spec.issues_at (lines_of pattern_text) (x, y)
                = [sealed_issue x y; walled_issue x y]).
  { unfold Spec.issues_at. cbn [fst snd].
    rewrite bool_decide_true by done.
    rewrite bool_decide_true by (by apply eight_walls_sealed).
    rewrite bool_decide_true by lia. done. }
  split; apply list_elem_of_bind; exists (x, y); rewrite Hat;
    (split; [|by apply elem_of_positions]).
  - left.
  - right. left.
Qed.

Lemma walled_in_diamond_counts_twice_witness :
  ∃ issues,
    check_sealed_diamonds (join_nl ["WWW"; "W*W"; "WWW"; "P.."]) "" = Ret issues
    ∧ sealed_issue 1 1 ∈ issues ∧ walled_issue 1 1 ∈ issues.
Proof.
  apply (walled_in_diamond_counts_twice
           (join_nl ["WWW"; "W*W"; "WWW"; "P.."]) "" 1 1).
  - vm_compute. reflexivity.
  - vm_compute. split; reflexivity.
  - vm_compute. reflexivity.
Defined.

End SealedCountFacts.

(** ** check-sealed-diamonds.py: the text of the sealed flag *)

Module SealedFlagFacts.
Import PyStr PyStrFacts Grid GridFacts Sealed SealedFacts ScanFacts SealedReportFacts.

(** *** The text of a message names its cell *)

Lemma to_int_proper n :
  Z.to_int n ≠ Decimal.Pos Decimal.Nil ∧ Z.to_int n ≠ Decimal.Neg Decimal.Nil.
Proof.
  destruct n as [|p|p]; simpl; split; try done; intros [= H];
    by apply DecimalPos.Unsigned.to_uint_nonnil in H.
Qed.

(** [str(n)] tells the integers apart. *)
Lemma str_of_int_inj a b : str_of_int a = str_of_int b → a = b.
Proof.
  unfold str_of_int. intros H.
  apply DecimalZ.to_int_inj.
  destruct (to_int_proper a) as [Ha1 Ha2], (to_int_proper b) as [Hb1 Hb2].
  pose proof (NilZero.isi _ Ha1 Ha2) as Ia.
  pose proof (NilZero.isi _ Hb1 Hb2) as Ib.
  rewrite H in Ia. congruence.
Qed.

Lemma digits_only c d :
  c ≠ "0"%char → c ≠ "1"%char → c ≠ "2"%char → c ≠ "3"%char → c ≠ "4"%char →
  c ≠ "5"%char → c ≠ "6"%char → c ≠ "7"%char → c ≠ "8"%char → c ≠ "9"%char →
  count c (NilEmpty.string_of_uint d) = 0%nat.
Proof.
  intros. induction d as [|d IH|d IH|d IH|d IH|d IH|d IH|d IH|d IH|d IH|d IH];
    cbn [NilEmpty.string_of_uint count]; [done|..]; rewrite IH;
    match goal with
    | |- context [Ascii.eqb ?a c] => destruct (Ascii.eqb_spec a c); [congruence|done]
    end.
Qed.

(** [str(n)] holds digits and, for a negative [n], a minus sign first:
    neither a comma nor a bracket. *)
Lemma str_of_int_plain c n :
  c = ","%char ∨ c = ")"%char → count c (str_of_int n) = 0%nat.
Proof.
  intros Hc. unfold str_of_int.
  assert (Hu : ∀ d, count c (NilZero.string_of_uint d) = 0%nat).
  { intros d. destruct d;
      try (apply (digits_only c); destruct Hc as [-> | ->]; discriminate).
    destruct Hc as [-> | ->]; reflexivity. }
  destruct (Z.to_int n) as [d|d]; simpl; [apply Hu|].
  rewrite Hu. by destruct Hc as [-> | ->].
Qed.

(** Two texts cut at the first [c] agree on both sides of it. *)
Lemma cut_at c s : ∀ s' t t',
  count c s = 0%nat → count c s' = 0%nat →
  s ++ String c t = s' ++ String c t' → s = s' ∧ t = t'.
Proof.
  induction s as [|a s IH]; intros [|a' s'] t t' Hs Hs' H; simpl in *.
  - by injection H.
  - injection H as <- _. by rewrite Ascii.eqb_refl in Hs'.
  - injection H as -> _. by rewrite Ascii.eqb_refl in Hs.
  - injection H as <- H.
    destruct (Ascii.eqb a c); [done|].
    destruct (IH s' t t' Hs Hs' H) as [-> ->]. done.
Qed.

Lemma message_parts x y x' y' tail tail' :
  "Diamond at (" ++ str_of_int x ++ "," ++ str_of_int y ++ String ")" tail
  = "Diamond at (" ++ str_of_int x' ++ "," ++ str_of_int y' ++ String ")" tail' →
  x = x' ∧ y = y' ∧ tail = tail'.
Proof.
  intros H. cbn [String.append] in H.
  repeat (injection H as H).
  change ("," ++ ?s) with (String "," s) in H.
  apply cut_at in H as [Hx H]; [|by apply str_of_int_plain; left..].
  apply cut_at in H as [Hy H]; [|by apply str_of_int_plain; right..].
  apply str_of_int_inj in Hx, Hy. done.
Qed.

(** The "sealed" message of a cell is the message of no other cell. *)
Lemma sealed_issue_inj x y x' y' :
  sealed_issue x y = sealed_issue x' y' → x = x' ∧ y = y'.
Proof.
  unfold sealed_issue. intros H.
  apply (message_parts x y x' y' " completely sealed by walls"
           " completely sealed by walls") in H. tauto.
Qed.

(** The two messages never have the same text. *)
Lemma sealed_is_not_walled x y x' y' : sealed_issue x y ≠ walled_issue x' y'.
Proof.
  unfold sealed_issue, walled_issue. intros H.
  apply (message_parts x y x' y' " completely sealed by walls"
           " in heavily walled area") in H.
  by destruct H as (_ & _ & H).
Qed.

(** C6: a diamond below the first row and above the last whose four
    orthogonal neighbours are Wall is reported, and the report names its
    cell: the list returned holds the text
    [Diamond at (x,y) completely sealed by walls] with the column and the
    row of the diamond in decimal, and a text of this form is in the list
    for the sealed diamonds only, each under its own coordinates. *)
Theorem sealed_diamond_is_flagged pattern_text cave_name x y :
  Spec.cell (lines_of pattern_text) x y = Some "*"%char →
  0 < y < Z.of_nat (length (lines_of pattern_text)) - 1 →
  Spec.fully_sealed (lines_of pattern_text) x y →
  ∃ issues, check_sealed_diamonds pattern_text cave_name = Ret issues
    ∧ ("Diamond at (" ++ str_of_int x ++ "," ++ str_of_int y
       ++ ") completely sealed by walls") ∈ issues
    ∧ ∀ x' y',
        ("Diamond at (" ++ str_of_int x' ++ "," ++ str_of_int y'
         ++ ") completely sealed by walls") ∈ issues →
        Spec.cell (lines_of pattern_text) x' y' = Some "*"%char
        ∧ 0 < y' < Z.of_nat (length (lines_of pattern_text)) - 1
        ∧ Spec.fully_sealed (lines_of pattern_text) x' y'.
Proof.
  intros Hc Hy Hs. rewrite check_sealed_exact. eexists. split; [done|].
  split.
  - apply list_elem_of_bind. exists (x, y).
    split; [|by apply elem_of_positions].
    unfold Spec.issues_at. cbn [fst snd].
    rewrite !bool_decide_true by done.
    apply elem_of_app. left. apply list_elem_of_singleton. reflexivity.
  - intros x' y' Hin.
    apply list_elem_of_bind in Hin as ([px py] & Hissue & Hp).
    apply elem_of_positions in Hp. cbn [fst snd] in Hp.
    unfold Spec.issues_at in Hissue. cbn [fst snd] in Hissue.
    destruct (bool_decide_reflect
      (0 < py < Z.of_nat (length (lines_of pattern_text)) - 1)) as [Hpy|];
      [|inversion Hissue].
    apply elem_of_app in Hissue as [Hi|Hi].
    + destruct (bool_decide_reflect
        (Spec.fully_sealed (lines_of pattern_text) px py)) as [Hps|];
        [|inversion Hi].
      apply list_elem_of_singleton in Hi.
      apply (sealed_issue_inj x' y' px py) in Hi as [-> ->]. done.
    + destruct (bool_decide (7 <= Spec.walls_inside (lines_of pattern_text) px py));
        [|inversion Hi].
      apply list_elem_of_singleton in Hi.
      by apply (sealed_is_not_walled x' y' px py) in Hi.
Qed.

Lemma sealed_diamond_is_flagged_witness :
  ∃ issues,
    check_sealed_diamonds (join_nl ["WWWWW"; "W.PWW"; "W.W*W"; "WWWWW"]) ""
    = Ret issues
    ∧ "Diamond at (3,2) completely sealed by walls" ∈ issues
    ∧ ∀ x' y',
        ("Diamond at (" ++ str_of_int x' ++ "," ++ str_of_int y'
         ++ ") completely sealed by walls") ∈ issues →
        Spec.cell (lines_of (join_nl ["WWWWW"; "W.PWW"; "W.W*W"; "WWWWW"])) x' y'
        = Some "*"%char
        ∧ 0 < y' < Z.of_nat (length (lines_of
                                       (join_nl ["WWWWW"; "W.PWW"; "W.W*W"; "WWWWW"]))) - 1
        ∧ Spec.fully_sealed
            (lines_of (join_nl ["WWWWW"; "W.PWW"; "W.W*W"; "WWWWW"])) x' y'.
Proof.
  apply (sealed_diamond_is_flagged
           (join_nl ["WWWWW"; "W.PWW"; "W.W*W"; "WWWWW"]) "" 3 2).
  - vm_compute. reflexivity.
  - vm_compute. split; reflexivity.
  - vm_compute. repeat split; reflexivity.
Defined.

End SealedFlagFacts.
